(** * Atmospheric-state interpolation (isofit/utils/atm_interpolation.py)

    A shallow embedding of [_run_chunk] (the per-chunk worker) and of
    [atm_interpolation] (scheduler and smoothing pass), with the properties
    of the specification stated and proved over it.

    Conventions of the embedding:
    - numpy's float64 is IEEE-754 binary64, embedded as the Standard
      Library's [spec_float] with [prec = 53] and [emax = 1024]; every
      arithmetic operation is the correctly rounded one of [SpecFloat];
    - Python exceptions are the [Raise] case of [result];
    - the worker's mutable state (the [hash_table] dictionary, the output
      raster) is threaded explicitly; a ghost [trace] records the index
      queries, fits, cache stores and evaluations, for the call-count
      properties;
    - the functions of scipy that the module calls ([KDTree.query],
      [linalg.inv], [ndimage.gaussian_filter]) are parameters: the
      theorems hold for every behaviour of them (for the first two, every
      way of raising included); executable stand-ins instantiate them in
      the concrete runs;
    - [np.linspace] is embedded as numpy computes it, in float64: its cut
      points are not those of exact division. *)

From Stdlib Require Import ZArith List Bool Lia.
From Stdlib Require Import Floats.SpecFloat.
From stdpp Require Import gmap strings list.

Open Scope Z_scope.

(** ** Binary64 arithmetic *)

Definition float : Type := spec_float.

Definition prec : Z := 53.
Definition emax : Z := 1024.

Definition fadd : float -> float -> float := SFadd prec emax.
Definition fsub : float -> float -> float := SFsub prec emax.
Definition fmul : float -> float -> float := SFmul prec emax.
Definition fdiv : float -> float -> float := SFdiv prec emax.
Definition fabs : float -> float := SFabs.
Definition feqb : float -> float -> bool := SFeqb.
Definition fltb : float -> float -> bool := SFltb.
Definition fleb : float -> float -> bool := SFleb.

(** Conversion of a Python [int] to float64 (round to nearest even). *)
Definition float_of_Z (z : Z) : float := binary_normalize prec emax z 0 false.

Definition fzero : float := S754_zero false.
Definition fone : float := float_of_Z 1.
Definition fnan : float := S754_nan.

Definition isfinite (x : float) : bool :=
  match x with
  | S754_zero _ | S754_finite _ _ _ => true
  | S754_infinity _ | S754_nan => false
  end.

(** [np.floor(x).astype(int)]: the integer part towards minus infinity. *)
Definition float_floor (x : float) : Z :=
  match x with
  | S754_zero _ => 0
  | S754_finite s m e =>
      if 0 <=? e then cond_Zopp s (Z.pos m * 2 ^ e)
      else cond_Zopp s (Z.pos m) / 2 ^ (- e)
  | S754_infinity _ | S754_nan => - 2 ^ 63
  end.

(** [np.sum] along an axis: the terms are added from the first one on;
    an empty sum is [0.0]. *)
Definition fsum (l : list float) : float :=
  match l with
  | [] => fzero
  | x :: t => fold_left fadd t x
  end.

(** [np.isclose(a, b)] with the default [rtol = 1e-05], [atol = 1e-08]. *)
Definition rtol : float := fdiv fone (float_of_Z 100000).
Definition atol : float := fdiv fone (float_of_Z 100000000).

Definition isclose (a b : float) : bool :=
  if isfinite a && isfinite b
  then fleb (fabs (fsub a b)) (fadd atol (fmul rtol (fabs b)))
  else feqb a b.

(** ** Exceptions *)

Inductive exn : Set :=
| TypeError | IndexError | ValueError | NameError | LinAlgError.

Inductive result (A : Type) : Type :=
| Ok (a : A)
| Raise (e : exn).
Arguments Ok {A} a.
Arguments Raise {A} e.

Definition rbind {A B} (r : result A) (k : A -> result B) : result B :=
  match r with
  | Ok a => k a
  | Raise e => Raise e
  end.

#[global] Instance result_ret : MRet result := fun _ a => Ok a.
#[global] Instance result_bind : MBind result := fun _ _ k r => rbind r k.

Fixpoint rmap {A B} (f : A -> result B) (l : list A) : result (list B) :=
  match l with
  | [] => Ok []
  | a :: t => b ← f a; bs ← rmap f t; Ok (b :: bs)
  end.

(** Integer indexing of an array axis: out of range is an [IndexError]. *)
Definition index {A} (l : list A) (i : nat) : result A :=
  match l !! i with
  | Some a => Ok a
  | None => Raise IndexError
  end.

(** ** Geolocations *)

Record location : Type := mk_location { lat : float; lon : float; elev : float }.

(** [loc_scaling = np.array([1e6, 1e6, 0.01])] *)
Definition loc_scaling : location :=
  {| lat := float_of_Z 1000000;
     lon := float_of_Z 1000000;
     elev := fdiv fone (float_of_Z 100) |}.

Definition scale (x : location) : location :=
  {| lat := fmul (lat x) (lat loc_scaling);
     lon := fmul (lon x) (lon loc_scaling);
     elev := fmul (elev x) (elev loc_scaling) |}.

(** [np.all(np.isclose(x, nodata_value))] *)
Definition is_nodata (nodata_value : float) (x : location) : bool :=
  isclose (lat x) nodata_value && isclose (lon x) nodata_value
  && isclose (elev x) nodata_value.

(** ** Dense matrices *)

Record matrix : Type := mk_matrix {
  nrows : nat;
  ncols : nat;
  cells : list (list float)
}.

Definition shape (A : matrix) : nat * nat := (nrows A, ncols A).

Definition mget (A : matrix) (i j : nat) : float :=
  nth j (nth i (cells A) []) fzero.

Definition mbuild (r c : nat) (f : nat -> nat -> float) : matrix :=
  {| nrows := r; ncols := c;
     cells := map (fun i => map (f i) (seq 0 c)) (seq 0 r) |}.

(** [np.zeros((r, c))] *)
Definition zeros (r c : nat) : matrix := mbuild r c (fun _ _ => fzero).

(** [A.T] *)
Definition transpose (A : matrix) : matrix :=
  mbuild (ncols A) (nrows A) (fun i j => mget A j i).

(** [np.diag(np.ones(n))] *)
Definition identity (n : nat) : matrix :=
  mbuild n n (fun i j => if Nat.eqb i j then fone else fzero).

(** [A @ B]; mismatched inner dimensions raise [ValueError]. The inner
    products are summed from the first term on; no property below depends
    on the order. *)
Definition matmul (A B : matrix) : result matrix :=
  if Nat.eqb (ncols A) (nrows B)
  then Ok (mbuild (nrows A) (ncols B)
             (fun i j => fsum (map (fun k => fmul (mget A i k) (mget B k j))
                                 (seq 0 (ncols A)))))
  else Raise ValueError.

(** [bhat[i, :] = V] for a row of [width] entries: [V] of shape
    [(1, width)] is copied, [V] of shape [(1, 1)] is broadcast, any other
    shape raises [ValueError]. *)
Definition row_of_value (width : nat) (V : matrix) : result (list float) :=
  if Nat.eqb (nrows V) 1 then
    if Nat.eqb (ncols V) width then Ok (map (mget V 0) (seq 0 width))
    else if Nat.eqb (ncols V) 1 then Ok (replicate width (mget V 0 0))
    else Raise ValueError
  else Raise ValueError.

(** ** Inputs of a run *)

(** The rasters the module opens, as loaded arrays. [segmentation] is
    [None] when no [segmentation_file] is given (line 100). *)
Record inputs : Type := mk_inputs {
  band_names : list string;
  reference_state_full : list (list float);
  reference_locations : list location;
  input_locations : list (list location);
  segmentation : option (list (list Z))
}.

(** [x[:4] != 'RFL_'] *)
Definition is_atm_band (name : string) : bool :=
  negb (String.eqb (String.substring 0 4 name) "RFL_").

(** [np.where(np.array([x[:4] != 'RFL_' for x in band_names]))[0]] *)
Definition atm_bands (names : list string) : list nat :=
  List.filter (fun i => is_atm_band (nth i names EmptyString))
    (seq 0 (length names)).

(** [reference_state_mm[:, :, atm_bands]], one row per reference pixel. *)
Definition reference_state (inp : inputs) : list (list float) :=
  map (fun r => map (fun b => nth b r fzero) (atm_bands (band_names inp)))
    (reference_state_full inp).

Definition n_atm_bands (inp : inputs) : nat :=
  length (atm_bands (band_names inp)).

(** ** Worker state *)

(** Ghost events, in the order the worker performs them. *)
Inductive event : Type :=
| EvNodata (row col : nat)
| EvQuery (row col : nat)
| EvFit (row col : nat) (label : Z) (bhat : matrix)
| EvStore (label : Z) (bhat : matrix)
| EvEval (row col : nat) (label : Z) (bhat : matrix).

Record wstate : Type := mk_wstate {
  hash_table : gmap Z matrix;
  output : gmap nat (list (list float));
  trace : list event
}.

Definition log (e : event) (st : wstate) : wstate :=
  {| hash_table := hash_table st; output := output st;
     trace := trace st ++ [e] |}.

Definition store (label : Z) (bhat : matrix) (st : wstate) : wstate :=
  {| hash_table := <[label := bhat]> (hash_table st); output := output st;
     trace := trace st ++ [EvStore label bhat] |}.

(** Modelled from the spec: [write_bil_chunk], which this module imports
    from [isofit.core.fileio]. Following section 4.5 of the specification
    it places the worker's row block at its own line of the shared output
    raster and touches nothing else. *)
Definition write_bil_chunk (row : nat) (block : list (list float))
    (st : wstate) : wstate :=
  {| hash_table := hash_table st; output := <[row := block]> (output st);
     trace := trace st |}.

(** State and exception monad of the worker. *)
Definition W (A : Type) : Type := wstate -> wstate * result A.

Definition wret {A} (a : A) : W A := fun st => (st, Ok a).

Definition wbind {A B} (m : W A) (k : A -> W B) : W B :=
  fun st =>
    match m st with
    | (st', Ok a) => k a st'
    | (st', Raise e) => (st', Raise e)
    end.

#[global] Instance W_ret : MRet W := @wret.
#[global] Instance W_bind : MBind W := fun _ _ k m => wbind m k.

Definition lift {A} (r : result A) : W A := fun st => (st, r).
Definition get_table : W (gmap Z matrix) := fun st => (st, Ok (hash_table st)).
Definition emit (e : event) : W unit := fun st => (log e st, Ok tt).
Definition put (label : Z) (bhat : matrix) : W unit :=
  fun st => (store label bhat st, Ok tt).
Definition write_block (row : nat) (block : list (list float)) : W unit :=
  fun st => (write_bil_chunk row block st, Ok tt).

(** What [tree.query(x, k)] returns as neighbour ids: a scalar when scipy
    squeezes the result, an array otherwise. *)
Inductive nn_result : Type :=
| NNScalar (i : nat)
| NNArray (ids : list nat).

(** ** The chunk worker, [_run_chunk] *)

(** The lines [np.arange(start_line, stop_line)] a worker iterates over. *)
Definition chunk_rows (c : nat * nat) : list nat :=
  seq (fst c) (snd c - fst c).

Section Worker.

(** [KDTree(scaled_ref_loc).query(x, nneighbors)] of scipy.spatial. *)
Variable tree_query : list location -> location -> Z -> result nn_result.
(** [scipy.linalg.inv]: [Raise] when scipy raises (singular or non-finite
    matrix). *)
Variable inv : matrix -> result matrix.

Variable inp : inputs.
Variable nneighbors : Z.
Variable nodata_value : float.

(** [segmentation_img[row, col]] (line 134). Subscripting [None] is a
    [TypeError]. *)
Definition seg_index (row col : nat) : result Z :=
  match segmentation inp with
  | None => Raise TypeError
  | Some img => r ← index img row; index r col
  end.

(** Rows of [l] selected by the boolean mask [use]. *)
Definition select {A} (use : list bool) (l : list A) : list A :=
  map snd (List.filter fst (zip use l)).

(** Line 149: a column of ones, then scaled latitude and longitude; the
    last coordinate (elevation) is dropped. *)
Definition design_row (p : location) : list float := [fone; lat p; lon p].

(** The normal-equations matrix [X.T @ W @ X]. *)
Definition normal_equations (X Wm : matrix) : result matrix :=
  XtW ← matmul (transpose X) Wm;
  matmul XtW X.

(** The body of the [try] (line 153):
    [(inv(X.T @ W @ X) @ X.T @ W @ y).T] assigned to a row of [bhat]. *)
Definition solve (X Wm y : matrix) : result (list float) :=
  XtWX ← normal_equations X Wm;
  Ainv ← inv XtWX;
  P1 ← matmul Ainv (transpose X);
  P2 ← matmul P1 Wm;
  P3 ← matmul P2 y;
  row_of_value 3 (transpose P3).

(** [yv[:, i] > -5] *)
Definition valid_mask (yv : list (list float)) (i : nat) : list bool :=
  map (fun r => fltb (float_of_Z (-5)) (nth i r fzero)) yv.

Definition design_matrix (xv : list location) (use : list bool) : matrix :=
  let rows := map design_row (select use xv) in
  {| nrows := length rows; ncols := 3; cells := rows |}.

Definition target_column (yv : list (list float)) (use : list bool)
    (i : nat) : matrix :=
  let rows := map (fun r => [nth i r fzero]) (select use yv) in
  {| nrows := length rows; ncols := 1; cells := rows |}.

(** One iteration of the loop of lines 145-155: row [i] of [bhat]. *)
Definition fit_band (xv : list location) (yv : list (list float))
    (i : nat) : list float :=
  let use := valid_mask yv i in
  let n := length (List.filter id use) in
  let X := design_matrix xv use in
  let Wm := identity n in
  let y := target_column yv use i in
  match solve X Wm y with
  | Ok row => row
  | Raise _ => replicate 3 fzero
  end.

(** Lines 139-155: the fit of a fresh model at the scaled point [xs]. *)
Definition fit_model (xs : location) : result matrix :=
  nn ← tree_query (map scale (reference_locations inp)) xs nneighbors;
  match nn with
  | NNScalar i =>
      _ ← index (reference_locations inp) i;
      _ ← index (reference_state inp) i;
      (* [yv] is one-dimensional: [yv[:, i]] raises in the first
         iteration of the band loop *)
      if Nat.eqb (n_atm_bands inp) 0 then Ok (zeros 0 3)
      else Raise IndexError
  | NNArray ids =>
      xv ← rmap (fun j => p ← index (reference_locations inp) j; Ok (scale p))
              ids;
      yv ← rmap (index (reference_state inp)) ids;
      Ok {| nrows := n_atm_bands inp; ncols := 3;
            cells := map (fit_band xv yv) (seq 0 (n_atm_bands inp)) |}
  end.

(** Lines 163-164: [(bhat.T * A[:, np.newaxis]).sum(axis=0)] with
    [A = [1, lat, lon]] of the scaled point. *)
Definition predict (bhat : matrix) (xs : location) : list float :=
  let A := [fone; lat xs; lon xs] in
  map (fun i => fsum (map (fun j => fmul (mget bhat i j) (nth j A fzero))
                        (seq 0 3)))
    (seq 0 (nrows bhat)).

(** Lines 126-164: one pixel of the row. *)
Definition process_pixel (row col : nat) (x : location)
    : W (list float) :=
  if is_nodata nodata_value x then
    _ ← emit (EvNodata row col);
    mret (replicate (n_atm_bands inp) nodata_value)
  else
    let xs := scale x in
    hash_idx ← lift (seg_index row col);
    table ← get_table;
    bhat ← match table !! hash_idx with
           | Some b => mret b
           | None =>
               _ ← emit (EvQuery row col);
               b ← lift (fit_model xs);
               _ ← emit (EvFit row col hash_idx b);
               mret b
           end;
    table' ← get_table;
    _ ← (if bool_decide (is_Some (segmentation inp))
            && negb (bool_decide (is_Some (table' !! hash_idx)))
         then put hash_idx bhat else mret tt);
    _ ← emit (EvEval row col hash_idx bhat);
    mret (predict bhat xs).

(** The loop over the columns of one line (line 124). *)
Fixpoint run_cols (row col : nat) (xs : list location)
    : W (list (list float)) :=
  match xs with
  | [] => mret []
  | x :: rest =>
      v ← process_pixel row col x;
      vs ← run_cols row (S col) rest;
      mret (v :: vs)
  end.

(** Lines 116-178: one line of the chunk, written out when complete. *)
Definition run_row (row : nat) : W unit :=
  locs ← lift (index (input_locations inp) row);
  block ← run_cols row 0 locs;
  write_block row block.

Fixpoint run_rows (rows : list nat) : W unit :=
  match rows with
  | [] => mret tt
  | r :: rest => _ ← run_row r; run_rows rest
  end.

(** [_run_chunk(start_line, stop_line, ...)]: the cache starts empty
    (line 112) and the lines [start_line .. stop_line - 1] are processed
    in order. *)
Definition _run_chunk (start_line stop_line : nat) : W unit :=
  fun st =>
    run_rows (chunk_rows (start_line, stop_line))
      {| hash_table := ∅; output := output st; trace := trace st |}.

End Worker.

(** ** The scheduler: cut points and chunks *)

(** [np.linspace(0, stop, num=num, dtype=int)], as numpy computes it:
    [arange(0, num) * (stop / (num - 1))] in float64, the last sample set
    to [stop], then [floor] and the conversion to [int]. *)
Definition linspace (stop num : Z) : result (list Z) :=
  if num <? 0 then Raise ValueError
  else
    let div := num - 1 in
    let delta := float_of_Z stop in
    let y := map float_of_Z (seqZ 0 num) in
    let y :=
      if 0 <? div then
        let step := fdiv delta (float_of_Z div) in
        if feqb step fzero
        then map (fun v => fmul (fdiv v (float_of_Z div)) delta) y
        else map (fun v => fmul v step) y
      else map (fun v => fmul v delta) y in
    let y := map (fun v => fadd v fzero) y in
    let y := if 1 <? num then <[Z.to_nat div := float_of_Z stop]> y else y in
    Ok (map float_floor y).

(** Line 255. *)
Definition line_sections (n_input_lines n_cores : Z) : result (list Z) :=
  linspace n_input_lines (n_cores + 1).

(** Lines 261-266: the arguments [(line_sections[l], line_sections[l + 1])]
    of the workers, for [l] in [range(len(line_sections) - 1)]. *)
Definition chunks (sections : list Z) : list (nat * nat) :=
  zip (map Z.to_nat sections) (map Z.to_nat (tail sections)).

(** ** The smoothing pass *)

Definition grid : Type := list (list float).

(** [atm_img[..., n]] and the assignment to it, on an array of shape
    [(lines, samples, bands)]. *)
Definition band_of (img : list (list (list float))) (n : nat) : grid :=
  map (map (fun px => nth n px fzero)) img.

Definition set_band (img : list (list (list float))) (n : nat) (g : grid)
    : list (list (list float)) :=
  zip_with (zip_with (fun px v => <[n := v]> px)) img g.

(** Line 280: [null = atm_img[..., n] == -9999]. *)
Definition null_mask (V : grid) : list (list bool) :=
  map (map (fun v => feqb v (float_of_Z (-9999)))) V.

(** Lines 281-282: [V[null] = 0]. *)
Definition zero_nulls (V : grid) : grid :=
  zip_with (zip_with (fun v (nl : bool) => if nl then fzero else v))
    V (null_mask V).

(** Lines 285-286: [W = 0 * atm_img[..., n] + 1; W[null] = 0]. The band
    read here is the one already zeroed through the view [V]. *)
Definition validity_mask (V : grid) : grid :=
  zip_with (zip_with (fun v (nl : bool) =>
                        if nl then fzero else fadd (fmul fzero v) fone))
    (zero_nulls V) (null_mask V).

Section Smoother.

(** [scipy.ndimage.gaussian_filter(input, sigma=sigma)]. *)
Variable gaussian_filter : grid -> float -> grid.

(** Lines 280-289 for one band: the normalised convolution [VV / WW]. *)
Definition smooth_band (sigma : float) (V : grid) : grid :=
  let VV := gaussian_filter (zero_nulls V) sigma in
  let WW := gaussian_filter (validity_mask V) sigma in
  zip_with (zip_with fdiv) VV WW.

(** Lines 279-290: the loop over [range(atm_img.shape[-1])]. *)
Definition smooth_bands (sigma : float) (n_bands : nat)
    (img : list (list (list float))) : list (list (list float)) :=
  fold_left (fun im n => set_band im n (smooth_band sigma (band_of im n)))
    (seq 0 n_bands) img.

End Smoother.

(** A separable correlation with half-sample symmetric ("reflect")
    boundaries, the scheme of [gaussian_filter], for a fixed kernel. It
    instantiates the filter in the concrete runs below. *)
Definition reflect_index (n : nat) (i : Z) : nat :=
  let p := i mod (2 * Z.of_nat n) in
  Z.to_nat (if p <? Z.of_nat n then p else 2 * Z.of_nat n - 1 - p).

Definition correlate1d (weights : list float) (line : list float)
    : list float :=
  let radius := Z.of_nat (length weights / 2) in
  map (fun i =>
         fsum (imap (fun j w =>
                       fmul w (nth (reflect_index (length line)
                                      (Z.of_nat i + Z.of_nat j - radius))
                                 line fzero))
                 weights))
    (seq 0 (length line)).

Definition transpose_grid (g : grid) : grid :=
  map (fun j => map (fun r => nth j r fzero) g)
    (seq 0 (length (nth 0 g []))).

Definition kernel_filter (weights : list float) (g : grid) (_ : float)
    : grid :=
  let along_axis0 := transpose_grid (map (correlate1d weights)
                                       (transpose_grid g)) in
  map (correlate1d weights) along_axis0.

(** ** [atm_interpolation] *)

Section Run.

Variable tree_query : list location -> location -> Z -> result nn_result.
Variable inv : matrix -> result matrix.
Variable gaussian_filter : grid -> float -> grid.
(** [int(ray.available_resources()["CPU"])] *)
Variable n_ray_cores : Z.

Variable inp : inputs.
Variable nneighbors : Z.
Variable nodata_value : float.

Definition n_input_lines : Z := Z.of_nat (length (input_locations inp)).
Definition n_input_samples : nat := length (nth 0 (input_locations inp) []).

(** Lines 241-244. The dictionary is bound to [rayargs]; the branch for
    an explicit core count assigns into [ray_argw], a name that is bound
    nowhere. *)
Definition init_ray_args (n_cores : Z) : result unit :=
  if negb (n_cores =? -1) then Raise NameError else Ok tt.

(** Lines 249-255: worker count and cut points. *)
Definition plan (n_cores : Z) : result (Z * list Z) :=
  _ ← init_ray_args n_cores;
  let n_cores := Z.min n_ray_cores n_input_lines in
  sections ← line_sections n_input_lines n_cores;
  Ok (n_cores, sections).

(** Lines 260-268: every worker is dispatched; [ray.get] raises the first
    failure. The workers write disjoint lines, so they are run here one
    after the other. *)
Fixpoint run_chunks (cs : list (nat * nat)) : W unit :=
  match cs with
  | [] => mret tt
  | c :: rest =>
      fun st =>
        let (st1, r1) :=
          _run_chunk tree_query inv inp nneighbors nodata_value
            (fst c) (snd c) st in
        let (st2, r2) := run_chunks rest st1 in
        (st2, match r1 with Raise e => Raise e | Ok _ => r2 end)
  end.

(** Line 276: the raster read back with shape [(lines, samples, bands)]. *)
Definition read_raster (st : wstate) : list (list (list float)) :=
  map (fun r => default (replicate n_input_samples
                           (replicate (n_atm_bands inp) fzero))
                  (output st !! r))
    (seq 0 (length (input_locations inp))).

(** Line 293: the whole raster written back from line 0. *)
Definition write_raster (img : list (list (list float))) : W unit :=
  fun st =>
    ({| hash_table := hash_table st;
        output := list_to_map (imap (fun r block => (r, block)) img);
        trace := trace st |}, Ok tt).

(** Lines 276-293: the smoothing pass, skipped unless [sigma > 0]. *)
Definition smoother (sigma : float) : W unit :=
  fun st =>
    if fltb fzero sigma then
      write_raster
        (smooth_bands gaussian_filter sigma (n_atm_bands inp)
           (read_raster st)) st
    else (st, Ok tt).

Definition atm_interpolation (n_cores : Z) (gaussian_smoothing_sigma : float)
    : W unit :=
  p ← lift (plan n_cores);
  _ ← run_chunks (chunks (snd p));
  (* line 272 reads [line_sections[-1]] *)
  _ ← lift (match snd p with [] => Raise IndexError | _ => Ok tt end);
  smoother gaussian_smoothing_sigma.

End Run.

(** ** Stand-ins for the scipy functions, for the concrete runs *)

(** Exact k-nearest neighbours by exhaustive search on the squared
    Euclidean distance (ties broken by index). *)
Definition sq_dist (p q : location) : float :=
  let d0 := fsub (lat p) (lat q) in
  let d1 := fsub (lon p) (lon q) in
  let d2 := fsub (elev p) (elev q) in
  fadd (fadd (fmul d0 d0) (fmul d1 d1)) (fmul d2 d2).

Fixpoint insert_by_dist (e : float * nat) (l : list (float * nat))
    : list (float * nat) :=
  match l with
  | [] => [e]
  | h :: t => if fltb (fst e) (fst h) then e :: h :: t
              else h :: insert_by_dist e t
  end.

Definition exhaustive_query (refs : list location) (x : location) (k : Z)
    : result nn_result :=
  if k <? 1 then Raise ValueError
  else
    let keyed := imap (fun i p => (sq_dist p x, i)) refs in
    let sorted := fold_right insert_by_dist [] keyed in
    let ids := map snd sorted ++ replicate (Z.to_nat k) (length refs) in
    if k =? 1 then Ok (NNScalar (nth 0 ids 0%nat))
    else Ok (NNArray (take (Z.to_nat k) ids)).

(** Inverse of a 3x3 matrix by cofactors, in float64; a determinant that
    comes out as zero raises [LinAlgError], a non-finite one
    [ValueError]. *)
Definition det2 (a b c d : float) : float := fsub (fmul a d) (fmul b c).

Definition cofactor_inv (A : matrix) : result matrix :=
  if negb (Nat.eqb (nrows A) 3 && Nat.eqb (ncols A) 3) then Raise ValueError
  else
    let a (i j : nat) := mget A i j in
    let c00 := det2 (a 1%nat 1%nat) (a 1%nat 2%nat) (a 2%nat 1%nat) (a 2%nat 2%nat) in
    let c01 := det2 (a 1%nat 2%nat) (a 1%nat 0%nat) (a 2%nat 2%nat) (a 2%nat 0%nat) in
    let c02 := det2 (a 1%nat 0%nat) (a 1%nat 1%nat) (a 2%nat 0%nat) (a 2%nat 1%nat) in
    let c10 := det2 (a 0%nat 2%nat) (a 0%nat 1%nat) (a 2%nat 2%nat) (a 2%nat 1%nat) in
    let c11 := det2 (a 0%nat 0%nat) (a 0%nat 2%nat) (a 2%nat 0%nat) (a 2%nat 2%nat) in
    let c12 := det2 (a 0%nat 1%nat) (a 0%nat 0%nat) (a 2%nat 1%nat) (a 2%nat 0%nat) in
    let c20 := det2 (a 0%nat 1%nat) (a 0%nat 2%nat) (a 1%nat 1%nat) (a 1%nat 2%nat) in
    let c21 := det2 (a 0%nat 2%nat) (a 0%nat 0%nat) (a 1%nat 2%nat) (a 1%nat 0%nat) in
    let c22 := det2 (a 0%nat 0%nat) (a 0%nat 1%nat) (a 1%nat 0%nat) (a 1%nat 1%nat) in
    let det := fadd (fadd (fmul (a 0%nat 0%nat) c00) (fmul (a 0%nat 1%nat) c01))
                 (fmul (a 0%nat 2%nat) c02) in
    if negb (isfinite det) then Raise ValueError
    else if feqb det fzero then Raise LinAlgError
    else
      Ok {| nrows := 3; ncols := 3;
            cells := [ [fdiv c00 det; fdiv c10 det; fdiv c20 det];
                       [fdiv c01 det; fdiv c11 det; fdiv c21 det];
                       [fdiv c02 det; fdiv c12 det; fdiv c22 det] ] |}.

(** ** Concrete inputs *)

Definition loc_of_Z (a b c : Z) : location :=
  {| lat := float_of_Z a; lon := float_of_Z b; elev := float_of_Z c |}.

Definition default_nodata : float := float_of_Z (-9999).

(** The end-to-end scenario of the specification: ten reference pixels
    with two atmosphere bands (and one reflectance band), a 4x4 target
    grid none of whose locations is the sentinel. *)
Definition scenario_names : list string := ["H2OSTR"; "RFL_0450"; "AOT550"].

Definition scenario_reference : list location :=
  [ loc_of_Z 0 0 100; loc_of_Z 0 3 110; loc_of_Z 1 1 120; loc_of_Z 1 4 130;
    loc_of_Z 2 0 140; loc_of_Z 2 2 150; loc_of_Z 3 1 160; loc_of_Z 3 3 170;
    loc_of_Z 4 2 180; loc_of_Z 4 4 190 ].

Definition scenario_state : list (list float) :=
  map (fun p : Z * Z => [float_of_Z (fst p); fzero; float_of_Z (snd p)])
    [ (1, 2); (2, 1); (3, 3); (2, 2); (1, 4);
      (4, 1); (3, 2); (2, 3); (1, 1); (4, 4) ].

Definition scenario_target : list (list location) :=
  map (fun r => map (fun c => loc_of_Z r c 105) (seqZ 0 4)) (seqZ 0 4).

Definition scenario (seg : option (list (list Z))) : inputs :=
  {| band_names := scenario_names;
     reference_state_full := scenario_state;
     reference_locations := scenario_reference;
     input_locations := scenario_target;
     segmentation := seg |}.

(** A segmentation of the 4x4 grid into two labels. *)
Definition two_labels : list (list Z) :=
  [ [7; 7; 8; 8]; [7; 7; 8; 8]; [7; 7; 8; 8]; [7; 7; 8; 8] ].

Definition initial_state : wstate :=
  {| hash_table := ∅; output := ∅; trace := [] |}.

(** The events of a trace that are fits for a given label. *)
Definition is_fit_of (label : Z) (e : event) : bool :=
  match e with
  | EvFit _ _ l _ => Z.eqb l label
  | _ => false
  end.

Definition fit_count (label : Z) (evs : list event) : nat :=
  length (List.filter (is_fit_of label) evs).

Definition is_query_or_fit (e : event) : bool :=
  match e with
  | EvQuery _ _ | EvFit _ _ _ _ => true
  | _ => false
  end.









(** ** Rounding to 53 bits, on integers *)

(** The integer-level description of binary64 rounding that the proofs
    about the cut points relate [SpecFloat] to. *)

(** Round-half-even of [X / 2^n]. *)
Definition rne (X n : Z) : Z :=
  let q := X / 2 ^ n in
  let rho := X mod 2 ^ n in
  let h := 2 ^ (n - 1) in
  if rho <? h then q
  else if h <? rho then q + 1
  else if Z.even q then q else q + 1.

Definition digits (X : Z) : Z := Z.log2 X + 1.

Definition rnd53 (X : Z) : Z :=
  if digits X <=? 53 then X
  else rne X (digits X - 53) * 2 ^ (digits X - 53).

(** Where the remainder [rho] of a division by [2 * h] lies. *)
Definition location_of (rho h : Z) : SpecFloat.location :=
  if rho =? 0 then loc_Exact else loc_Inexact (rho ?= h).

(** The last stage of [binary_round_aux]: renormalisation after a carry. *)
Definition finish (sx : bool) (m1 e1 : Z) : spec_float :=
  let '(mrs, e) := shr_fexp prec emax m1 e1 loc_Exact in
  match shr_m mrs with
  | Z0 => S754_zero sx
  | Zpos m => if e <=? emax - prec then S754_finite sx m e
              else S754_infinity sx
  | Zneg _ => S754_nan
  end.

(** The cut point of index [l], as [linspace] computes it from the step. *)
Definition cut_point (step : float) (l : Z) : Z :=
  float_floor (fadd (fmul (float_of_Z l) step) fzero).

(** ** The header of the output raster *)

(** The ENVI header fields that lines 222-230 set. *)
Record header : Type := mk_header {
  hdr_interleave : string;
  hdr_lines : nat;
  hdr_samples : nat;
  hdr_band_names : list string;
  hdr_description : string;
  hdr_bands : nat
}.

(** Line 227: [[x for x in band_names if x[:4] != 'RFL_']]. *)
Definition output_band_names (names : list string) : list string :=
  List.filter is_atm_band names.

(** Lines 222-230; the line and sample counts of the input header are
    those of the loaded array. *)
Definition output_metadata (inp : inputs) : header :=
  {| hdr_interleave := "bil";
     hdr_lines := length (input_locations inp);
     hdr_samples := length (nth 0 (input_locations inp) []);
     hdr_band_names := output_band_names (band_names inp);
     hdr_description := "Interpolated atmospheric state";
     hdr_bands := length (output_band_names (band_names inp)) |}.

(** The weight lines 285-286 give a value of the band. *)
Definition validity_weight (v : float) : float :=
  if feqb v (float_of_Z (-9999)) then fzero
  else if isfinite v then fone else fnan.

(** The sign of a float that is not a NaN. *)
Definition has_sign (s : bool) (x : float) : Prop :=
  match x with
  | S754_nan => False
  | S754_zero s' | S754_infinity s' | S754_finite s' _ _ => s' = s
  end.

(** ** Specifications of worker computations *)

(** From a state satisfying [P], a run of [m] that returns [a] ends in a
    state satisfying [Q a], and a run that raises ends in a state
    satisfying [E]. *)
Definition triple {A} (P : wstate -> Prop) (m : W A)
    (Q : A -> wstate -> Prop) (E : wstate -> Prop) : Prop :=
  forall st, P st ->
    match m st with
    | (st', Ok a) => Q a st'
    | (st', Raise _) => E st'
    end.

(** Every cached model has one row per atmosphere band and the three
    columns of the design. *)
Definition table_shaped (inp : inputs) (st : wstate) : Prop :=
  forall label b,
    hash_table st !! label = Some b -> shape b = (n_atm_bands inp, 3%nat).

(** A row block fits line [row] of the raster: one vector per sample of
    the input line, one value per atmosphere band in each. *)
Definition block_shaped (inp : inputs) (row : nat)
    (block : list (list float)) : Prop :=
  exists locs,
    input_locations inp !! row = Some locs
    /\ length block = length locs
    /\ Forall (fun v => length v = n_atm_bands inp) block.

(** Every pixel of [locs], the input line [row], that is not a nodata
    pixel has a segmentation label. *)
Definition line_labelled (inp : inputs) (nodata_value : float) (row : nat)
    (first_col : nat) (locs : list location) : Prop :=
  forall j x,
    locs !! j = Some x -> is_nodata nodata_value x = false ->
    exists label, seg_index inp row (first_col + j) = Ok label.

(** The worker state stays within [table_shaped] and keeps the raster. *)
Definition worker_inv (inp : inputs) (o : gmap nat (list (list float)))
    (st : wstate) : Prop :=
  table_shaped inp st /\ output st = o.

(** What lines 128 and 164 write for the pixel [x] at [(row, col)], given
    the cache [table]: the nodata vector, or the evaluation at the scaled
    location of the model cached for the label of the pixel. *)
Definition pixel_written (inp : inputs) (nodata_value : float)
    (table : gmap Z matrix) (row col : nat) (x : location)
    (v : list float) : Prop :=
  if is_nodata nodata_value x
  then v = replicate (n_atm_bands inp) nodata_value
  else exists label b,
         seg_index inp row col = Ok label
         /\ table !! label = Some b
         /\ v = predict b (scale x).

Definition line_written (inp : inputs) (nodata_value : float)
    (table : gmap Z matrix) (row first_col : nat) (locs : list location)
    (block : list (list float)) : Prop :=
  forall j x,
    locs !! j = Some x ->
    exists v, block !! j = Some v
              /\ pixel_written inp nodata_value table row (first_col + j) x v.

(** The cut point of index [l] for [n] lines and [k] workers: [linspace]
    computes the first [k] from the step and sets the last one to [n]. *)
Definition section_at (n k l : Z) : Z :=
  if l <? k then cut_point (fdiv (float_of_Z n) (float_of_Z k)) l else n.

Definition is_nodata_event (e : event) : bool :=
  match e with
  | EvNodata _ _ => true
  | _ => false
  end.

(** The row block of a line all of whose pixels are nodata. *)
Definition nodata_block (inp : inputs) (nodata_value : float)
    (locs : list location) : list (list float) :=
  replicate (length locs) (replicate (n_atm_bands inp) nodata_value).

(** The worker has only passed nodata pixels through since the state
    [st0]: the cache is as it was and every new event is [EvNodata]. *)
Definition only_passed_through (st0 st : wstate) : Prop :=
  hash_table st = hash_table st0
  /\ exists evs, trace st = trace st0 ++ evs
                 /\ forallb is_nodata_event evs = true.

(** ** Singular normal equations *)









(** ** The CPU count of the cluster *)

(** [int(x)] of a Python float (line 249): the integer part towards zero;
    [None] where Python raises, on a NaN and on the infinities. *)
Definition int_of_float (x : float) : option Z :=
  match x with
  | S754_zero _ => Some 0
  | S754_finite s m e =>
      Some (cond_Zopp s (if 0 <=? e then Z.pos m * 2 ^ e
                         else Z.pos m / 2 ^ (- e)))
  | S754_infinity _ | S754_nan => None
  end.

(** * Properties *)

(** ** Unfolding the worker monad *)

Ltac wunfold :=
  unfold mbind, mret, W_bind, W_ret, wbind, wret, result_bind, result_ret,
    rbind, lift, emit, put, get_table, write_block in *.

Lemma wbind_eq {A B} (m : W A) (k : A -> W B) st :
  (m ≫= k) st =
  match m st with
  | (st', Ok a) => k a st'
  | (st', Raise e) => (st', Raise e)
  end.
Proof. reflexivity. Qed.

Lemma rbind_ok {A B} (r : result A) (k : A -> result B) b :
  r ≫= k = Ok b -> exists a, r = Ok a /\ k a = Ok b.
Proof. destruct r as [a|e]; wunfold; [eauto | discriminate]. Qed.

Lemma index_ok {A} (l : list A) i a : index l i = Ok a <-> l !! i = Some a.
Proof.
  unfold index. destruct (l !! i); split; intros H; congruence.
Qed.

(** ** Nodata pixels (C9) *)

Section NodataPixels.

Variable tree_query : list location -> location -> Z -> result nn_result.
Variable inv : matrix -> result matrix.
Variable inp : inputs.
Variable nneighbors : Z.
Variable nodata_value : float.

Local Abbreviation pixel := (process_pixel tree_query inv inp nneighbors nodata_value).
Local Abbreviation cols := (run_cols tree_query inv inp nneighbors nodata_value).
Local Abbreviation line := (run_row tree_query inv inp nneighbors nodata_value).

Lemma nodata_pixel_step row col x st :
  is_nodata nodata_value x = true ->
  pixel row col x st
  = (log (EvNodata row col) st,
     Ok (replicate (n_atm_bands inp) nodata_value)).
Proof. intros H. unfold process_pixel. rewrite H. reflexivity. Qed.

Lemma run_cols_nodata row xs : forall col st st' block,
  cols row col xs st = (st', Ok block) ->
  forall j x, xs !! j = Some x -> is_nodata nodata_value x = true ->
    block !! j = Some (replicate (n_atm_bands inp) nodata_value).
Proof.
  induction xs as [|x0 rest IH]; intros col st st' block Hrun j x Hj Hx.
  - discriminate.
  - cbn [run_cols] in Hrun. rewrite wbind_eq in Hrun.
    destruct (pixel row col x0 st) as [st1 [v|e]] eqn:Hpx; [|discriminate].
    rewrite wbind_eq in Hrun.
    destruct (cols row (S col) rest st1) as [st2 [vs|e]] eqn:Hrest;
      [|discriminate].
    injection Hrun as _ <-.
    destruct j as [|j]; cbn in Hj |- *.
    + injection Hj as ->. rewrite (nodata_pixel_step _ _ _ _ Hx) in Hpx.
      congruence.
    + eapply IH; eauto.
Qed.

Lemma run_row_block row st st' :
  line row st = (st', Ok tt) ->
  exists locs st1 block,
    input_locations inp !! row = Some locs
    /\ cols row 0 locs st = (st1, Ok block)
    /\ st' = write_bil_chunk row block st1.
Proof.
  unfold run_row. rewrite wbind_eq. unfold lift at 1.
  destruct (index (input_locations inp) row) as [locs|e] eqn:Hix;
    [|discriminate].
  rewrite wbind_eq.
  destruct (cols row 0 locs st) as [st1 [block|e]] eqn:Hc; [|discriminate].
  unfold write_block. intros [= <-].
  exists locs, st1, block. rewrite <- index_ok. auto.
Qed.

End NodataPixels.

(** C9. A target pixel whose three coordinates are all close to the nodata
    sentinel ([np.isclose]) is passed through: the pixel step returns the
    sentinel in every atmosphere band, leaves the cache alone and records
    neither an index query nor a fit; and in the row block the worker
    writes for a completed line, that pixel holds the sentinel in every
    band. *)
Theorem nodata_pixel_passthrough :
  forall tree_query inv inp nneighbors nodata_value row col x st,
    is_nodata nodata_value x = true ->
    let res := process_pixel tree_query inv inp nneighbors nodata_value
                 row col x st in
    snd res = Ok (replicate (n_atm_bands inp) nodata_value)
    /\ hash_table (fst res) = hash_table st
    /\ trace (fst res) = trace st ++ [EvNodata row col]
    /\ List.filter is_query_or_fit (trace (fst res))
       = List.filter is_query_or_fit (trace st)
    /\ forall locs st0 st',
         input_locations inp !! row = Some locs ->
         locs !! col = Some x ->
         run_row tree_query inv inp nneighbors nodata_value row st0
           = (st', Ok tt) ->
         exists block,
           output st' !! row = Some block
           /\ block !! col = Some (replicate (n_atm_bands inp) nodata_value).
Proof.
  intros tq inv inp k nd row col x st Hx res. subst res.
  rewrite (nodata_pixel_step _ _ _ _ _ _ _ _ _ Hx). cbn [fst snd log trace hash_table].
  repeat split.
  - rewrite List.filter_app. cbn. apply app_nil_r.
  - intros locs st0 st' Hlocs Hcol Hrun.
    destruct (run_row_block _ _ _ _ _ _ _ _ Hrun)
      as (locs' & st1 & block & Hl & Hc & ->).
    assert (locs' = locs) as -> by congruence.
    exists block. split.
    + cbn. apply lookup_insert_eq.
    + eapply run_cols_nodata; eauto.
Qed.

Lemma nodata_pixel_passthrough_witness :
  let x := loc_of_Z (-9999) (-9999) (-9999) in
  let inp := scenario (Some two_labels) in
  let res := process_pixel exhaustive_query cofactor_inv inp 5 default_nodata
               0 0 x initial_state in
  is_nodata default_nodata x = true
  /\ snd res = Ok (replicate (n_atm_bands inp) default_nodata)
  /\ trace (fst res) = [EvNodata 0 0].
Proof.
  intros x inp res.
  assert (H : is_nodata default_nodata x = true) by (vm_compute; reflexivity).
  split; [exact H|].
  destruct (nodata_pixel_passthrough exhaustive_query cofactor_inv inp 5
              default_nodata 0%nat 0%nat x initial_state H)
    as (H1 & _ & H3 & _).
  split; [exact H1 | exact H3].
Defined.

(** ** Runs without a segmentation grid (C1) *)

Lemma no_segmentation_pixel_raises :
  forall tree_query inv inp nneighbors nodata_value row col x st,
    segmentation inp = None ->
    is_nodata nodata_value x = false ->
    process_pixel tree_query inv inp nneighbors nodata_value row col x st
    = (st, Raise TypeError).
Proof.
  intros tq inv inp k nd row col x st Hseg Hx.
  unfold process_pixel. rewrite Hx. rewrite wbind_eq.
  unfold lift, seg_index. rewrite Hseg. reflexivity.
Qed.

(** C1. The end-to-end scenario of the specification (4x4 target grid, ten
    reference pixels with two atmosphere bands, [nneighbors = 5], no
    segmentation, [smoothing_sigma = 0]), run with the default core count:
    whatever the scipy functions do, the run ends with the [TypeError] of
    line 134 ([segmentation_img] is [None] and is subscripted), no line of
    the output raster is written and no pixel is evaluated. *)
Theorem no_segmentation_scenario_raises :
  forall tree_query inv gaussian_filter,
    let res := atm_interpolation tree_query inv gaussian_filter 2
                 (scenario None) 5 default_nodata (-1) fzero initial_state in
    snd res = Raise TypeError
    /\ output (fst res) = ∅
    /\ trace (fst res) = [].
Proof.
  intros tq inv gf. vm_compute. repeat split.
Qed.

(** ** Explicit core counts (C3) *)

Lemma explicit_n_cores_raises :
  forall tree_query inv gaussian_filter n_ray_cores inp nneighbors
         nodata_value n_cores sigma st,
    n_cores <> -1 ->
    atm_interpolation tree_query inv gaussian_filter n_ray_cores inp
      nneighbors nodata_value n_cores sigma st
    = (st, Raise NameError).
Proof.
  intros tq inv gf nr inp k nd n sigma st Hn.
  unfold atm_interpolation. rewrite wbind_eq.
  unfold lift, plan, init_ray_args.
  destruct (Z.eqb_spec n (-1)) as [->|_]; [contradiction|reflexivity].
Qed.

(** C3. A run that asks for four cores, on any inputs and any cluster: it
    stops with a [NameError] at line 244 ([ray_argw] is not bound; the
    dictionary is [rayargs]) before any cut point is computed or any worker
    dispatched; the state is untouched. *)
Theorem four_cores_requested_raises :
  forall tree_query inv gaussian_filter n_ray_cores inp nneighbors
         nodata_value sigma st,
    atm_interpolation tree_query inv gaussian_filter n_ray_cores inp
      nneighbors nodata_value 4 sigma st
    = (st, Raise NameError)
    /\ plan n_ray_cores inp 4 = Raise NameError.
Proof.
  intros. split; [apply explicit_n_cores_raises; discriminate | reflexivity].
Qed.

(** ** The sentinel of the smoothing pass (C4) *)

(** C4. With the sentinel configured as [-1.0], the worker writes [-1.0]
    at a nodata pixel, but the smoothing pass compares with the literal
    [-9999] (line 280): in a band holding that pixel the null mask is
    false and the validity mask is [1.0] there, and the value is not
    zeroed before blurring. *)
Theorem smoother_ignores_configured_nodata :
  forall tree_query inv st,
    let nodata_value := float_of_Z (-1) in
    let inp := scenario (Some two_labels) in
    let res := process_pixel tree_query inv inp 5 nodata_value 0 0
                 (loc_of_Z (-1) (-1) (-1)) st in
    let band := [[nodata_value; float_of_Z 3]] in
    snd res = Ok [nodata_value; nodata_value]
    /\ null_mask band = [[false; false]]
    /\ validity_mask band = [[fone; fone]]
    /\ zero_nulls band = band.
Proof.
  intros tq inv st. cbv zeta. split.
  - rewrite nodata_pixel_step by (vm_compute; reflexivity). reflexivity.
  - vm_compute. repeat split.
Qed.

(** ** The per-band solve (C5, C8, C10) *)

Lemma row_of_value_length w V r : row_of_value w V = Ok r -> length r = w.
Proof.
  unfold row_of_value.
  destruct (Nat.eqb (nrows V) 1); [|discriminate].
  destruct (Nat.eqb (ncols V) w).
  - intros [= <-]. now rewrite length_map, length_seq.
  - destruct (Nat.eqb (ncols V) 1); [|discriminate].
    intros [= <-]. apply length_replicate.
Qed.

Lemma solve_length inv X Wm y r : solve inv X Wm y = Ok r -> length r = 3%nat.
Proof.
  unfold solve. intros H.
  repeat (apply rbind_ok in H; destruct H as (? & _ & H)).
  eapply row_of_value_length; eauto.
Qed.

Lemma fit_band_length inv xv yv i : length (fit_band inv xv yv i) = 3%nat.
Proof.
  unfold fit_band.
  destruct (solve _ _ _ _) as [r|e] eqn:Hs.
  - eapply solve_length; eauto.
  - reflexivity.
Qed.

Lemma fit_band_raise inv xv yv i e :
  solve inv (design_matrix xv (valid_mask yv i))
    (identity (length (List.filter id (valid_mask yv i))))
    (target_column yv (valid_mask yv i) i) = Raise e ->
  fit_band inv xv yv i = [fzero; fzero; fzero].
Proof. intros H. unfold fit_band. rewrite H. reflexivity. Qed.




Lemma rmap_length {A B} (f : A -> result B) l bs :
  rmap f l = Ok bs -> length bs = length l.
Proof.
  revert bs. induction l as [|a l IH]; intros bs H.
  - injection H as <-. reflexivity.
  - cbn [rmap] in H. apply rbind_ok in H. destruct H as (b & _ & H).
    apply rbind_ok in H. destruct H as (bs' & Hbs & H).
    injection H as <-. cbn. f_equal. now apply IH.
Qed.


(** The model a fit returns always has one row of three coefficients per
    atmosphere band. *)
Lemma fit_model_shape tree_query inv inp nneighbors xs bhat :
  fit_model tree_query inv inp nneighbors xs = Ok bhat ->
  shape bhat = (n_atm_bands inp, 3%nat)
  /\ length (cells bhat) = n_atm_bands inp
  /\ Forall (fun row => length row = 3%nat) (cells bhat).
Proof.
  unfold fit_model. intros H.
  apply rbind_ok in H. destruct H as (nn & _ & H).
  destruct nn as [i|ids].
  - apply rbind_ok in H. destruct H as (_ & _ & H).
    apply rbind_ok in H. destruct H as (_ & _ & H).
    destruct (Nat.eqb_spec (n_atm_bands inp) 0) as [E|_]; [|discriminate].
    injection H as <-. rewrite E. repeat split. constructor.
  - apply rbind_ok in H. destruct H as (xv & _ & H).
    apply rbind_ok in H. destruct H as (yv & _ & H).
    injection H as <-. cbn [shape nrows ncols cells]. repeat split.
    + now rewrite length_map, length_seq.
    + apply Forall_map, Forall_forall. intros i _. apply fit_band_length.
Qed.

(** *** The shapes inside the solve *)

Lemma select_length {A} (use : list bool) : forall l : list A,
  length use = length l ->
  length (select use l) = length (List.filter id use).
Proof.
  unfold select. induction use as [|b use IH]; intros l Hl.
  - reflexivity.
  - destruct l as [|a l]; [discriminate|]. injection Hl as Hl.
    cbn [zip zip_with List.filter fst]. destruct b; cbn [id map length].
    + f_equal. now apply IH.
    + now apply IH.
Qed.

Lemma matmul_ok (A B : matrix) :
  ncols A = nrows B ->
  exists C, matmul A B = Ok C /\ nrows C = nrows A /\ ncols C = ncols B.
Proof.
  intros H. unfold matmul. rewrite H, Nat.eqb_refl.
  eexists. split; [reflexivity|]. split; reflexivity.
Qed.

Lemma rmap_lookup {A B} (f : A -> result B) l bs :
  rmap f l = Ok bs ->
  forall k a, l !! k = Some a -> exists b, f a = Ok b /\ bs !! k = Some b.
Proof.
  revert bs. induction l as [|a0 l IH]; intros bs H k a Hk.
  - discriminate.
  - cbn [rmap] in H. apply rbind_ok in H. destruct H as (b0 & Hb0 & H).
    apply rbind_ok in H. destruct H as (bs' & Hbs & H). injection H as <-.
    destruct k as [|k].
    + injection Hk as <-. exists b0. split; [exact Hb0 | reflexivity].
    + change ((a0 :: l) !! S k) with (l !! k) in Hk.
      destruct (IH bs' Hbs k a Hk) as (b & Hb & Hl).
      exists b. split; [exact Hb | exact Hl].
Qed.

(** With as many neighbour locations as neighbour states, the
    normal-equations matrix of a band exists and is 3x3. *)
Lemma normal_equations_ok xv yv i :
  length xv = length yv ->
  exists N,
    normal_equations (design_matrix xv (valid_mask yv i))
      (identity (length (List.filter id (valid_mask yv i)))) = Ok N
    /\ shape N = (3%nat, 3%nat).
Proof.
  intros Hlen.
  set (use := valid_mask yv i). set (X := design_matrix xv use).
  set (Wm := identity (length (List.filter id use))).
  assert (Huse : length use = length yv)
    by (unfold use, valid_mask; apply length_map).
  assert (HXr : nrows X = length (List.filter id use)).
  { unfold X, design_matrix. cbn [nrows]. rewrite length_map.
    apply select_length. congruence. }
  destruct (matmul_ok (transpose X) Wm) as (XtW & E1 & R1 & C1).
  { cbn [transpose mbuild ncols]. exact HXr. }
  destruct (matmul_ok XtW X) as (N & E2 & R2 & C2).
  { rewrite C1. cbn [Wm identity mbuild ncols]. now rewrite HXr. }
  exists N. split.
  - unfold normal_equations. wunfold. rewrite E1. exact E2.
  - unfold shape. rewrite R2, C2, R1. reflexivity.
Qed.

(** When [inv] returns a 3x3 matrix on the normal-equations matrix, the
    products of line 153 are all defined and the row of the band is the
    transposed product [inv(X.T @ W @ X) @ X.T @ W @ y]. *)
Lemma solve_returns inv xv yv i N Ainv :
  length xv = length yv ->
  normal_equations (design_matrix xv (valid_mask yv i))
    (identity (length (List.filter id (valid_mask yv i)))) = Ok N ->
  inv N = Ok Ainv -> shape Ainv = (3%nat, 3%nat) ->
  exists P1 P2 P3,
    matmul Ainv (transpose (design_matrix xv (valid_mask yv i))) = Ok P1
    /\ matmul P1 (identity (length (List.filter id (valid_mask yv i)))) = Ok P2
    /\ matmul P2 (target_column yv (valid_mask yv i) i) = Ok P3
    /\ fit_band inv xv yv i = [mget P3 0 0; mget P3 1 0; mget P3 2 0].
Proof.
  intros Hlen HN Hinv Hshape.
  set (use := valid_mask yv i) in *. set (X := design_matrix xv use) in *.
  set (Wm := identity (length (List.filter id use))) in *.
  set (y := target_column yv use i).
  assert (Huse : length use = length yv)
    by (unfold use, valid_mask; apply length_map).
  assert (HXr : nrows X = length (List.filter id use)).
  { unfold X, design_matrix. cbn [nrows]. rewrite length_map.
    apply select_length. congruence. }
  assert (Hyr : nrows y = length (List.filter id use)).
  { unfold y, target_column. cbn [nrows]. rewrite length_map.
    now apply select_length. }
  injection Hshape as HAr HAc.
  destruct (matmul_ok Ainv (transpose X)) as (P1 & E3 & R3 & C3).
  { cbn [transpose mbuild nrows]. exact HAc. }
  destruct (matmul_ok P1 Wm) as (P2 & E4 & R4 & C4).
  { rewrite C3. cbn [transpose mbuild ncols]. exact HXr. }
  destruct (matmul_ok P2 y) as (P3 & E5 & R5 & C5).
  { rewrite C4. cbn [Wm identity mbuild ncols]. now rewrite Hyr. }
  exists P1, P2, P3. split; [exact E3|]. split; [exact E4|].
  split; [exact E5|].
  unfold fit_band. fold use X Wm y. unfold solve. wunfold.
  rewrite HN. cbv beta iota. rewrite Hinv. cbv beta iota.
  rewrite E3. cbv beta iota. rewrite E4. cbv beta iota. rewrite E5.
  cbv beta iota. unfold row_of_value, transpose.
  cbn [mbuild nrows ncols]. rewrite C5, R5, R4, R3, HAr.
  reflexivity.
Qed.

(** The design matrix has the three columns [1, lat, lon] of the selected
    neighbours: elevation does not enter it. *)
Lemma design_matrix_columns xv use :
  ncols (design_matrix xv use) = 3%nat
  /\ Forall (fun row => exists p, p ∈ xv /\ row = [fone; lat p; lon p])
       (cells (design_matrix xv use)).
Proof.
  split; [reflexivity|]. unfold design_matrix. cbn [cells].
  apply Forall_map, Forall_forall. intros p Hp. exists p. split; [|reflexivity].
  unfold select in Hp. apply list_elem_of_fmap in Hp.
  destruct Hp as ([b q] & -> & Hin). cbn.
  apply list_elem_of_In, List.filter_In in Hin. destruct Hin as [Hin _].
  apply list_elem_of_In in Hin. apply elem_of_zip_r in Hin. exact Hin.
Qed.

(** C5, as the code has it. A fitted model is a coefficient matrix of
    shape [(n_atm_bands, 3)]: one row [intercept, latitude coefficient,
    longitude coefficient] per atmosphere band. When the index returns the
    neighbour ids [ids], the fit is against the scaled locations [xv] and
    the states [yv] of those reference pixels: for every band [i] the
    design matrix has the rows [1, lat_scaled, lon_scaled] of the
    neighbours valid for the band (elevation does not enter it), the target
    is their column [i] of the state, and row [i] of the model is the
    transposed product [inv(X.T @ W @ X) @ X.T @ W @ y] whenever [inv]
    returns a 3x3 matrix, and zero when [inv] raises. *)
Theorem fitted_model_has_three_columns :
  forall tree_query inv inp nneighbors xs bhat,
    fit_model tree_query inv inp nneighbors xs = Ok bhat ->
    shape bhat = (n_atm_bands inp, 3%nat)
    /\ length (cells bhat) = n_atm_bands inp
    /\ Forall (fun row => length row = 3%nat) (cells bhat)
    /\ (forall xv use,
           ncols (design_matrix xv use) = 3%nat
           /\ Forall (fun row => exists p, p ∈ xv /\ row = [fone; lat p; lon p])
                (cells (design_matrix xv use)))
    /\ forall ids,
         tree_query (map scale (reference_locations inp)) xs nneighbors
           = Ok (NNArray ids) ->
         exists xv yv,
           length xv = length ids
           /\ length yv = length ids
           /\ (forall k j,
                  ids !! k = Some j ->
                  exists p s,
                    reference_locations inp !! j = Some p
                    /\ reference_state inp !! j = Some s
                    /\ xv !! k = Some (scale p)
                    /\ yv !! k = Some s)
           /\ forall i,
                (i < n_atm_bands inp)%nat ->
                let use := valid_mask yv i in
                let X := design_matrix xv use in
                let Wm := identity (length (List.filter id use)) in
                let y := target_column yv use i in
                cells X = map (fun p => [fone; lat p; lon p]) (select use xv)
                /\ cells y = map (fun s => [nth i s fzero]) (select use yv)
                /\ exists N,
                     normal_equations X Wm = Ok N
                     /\ shape N = (3%nat, 3%nat)
                     /\ (forall e,
                            inv N = Raise e ->
                            cells bhat !! i = Some [fzero; fzero; fzero])
                     /\ (forall Ainv,
                            inv N = Ok Ainv -> shape Ainv = (3%nat, 3%nat) ->
                            exists P1 P2 P3,
                              matmul Ainv (transpose X) = Ok P1
                              /\ matmul P1 Wm = Ok P2
                              /\ matmul P2 y = Ok P3
                              /\ cells bhat !! i
                                 = Some [mget P3 0 0; mget P3 1 0;
                                         mget P3 2 0]).
Proof.
  intros tq inv inp k xs bhat H.
  destruct (fit_model_shape _ _ _ _ _ _ H) as (H1 & H2 & H3).
  split; [exact H1|]. split; [exact H2|]. split; [exact H3|].
  split; [intros xv use; apply design_matrix_columns|].
  intros ids Hq. unfold fit_model in H. rewrite Hq in H.
  apply rbind_ok in H. destruct H as (nn & Hnn & H). injection Hnn as <-.
  apply rbind_ok in H. destruct H as (xv & Hxv & H).
  apply rbind_ok in H. destruct H as (yv & Hyv & H). injection H as <-.
  assert (Lx : length xv = length ids) by (eapply rmap_length; eauto).
  assert (Ly : length yv = length ids) by (eapply rmap_length; eauto).
  exists xv, yv. split; [exact Lx|]. split; [exact Ly|]. split.
  - intros n j Hn.
    destruct (rmap_lookup _ _ _ Hxv n j Hn) as (q & Hq1 & Hq2).
    destruct (rmap_lookup _ _ _ Hyv n j Hn) as (s & Hs1 & Hs2).
    apply rbind_ok in Hq1. destruct Hq1 as (p & Hp & Hq1).
    injection Hq1 as <-. unfold index in Hp, Hs1.
    destruct (reference_locations inp !! j) as [p'|] eqn:Ep; [|discriminate].
    destruct (reference_state inp !! j) as [s'|] eqn:Es; [|discriminate].
    injection Hp as ->. injection Hs1 as ->.
    exists p, s. repeat split; assumption.
  - intros i Hi use X Wm y.
    assert (Hrow : cells {| nrows := n_atm_bands inp; ncols := 3;
                           cells := map (fit_band inv xv yv)
                                      (seq 0 (n_atm_bands inp)) |} !! i
                   = Some (fit_band inv xv yv i)).
    { cbn [cells]. rewrite list_lookup_fmap, lookup_seq_lt by exact Hi.
      reflexivity. }
    split; [reflexivity|]. split; [reflexivity|].
    destruct (normal_equations_ok xv yv i) as (N & HN & HNs); [congruence|].
    exists N. split; [exact HN|]. split; [exact HNs|]. split.
    + intros e He. rewrite Hrow. f_equal.
      apply (fit_band_raise inv xv yv i e).
      unfold solve. rewrite HN. wunfold. rewrite He. reflexivity.
    + intros Ainv HA HAs.
      destruct (solve_returns inv xv yv i N Ainv) as (P1 & P2 & P3 & E1 & E2 & E3 & E4);
        [congruence | exact HN | exact HA | exact HAs |].
      exists P1, P2, P3. split; [exact E1|]. split; [exact E2|].
      split; [exact E3|]. rewrite Hrow. f_equal. exact E4.
Qed.

Lemma fitted_model_has_three_columns_witness :
  exists bhat,
    fit_model exhaustive_query cofactor_inv (scenario (Some two_labels)) 5
      (scale (loc_of_Z 0 0 105)) = Ok bhat
    /\ shape bhat = (2%nat, 3%nat)
    /\ cells bhat !! 0%nat <> Some [fzero; fzero; fzero].
Proof.
  eexists. split; [|split].
  - vm_compute. reflexivity.
  - refine (proj1 (fitted_model_has_three_columns exhaustive_query
                     cofactor_inv (scenario (Some two_labels)) 5
                     (scale (loc_of_Z 0 0 105)) _ _)).
    vm_compute. reflexivity.
  - vm_compute. discriminate.
Defined.

(** A two-column coefficient matrix is not what the fit returns: on the
    scenario of the specification the model fitted at the first target
    pixel has shape [(2, 3)]. *)
Lemma fitted_model_is_not_two_columns :
  exists bhat,
    fit_model exhaustive_query cofactor_inv (scenario (Some two_labels)) 5
      (scale (loc_of_Z 0 0 105)) = Ok bhat
    /\ shape bhat <> (n_atm_bands (scenario (Some two_labels)), 2%nat).
Proof.
  eexists. split.
  - vm_compute. reflexivity.
  - vm_compute. discriminate.
Qed.

(** ** The pixel step, case by case *)

Section PixelSteps.

Variable tree_query : list location -> location -> Z -> result nn_result.
Variable inv : matrix -> result matrix.
Variable inp : inputs.
Variable nneighbors : Z.
Variable nodata_value : float.

Local Abbreviation pixel :=
  (process_pixel tree_query inv inp nneighbors nodata_value).

Lemma seg_index_some row col label :
  seg_index inp row col = Ok label -> is_Some (segmentation inp).
Proof.
  unfold seg_index. destruct (segmentation inp); [eauto | discriminate].
Qed.

Lemma pixel_seg_raise row col x st e :
  is_nodata nodata_value x = false ->
  seg_index inp row col = Raise e ->
  pixel row col x st = (st, Raise e).
Proof.
  intros Hx Hseg. unfold process_pixel. rewrite Hx. wunfold.
  rewrite Hseg. reflexivity.
Qed.

Lemma pixel_hit row col x st label b :
  is_nodata nodata_value x = false ->
  seg_index inp row col = Ok label ->
  hash_table st !! label = Some b ->
  pixel row col x st
  = (log (EvEval row col label b) st, Ok (predict b (scale x))).
Proof.
  intros Hx Hseg Hb. unfold process_pixel. rewrite Hx. wunfold.
  rewrite Hseg. cbv beta iota. rewrite Hb. cbv beta iota. rewrite Hb.
  rewrite (bool_decide_true (is_Some (Some b))) by eauto.
  rewrite andb_false_r. reflexivity.
Qed.

Lemma pixel_miss_raise row col x st label e :
  is_nodata nodata_value x = false ->
  seg_index inp row col = Ok label ->
  hash_table st !! label = None ->
  fit_model tree_query inv inp nneighbors (scale x) = Raise e ->
  pixel row col x st = (log (EvQuery row col) st, Raise e).
Proof.
  intros Hx Hseg Hb Hfit. unfold process_pixel. rewrite Hx. wunfold.
  rewrite Hseg. cbv beta iota. rewrite Hb. cbv beta iota. rewrite Hfit.
  reflexivity.
Qed.

Lemma pixel_miss_ok row col x st label b :
  is_nodata nodata_value x = false ->
  seg_index inp row col = Ok label ->
  hash_table st !! label = None ->
  fit_model tree_query inv inp nneighbors (scale x) = Ok b ->
  pixel row col x st
  = (log (EvEval row col label b)
       (store label b
          (log (EvFit row col label b) (log (EvQuery row col) st))),
     Ok (predict b (scale x))).
Proof.
  intros Hx Hseg Hb Hfit. unfold process_pixel. rewrite Hx. wunfold.
  rewrite Hseg. cbv beta iota. rewrite Hb. cbv beta iota. rewrite Hfit.
  cbv beta iota. cbn [log hash_table]. rewrite Hb.
  rewrite (bool_decide_true _ (seg_index_some _ _ _ Hseg)).
  rewrite (bool_decide_false (is_Some None)) by (intros [? ?]; discriminate).
  reflexivity.
Qed.

End PixelSteps.

(** ** A failing solve never changes how the worker ends (C8) *)







Section SolveIndependence.

Variable tree_query : list location -> location -> Z -> result nn_result.
Variables inv inv' : matrix -> result matrix.
Variable inp : inputs.
Variable nneighbors : Z.
Variable nodata_value : float.








End SolveIndependence.








(** ** Cache reuse within a worker (C7) *)








Section CacheReuse.

Variable tree_query : list location -> location -> Z -> result nn_result.
Variable inv : matrix -> result matrix.
Variable inp : inputs.
Variable nneighbors : Z.
Variable nodata_value : float.
Variable pre : list event.








End CacheReuse.



(** ** The smoothing pass on holes (C2) *)

Lemma zip_with_map_r {A B C} (f : A -> B -> C) (h : A -> B) (l : list A) :
  zip_with f l (map h l) = map (fun a => f a (h a)) l.
Proof. induction l as [|a l IH]; cbn; [reflexivity | now rewrite IH]. Qed.

Lemma zip_with_map_both {A A' B C} (f : A' -> B -> C) (g : A -> A')
    (h : A -> B) (l : list A) :
  zip_with f (map g l) (map h l) = map (fun a => f (g a) (h a)) l.
Proof. induction l as [|a l IH]; cbn; [reflexivity | now rewrite IH]. Qed.

Lemma zero_nulls_pointwise V :
  zero_nulls V
  = map (map (fun v => if feqb v (float_of_Z (-9999)) then fzero else v)) V.
Proof.
  unfold zero_nulls, null_mask. rewrite zip_with_map_r.
  apply map_ext. intros row. apply zip_with_map_r.
Qed.

Lemma validity_mask_pointwise V :
  validity_mask V
  = map (map (fun v => if feqb v (float_of_Z (-9999)) then fzero
                       else fadd (fmul fzero v) fone)) V.
Proof.
  unfold validity_mask. rewrite zero_nulls_pointwise. unfold null_mask.
  rewrite zip_with_map_both.
  apply map_ext. intros row. rewrite zip_with_map_both.
  apply map_ext. intros v. destruct (feqb v (float_of_Z (-9999))); reflexivity.
Qed.

Lemma map_map_ext_Forall {A B} (f g : A -> B) (P : A -> Prop) (V : list (list A)) :
  (forall a, P a -> f a = g a) ->
  Forall (Forall P) V -> map (map f) V = map (map g) V.
Proof.
  intros Hfg. induction 1 as [|row V Hrow _ IH]; [reflexivity|].
  cbn. f_equal; [|exact IH].
  induction Hrow as [|a row Ha _ IHrow]; [reflexivity|].
  cbn. f_equal; [now apply Hfg | exact IHrow].
Qed.

Lemma zip_with_const_grid {A} (h : float -> float -> float) (a b c : float)
    (V : list (list A)) :
  h a b = c ->
  zip_with (zip_with h) (map (map (fun _ => a)) V) (map (map (fun _ => b)) V)
  = map (map (fun _ => c)) V.
Proof.
  intros Hh. induction V as [|row V IH]; [reflexivity|].
  cbn. f_equal; [|exact IH].
  induction row as [|x row IHrow]; [reflexivity|].
  cbn. now rewrite Hh, IHrow.
Qed.

(** C2, as the code has it. The smoothing pass has no guard for a band
    that is entirely [-9999]: both the zeroed band and the validity mask
    are zero everywhere, and as soon as the filter maps that zero grid to
    itself (as a convolution with finite weights does) the elementwise
    division is [0/0] at every pixel: the band comes out as NaN, not as
    nodata. *)
Theorem all_nodata_band_becomes_nan :
  forall gaussian_filter sigma V,
    Forall (Forall (fun v => feqb v (float_of_Z (-9999)) = true)) V ->
    gaussian_filter (map (map (fun _ => fzero)) V) sigma
      = map (map (fun _ => fzero)) V ->
    zero_nulls V = map (map (fun _ => fzero)) V
    /\ validity_mask V = map (map (fun _ => fzero)) V
    /\ smooth_band gaussian_filter sigma V = map (map (fun _ => fnan)) V.
Proof.
  intros gf sigma V Hall Hgf.
  assert (HV : zero_nulls V = map (map (fun _ => fzero)) V).
  { rewrite zero_nulls_pointwise.
    apply (map_map_ext_Forall _ _ _ V) with (2 := Hall).
    intros v Hv. now rewrite Hv. }
  assert (HW : validity_mask V = map (map (fun _ => fzero)) V).
  { rewrite validity_mask_pointwise.
    apply (map_map_ext_Forall _ _ _ V) with (2 := Hall).
    intros v Hv. now rewrite Hv. }
  repeat split; [exact HV | exact HW |].
  unfold smooth_band. rewrite HV, HW, Hgf.
  apply zip_with_const_grid. reflexivity.
Qed.

Lemma all_nodata_band_becomes_nan_witness :
  let quarter := fdiv fone (float_of_Z 4) in
  let half := fdiv fone (float_of_Z 2) in
  let band := [[default_nodata; default_nodata];
               [default_nodata; default_nodata]] in
  smooth_band (kernel_filter [quarter; half; quarter]) (float_of_Z 2) band
  = [[fnan; fnan]; [fnan; fnan]].
Proof.
  intros quarter half band.
  refine (proj2 (proj2 (all_nodata_band_becomes_nan
                          (kernel_filter [quarter; half; quarter])
                          (float_of_Z 2) band _ _))).
  - repeat constructor.
  - vm_compute. reflexivity.
Defined.

(** An all-nodata band is not left as nodata: a 2x2 band
    of [-9999], smoothed with [sigma = 2] by a three-tap kernel, is NaN at
    every pixel, and so is the one-band raster holding it after the loop
    over the bands. *)
Lemma all_nodata_band_not_left_as_nodata :
  let quarter := fdiv fone (float_of_Z 4) in
  let half := fdiv fone (float_of_Z 2) in
  let filter := kernel_filter [quarter; half; quarter] in
  let band := [[default_nodata; default_nodata];
               [default_nodata; default_nodata]] in
  let smoothed := smooth_band filter (float_of_Z 2) band in
  smoothed = [[fnan; fnan]; [fnan; fnan]]
  /\ smoothed <> band
  /\ smooth_bands filter (float_of_Z 2) 1
       [[[default_nodata]; [default_nodata]];
        [[default_nodata]; [default_nodata]]]
     = [[[fnan]; [fnan]]; [[fnan]; [fnan]]].
Proof.
  vm_compute. split; [reflexivity|]. split; [discriminate | reflexivity].
Qed.

(** ** Binary64 rounding in [SpecFloat], related to the integers *)

Lemma digits2_pos_bounds p :
  2 ^ (Z.pos (digits2_pos p) - 1) <= Z.pos p < 2 ^ Z.pos (digits2_pos p).
Proof.
  induction p as [p IH|p IH|]; cbn [digits2_pos].
  - rewrite Pos2Z.inj_succ. replace (Z.succ (Z.pos (digits2_pos p)) - 1) with (Z.succ (Z.pos (digits2_pos p) - 1)) by lia.
    rewrite !Z.pow_succ_r by lia. lia.
  - rewrite Pos2Z.inj_succ. replace (Z.succ (Z.pos (digits2_pos p)) - 1) with (Z.succ (Z.pos (digits2_pos p) - 1)) by lia.
    rewrite !Z.pow_succ_r by lia. lia.
  - cbn. lia.
Qed.

Lemma digits2_pos_log2 p : Z.pos (digits2_pos p) = digits (Z.pos p).
Proof.
  unfold digits. pose proof (digits2_pos_bounds p) as H.
  assert (Z.log2 (Z.pos p) = Z.pos (digits2_pos p) - 1); [|lia].
  apply Z.log2_unique; [lia|].
  replace (Z.succ (Z.pos (digits2_pos p) - 1)) with (Z.pos (digits2_pos p)) by lia.
  exact H.
Qed.

Lemma digits_bounds X : 0 < X -> 2 ^ (digits X - 1) <= X < 2 ^ digits X.
Proof.
  intros HX. unfold digits. replace (Z.log2 X + 1 - 1) with (Z.log2 X) by lia.
  pose proof (Z.log2_spec X HX). replace (Z.log2 X + 1) with (Z.succ (Z.log2 X)) by lia. exact H.
Qed.

Lemma digits_unique X d : 2 ^ (d - 1) <= X < 2 ^ d -> 0 < d -> digits X = d.
Proof.
  intros H Hd. unfold digits.
  assert (Z.log2 X = d - 1); [|lia].
  apply Z.log2_unique; [lia|]. replace (Z.succ (d - 1)) with d by lia. exact H.
Qed.

Lemma iter_pos_nat {A} (f : A -> A) p : forall x,
  SpecFloat.iter_pos f p x = Nat.iter (Pos.to_nat p) f x.
Proof.
  induction p as [p IH|p IH|]; intros x; cbn [SpecFloat.iter_pos].
  - rewrite !IH. rewrite Pos2Nat.inj_xI. 
    replace (S (2 * Pos.to_nat p))%nat with (Pos.to_nat p + S (Pos.to_nat p))%nat by lia.
    rewrite Nat.iter_add. f_equal. now rewrite Nat.iter_succ_r.
  - rewrite !IH. rewrite Pos2Nat.inj_xO.
    replace (2 * Pos.to_nat p)%nat with (Pos.to_nat p + Pos.to_nat p)%nat by lia.
    now rewrite Nat.iter_add.
  - reflexivity.
Qed.

Lemma shr_1_nonneg m r s :
  0 <= m -> shr_1 {| shr_m := m; shr_r := r; shr_s := s |}
            = {| shr_m := m / 2; shr_r := Z.odd m; shr_s := r || s |}.
Proof.
  intros Hm. destruct m as [|p|p]; [reflexivity| |lia].
  destruct p as [p|p|]; cbn [shr_1].
  - f_equal. rewrite Pos2Z.inj_xI. apply (Z.div_unique _ _ _ 1); lia.
  - f_equal. rewrite Pos2Z.inj_xO. apply (Z.div_unique _ _ _ 0); lia.
  - reflexivity.
Qed.

Lemma loc_of_shr_record_exact_iff mrs :
  loc_of_shr_record mrs = loc_Exact <-> shr_r mrs || shr_s mrs = false.
Proof. destruct mrs as [m [] []]; cbn; split; congruence. Qed.

Lemma location_of_exact_iff rho h : location_of rho h = loc_Exact <-> rho = 0.
Proof.
  unfold location_of. destruct (Z.eqb_spec rho 0); split; congruence.
Qed.

Lemma shr_iter m (n : nat) :
  0 <= m ->
  let mrs := Nat.iter n shr_1 {| shr_m := m; shr_r := false; shr_s := false |} in
  shr_m mrs = m / 2 ^ Z.of_nat n
  /\ loc_of_shr_record mrs
     = location_of (m mod 2 ^ Z.of_nat n) (2 ^ (Z.of_nat n - 1)).
Proof.
  intros Hm. induction n as [|n IH]; cbn zeta.
  - cbn. rewrite Z.div_1_r, Z.mod_1_r. split; reflexivity.
  - rewrite Nat.iter_succ. cbn zeta in IH. destruct IH as [IHm IHl].
    destruct (Nat.iter n shr_1 _) as [m' r s]. cbn [shr_m] in IHm.
    assert (Hpow : 0 < 2 ^ Z.of_nat n) by (apply Z.pow_pos_nonneg; lia).
    assert (Hm' : 0 <= m') by (subst m'; apply Z.div_pos; lia).
    rewrite shr_1_nonneg by exact Hm'. cbn [shr_m].
    rewrite Nat2Z.inj_succ, Z.pow_succ_r by lia.
    replace (Z.succ (Z.of_nat n) - 1) with (Z.of_nat n) by lia.
    split.
    + subst m'. rewrite Z.div_div by lia. f_equal. lia.
    + rewrite (Z.mul_comm 2), (Z.rem_mul_r m) by lia.
      rewrite <- IHm.
      pose proof (Z.mod_pos_bound m (2 ^ Z.of_nat n) Hpow) as Hrho.
      set (rho := m mod 2 ^ Z.of_nat n) in *.
      assert (Hrs : r || s = negb (rho =? 0)).
      { destruct (Z.eqb_spec rho 0) as [E|E].
        - apply loc_of_shr_record_exact_iff with (mrs := Build_shr_record m' r s).
          rewrite IHl. now apply location_of_exact_iff.
        - destruct (r || s) eqn:Hrs; [reflexivity|exfalso]. apply E.
          apply (location_of_exact_iff rho (2 ^ (Z.of_nat n - 1))).
          rewrite <- IHl.
          now apply loc_of_shr_record_exact_iff. }
      rewrite Hrs. rewrite (Zmod_odd m').
      unfold location_of.
      destruct (Z.odd m'), (Z.eqb_spec rho 0) as [E|E]; cbn [negb loc_of_shr_record].
      * rewrite E. destruct (Z.eqb_spec (0 + 2 ^ Z.of_nat n * 1) 0); [lia|].
        f_equal. symmetry. apply Z.compare_eq_iff. lia.
      * destruct (Z.eqb_spec (rho + 2 ^ Z.of_nat n * 1) 0); [lia|].
        f_equal. symmetry. apply Z.compare_gt_iff. lia.
      * rewrite E. destruct (Z.eqb_spec (0 + 2 ^ Z.of_nat n * 0) 0); [reflexivity|lia].
      * destruct (Z.eqb_spec (rho + 2 ^ Z.of_nat n * 0) 0); [lia|].
        f_equal. symmetry. apply Z.compare_lt_iff. lia.
Qed.

Lemma round_nearest_even_rne m n mrs :
  1 <= n ->
  shr_m mrs = m / 2 ^ n ->
  loc_of_shr_record mrs = location_of (m mod 2 ^ n) (2 ^ (n - 1)) ->
  round_nearest_even (shr_m mrs) (loc_of_shr_record mrs) = rne m n.
Proof.
  intros Hn -> ->. unfold rne, location_of, round_nearest_even.
  assert (Hh : 0 < 2 ^ (n - 1)) by (apply Z.pow_pos_nonneg; lia).
  destruct (Z.eqb_spec (m mod 2 ^ n) 0) as [E|E].
  - rewrite E. destruct (Z.ltb_spec 0 (2 ^ (n - 1))); [reflexivity|lia].
  - destruct (Z.compare_spec (m mod 2 ^ n) (2 ^ (n - 1))) as [C|C|C].
    + rewrite C. rewrite Z.ltb_irrefl. reflexivity.
    + destruct (Z.ltb_spec (m mod 2 ^ n) (2 ^ (n - 1))); [reflexivity|lia].
    + destruct (Z.ltb_spec (m mod 2 ^ n) (2 ^ (n - 1))); [lia|].
      destruct (Z.ltb_spec (2 ^ (n - 1)) (m mod 2 ^ n)); [reflexivity|lia].
Qed.

Lemma binary_round_aux_finish sx mx ex lx :
  binary_round_aux prec emax sx mx ex lx
  = finish sx (round_nearest_even (shr_m (fst (shr_fexp prec emax mx ex lx)))
                 (loc_of_shr_record (fst (shr_fexp prec emax mx ex lx))))
      (snd (shr_fexp prec emax mx ex lx)).
Proof.
  unfold binary_round_aux, finish.
  destruct (shr_fexp prec emax mx ex lx) as [mrs e]. reflexivity.
Qed.

Lemma fexp_normal e : -1021 <= e -> fexp prec emax e = e - 53.
Proof. unfold fexp, emin, prec, emax. lia. Qed.

Lemma Zdigits2_digits m : 0 < m -> Zdigits2 m = digits m.
Proof.
  destruct m as [|p|p]; try lia. intros _. cbn [Zdigits2].
  apply digits2_pos_log2.
Qed.

Lemma shr_fexp_exact m e :
  0 < m -> -1021 <= digits m + e ->
  shr_fexp prec emax m e loc_Exact
  = if digits m - 53 <=? 0
    then ({| shr_m := m; shr_r := false; shr_s := false |}, e)
    else (Nat.iter (Z.to_nat (digits m - 53)) shr_1
            {| shr_m := m; shr_r := false; shr_s := false |},
          e + (digits m - 53)).
Proof.
  intros Hm Hr. unfold shr_fexp. rewrite Zdigits2_digits by exact Hm.
  rewrite fexp_normal by exact Hr.
  replace (digits m + e - 53 - e) with (digits m - 53) by lia.
  cbn [shr_record_of_loc]. unfold shr.
  destruct (digits m - 53) as [|p|p] eqn:Hn.
  - reflexivity.
  - destruct (Z.leb_spec (Z.pos p) 0); [lia|].
    rewrite iter_pos_nat. reflexivity.
  - reflexivity.
Qed.

Lemma finish_spec m1 e1 :
  2 ^ 52 <= m1 <= 2 ^ 53 -> -1074 <= e1 <= 900 ->
  exists m' e',
    finish false m1 e1 = S754_finite false m' e'
    /\ e1 <= e' <= e1 + 1
    /\ Z.pos m' * 2 ^ (e' - e1) = m1
    /\ 2 ^ 52 <= Z.pos m' < 2 ^ 53.
Proof.
  intros Hm He. unfold finish.
  assert (Hpos : 0 < m1) by lia.
  destruct (Z.eq_dec m1 (2 ^ 53)) as [->|Hne].
  - assert (Hd : digits (2 ^ 53) = 54) by reflexivity.
    rewrite shr_fexp_exact by (rewrite ?Hd; lia). rewrite Hd.
    cbn [Z.leb Z.sub Z.add Z.opp Z.pos_sub Z.compare Pos.compare Pos.compare_cont
         Z.to_nat Pos.to_nat Pos.iter_op Nat.iter nat_rect Nat.add].
    change (54 - 53 <=? 0) with false. cbv iota.
    change (Z.to_nat (54 - 53)) with 1%nat. cbn [Nat.iter nat_rect].
    rewrite shr_1_nonneg by lia. cbn [shr_m].
    change (2 ^ 53 / 2) with (Z.pos (Pos.pow 2 52)). cbv iota.
    destruct (Z.leb_spec (e1 + (54 - 53)) (emax - prec)) as [_|Hbad];
      [|unfold emax, prec in Hbad; lia].
    exists (Pos.pow 2 52), (e1 + (54 - 53)). repeat split; try lia.
    all: try (replace (e1 + (54 - 53) - e1) with 1 by lia); reflexivity.
  - assert (Hd : digits m1 = 53) by (apply digits_unique; lia).
    rewrite shr_fexp_exact by (rewrite ?Hd; lia). rewrite Hd.
    change (53 - 53 <=? 0) with true. cbv iota. cbn [shr_m].
    destruct m1 as [|p|p]; try lia.
    destruct (Z.leb_spec e1 (emax - prec)) as [_|Hbad];
      [|unfold emax, prec in Hbad; lia].
    exists p, e1. repeat split; try lia.
    rewrite Z.sub_diag. lia.
Qed.

Lemma rne_bounds X n :
  1 <= n -> 0 <= X -> X / 2 ^ n <= rne X n <= X / 2 ^ n + 1.
Proof.
  intros Hn HX. unfold rne.
  destruct (_ <? _); [lia|]. destruct (_ <? _); [lia|].
  destruct (Z.even _); lia.
Qed.

Lemma binary_round_aux_exact (M : positive) (E : Z) :
  -1021 <= digits (Z.pos M) + E -> digits (Z.pos M) + E <= 900 -> E <= 900 ->
  exists m' e',
    binary_round_aux prec emax false (Z.pos M) E loc_Exact
      = S754_finite false m' e'
    /\ E <= e'
    /\ Z.pos m' * 2 ^ (e' - E) = rnd53 (Z.pos M).
Proof.
  intros Hlo Hhi HE. rewrite binary_round_aux_finish.
  rewrite shr_fexp_exact by lia. unfold rnd53.
  set (d := digits (Z.pos M)) in *.
  assert (Hd : 1 <= d) by (unfold d, digits; pose proof (Z.log2_nonneg (Z.pos M)); lia).
  destruct (Z.leb_spec d 53) as [Hle|Hgt].
  - destruct (Z.leb_spec (d - 53) 0); [|lia]. cbn [fst snd shr_m loc_of_shr_record round_nearest_even].
    unfold finish. rewrite shr_fexp_exact by (fold d; lia). fold d.
    destruct (Z.leb_spec (d - 53) 0); [|lia]. cbn [shr_m].
    destruct (Z.leb_spec E (emax - prec)) as [_|Hbad];
      [|unfold emax, prec in Hbad; lia].
    exists M, E. rewrite Z.sub_diag. repeat split; lia.
  - destruct (Z.leb_spec (d - 53) 0); [lia|]. cbn [fst snd].
    pose proof (shr_iter (Z.pos M) (Z.to_nat (d - 53)) ltac:(lia)) as Hit.
    cbn zeta in Hit. rewrite Z2Nat.id in Hit by lia. destruct Hit as [Hm Hl].
    rewrite (round_nearest_even_rne (Z.pos M) (d - 53)) by (try lia; assumption).
    pose proof (digits_bounds (Z.pos M) ltac:(lia)) as Hb. fold d in Hb.
    assert (Hq : 2 ^ 52 <= Z.pos M / 2 ^ (d - 53) < 2 ^ 53).
    { assert (Hp : 0 < 2 ^ (d - 53)) by (apply Z.pow_pos_nonneg; lia).
      assert (E1 : 2 ^ (d - 1) = 2 ^ 52 * 2 ^ (d - 53))
        by (rewrite <- Z.pow_add_r by lia; f_equal; lia).
      assert (E2 : 2 ^ d = 2 ^ 53 * 2 ^ (d - 53))
        by (rewrite <- Z.pow_add_r by lia; f_equal; lia).
      split.
      - apply Z.div_le_lower_bound; lia.
      - apply Z.div_lt_upper_bound; lia. }
    pose proof (rne_bounds (Z.pos M) (d - 53) ltac:(lia) ltac:(lia)) as Hr.
    destruct (finish_spec (rne (Z.pos M) (d - 53)) (E + (d - 53)))
      as (m' & e' & Hf & He' & Hv & _); [lia|lia|].
    exists m', e'. rewrite Hf. repeat split; [lia|].
    rewrite <- Hv. rewrite <- Z.mul_assoc, <- Z.pow_add_r by lia.
    f_equal. f_equal. lia.
Qed.

Lemma rne_mono X Y n : 1 <= n -> 0 <= X <= Y -> rne X n <= rne Y n.
Proof.
  intros Hn HXY.
  assert (Hp : 0 < 2 ^ n) by (apply Z.pow_pos_nonneg; lia).
  pose proof (Z.div_le_mono X Y (2 ^ n) Hp ltac:(lia)) as Hq.
  pose proof (rne_bounds X n Hn ltac:(lia)) as HbX.
  pose proof (rne_bounds Y n Hn ltac:(lia)) as HbY.
  destruct (Z.eq_dec (X / 2 ^ n) (Y / 2 ^ n)) as [Heq|Hne]; [|lia].
  pose proof (Z.div_mod X (2 ^ n) ltac:(lia)) as HX.
  pose proof (Z.div_mod Y (2 ^ n) ltac:(lia)) as HY.
  assert (Hrho : X mod 2 ^ n <= Y mod 2 ^ n) by (rewrite Heq in HX; lia).
  unfold rne. rewrite Heq.
  destruct (Z.ltb_spec (X mod 2 ^ n) (2 ^ (n - 1))),
           (Z.ltb_spec (Y mod 2 ^ n) (2 ^ (n - 1))),
           (Z.ltb_spec (2 ^ (n - 1)) (X mod 2 ^ n)),
           (Z.ltb_spec (2 ^ (n - 1)) (Y mod 2 ^ n)),
           (Z.even (Y / 2 ^ n)); lia.
Qed.

Lemma rne_exact a n : 1 <= n -> rne (a * 2 ^ n) n = a.
Proof.
  intros Hn. unfold rne.
  assert (Hp : 0 < 2 ^ n) by (apply Z.pow_pos_nonneg; lia).
  assert (Hh : 0 < 2 ^ (n - 1)) by (apply Z.pow_pos_nonneg; lia).
  rewrite Z.div_mul, Z.mod_mul by lia.
  destruct (Z.ltb_spec 0 (2 ^ (n - 1))); [reflexivity|lia].
Qed.

Lemma rne_scale X n j : 1 <= n -> 0 <= j -> rne (X * 2 ^ j) (n + j) = rne X n.
Proof.
  intros Hn Hj. unfold rne.
  assert (Hp : 0 < 2 ^ n) by (apply Z.pow_pos_nonneg; lia).
  assert (Hpj : 0 < 2 ^ j) by (apply Z.pow_pos_nonneg; lia).
  assert (Hh : 0 < 2 ^ (n - 1)) by (apply Z.pow_pos_nonneg; lia).
  rewrite (Z.pow_add_r 2 n j) by lia.
  rewrite Z.div_mul_cancel_r by lia.
  rewrite Z.mul_mod_distr_r by lia.
  replace (n + j - 1) with (n - 1 + j) by lia.
  rewrite (Z.pow_add_r 2 (n - 1) j) by lia.
  destruct (Z.ltb_spec (X mod 2 ^ n) (2 ^ (n - 1))),
           (Z.ltb_spec (X mod 2 ^ n * 2 ^ j) (2 ^ (n - 1) * 2 ^ j));
    try reflexivity; try (exfalso; nia).
  destruct (Z.ltb_spec (2 ^ (n - 1)) (X mod 2 ^ n)),
           (Z.ltb_spec (2 ^ (n - 1) * 2 ^ j) (X mod 2 ^ n * 2 ^ j));
    try reflexivity; exfalso; nia.
Qed.

Lemma digits_scale X j : 0 < X -> 0 <= j -> digits (X * 2 ^ j) = digits X + j.
Proof.
  intros HX Hj. unfold digits. rewrite Z.log2_mul_pow2 by lia. lia.
Qed.

Lemma rnd53_scale X j : 0 < X -> 0 <= j -> rnd53 (X * 2 ^ j) = rnd53 X * 2 ^ j.
Proof.
  intros HX Hj. unfold rnd53. rewrite digits_scale by lia.
  set (d := digits X).
  assert (Hd : 1 <= d) by (unfold d, digits; pose proof (Z.log2_nonneg X); lia).
  destruct (Z.leb_spec d 53) as [Hle|Hgt].
  - destruct (Z.leb_spec (d + j) 53) as [Hle'|Hgt']; [reflexivity|].
    replace (X * 2 ^ j) with (X * 2 ^ (53 - d) * 2 ^ (d + j - 53)).
    + rewrite rne_exact by lia. reflexivity.
    + rewrite <- Z.mul_assoc, <- Z.pow_add_r by lia. do 2 f_equal. lia.
  - destruct (Z.leb_spec (d + j) 53) as [Hle'|Hgt']; [lia|].
    replace (d + j - 53) with (d - 53 + j) by lia.
    rewrite rne_scale by lia. rewrite Z.pow_add_r by lia. lia.
Qed.

Lemma rnd53_exact a j : 0 < a < 2 ^ 53 -> 0 <= j -> rnd53 (a * 2 ^ j) = a * 2 ^ j.
Proof.
  intros Ha Hj. rewrite rnd53_scale by lia. f_equal.
  unfold rnd53. destruct (Z.leb_spec (digits a) 53) as [_|Hgt]; [reflexivity|].
  exfalso. pose proof (digits_bounds a ltac:(lia)) as Hb.
  assert (2 ^ 53 <= 2 ^ (digits a - 1)) by (apply Z.pow_le_mono_r; lia). lia.
Qed.

Lemma rnd53_upper X : 0 < X -> rnd53 X <= 2 ^ digits X.
Proof.
  intros HX. unfold rnd53. pose proof (digits_bounds X HX) as Hb.
  destruct (Z.leb_spec (digits X) 53) as [Hle|Hgt]; [lia|].
  set (n := digits X - 53) in *.
  assert (Hp : 0 < 2 ^ n) by (apply Z.pow_pos_nonneg; lia).
  assert (E2 : 2 ^ digits X = 2 ^ 53 * 2 ^ n)
    by (rewrite <- Z.pow_add_r by lia; f_equal; lia).
  pose proof (rne_bounds X n ltac:(lia) ltac:(lia)) as Hr.
  assert (X / 2 ^ n < 2 ^ 53) by (apply Z.div_lt_upper_bound; lia).
  rewrite E2. apply Z.mul_le_mono_nonneg_r; lia.
Qed.

Lemma rnd53_lower X : 0 < X -> 2 ^ (digits X - 1) <= rnd53 X.
Proof.
  intros HX. unfold rnd53. pose proof (digits_bounds X HX) as Hb.
  destruct (Z.leb_spec (digits X) 53) as [Hle|Hgt]; [lia|].
  set (n := digits X - 53) in *.
  assert (Hp : 0 < 2 ^ n) by (apply Z.pow_pos_nonneg; lia).
  assert (E1 : 2 ^ (digits X - 1) = 2 ^ 52 * 2 ^ n)
    by (rewrite <- Z.pow_add_r by lia; f_equal; lia).
  pose proof (rne_bounds X n ltac:(lia) ltac:(lia)) as Hr.
  assert (2 ^ 52 <= X / 2 ^ n) by (apply Z.div_le_lower_bound; lia).
  rewrite E1. apply Z.mul_le_mono_nonneg_r; lia.
Qed.

Lemma rnd53_mono X Y : 0 < X <= Y -> rnd53 X <= rnd53 Y.
Proof.
  intros HXY.
  assert (Hd : digits X <= digits Y)
    by (unfold digits; pose proof (Z.log2_le_mono X Y); lia).
  destruct (Z.eq_dec (digits X) (digits Y)) as [Heq|Hne].
  - unfold rnd53. rewrite Heq.
    destruct (Z.leb_spec (digits Y) 53) as [Hle|Hgt]; [lia|].
    apply Z.mul_le_mono_nonneg_r.
    + apply Z.pow_nonneg. lia.
    + apply rne_mono; lia.
  - pose proof (rnd53_upper X ltac:(lia)).
    pose proof (rnd53_lower Y ltac:(lia)).
    assert (2 ^ digits X <= 2 ^ (digits Y - 1)) by (apply Z.pow_le_mono_r; lia).
    lia.
Qed.

Lemma binary_round_aux_short (M : positive) (E : Z) :
  digits (Z.pos M) <= 53 -> -1021 <= digits (Z.pos M) + E -> E <= 900 ->
  binary_round_aux prec emax false (Z.pos M) E loc_Exact = S754_finite false M E.
Proof.
  intros Hd Hlo HE. rewrite binary_round_aux_finish.
  rewrite shr_fexp_exact by lia.
  destruct (Z.leb_spec (digits (Z.pos M) - 53) 0); [|lia].
  cbn [fst snd shr_m loc_of_shr_record round_nearest_even].
  unfold finish. rewrite shr_fexp_exact by lia.
  destruct (Z.leb_spec (digits (Z.pos M) - 53) 0); [|lia]. cbn [shr_m].
  destruct (Z.leb_spec E (emax - prec)) as [_|Hbad];
    [reflexivity | unfold emax, prec in Hbad; lia].
Qed.

Lemma pos_iter_xO p n : Z.pos (Pos.iter xO p n) = Z.pos p * 2 ^ Z.pos n.
Proof.
  induction n as [|n IH] using Pos.peano_ind.
  - cbn. lia.
  - rewrite Pos.iter_succ, Pos2Z.inj_xO, IH, Pos2Z.inj_succ, Z.pow_succ_r by lia.
    lia.
Qed.

Lemma float_of_Z_canonical z :
  0 < z < 2 ^ 53 ->
  exists m,
    float_of_Z z = S754_finite false m (digits z - 53)
    /\ Z.pos m = z * 2 ^ (53 - digits z)
    /\ digits (Z.pos m) = 53.
Proof.
  intros Hz. destruct z as [|p|p]; try lia.
  unfold float_of_Z, binary_normalize, binary_round.
  rewrite digits2_pos_log2. rewrite Z.add_0_r.
  pose proof (digits_bounds (Z.pos p) ltac:(lia)) as Hb.
  set (d := digits (Z.pos p)) in *.
  assert (Hd1 : 1 <= d) by (unfold d, digits; pose proof (Z.log2_nonneg (Z.pos p)); lia).
  assert (Hd : d <= 53).
  { destruct (Z.leb_spec d 53); [assumption|exfalso].
    assert (2 ^ 53 <= 2 ^ (d - 1)) by (apply Z.pow_le_mono_r; lia). lia. }
  rewrite fexp_normal by lia. unfold shl_align.
  replace (d - 53 - 0) with (d - 53) by lia.
  destruct (d - 53) as [|q|q] eqn:Hq; try lia.
  - assert (d = 53) by lia.
    rewrite binary_round_aux_short by (fold d; lia).
    exists p. replace (53 - d) with 0 by lia. repeat split; lia.
  - assert (Hm : Z.pos (Pos.iter xO p q) = Z.pos p * 2 ^ (53 - d)).
    { rewrite pos_iter_xO. f_equal. f_equal. lia. }
    assert (Hdm : digits (Z.pos (Pos.iter xO p q)) = 53).
    { rewrite Hm, digits_scale by lia. fold d. lia. }
    rewrite binary_round_aux_short by (rewrite ?Hdm; lia).
    exists (Pos.iter xO p q). repeat split; assumption.
Qed.

Lemma loc_of_shr_record_of_loc m l :
  loc_of_shr_record (shr_record_of_loc m l) = l.
Proof. destruct l as [|[]]; reflexivity. Qed.

Lemma shr_m_record_of_loc m l : shr_m (shr_record_of_loc m l) = m.
Proof. destruct l as [|[]]; reflexivity. Qed.

Lemma round_new_location q B r :
  0 < B -> 0 <= r < B ->
  let m1 := round_nearest_even q (new_location B r) in
  m1 = q \/ (m1 = q + 1 /\ B <= 2 * r).
Proof.
  intros HB Hr. unfold new_location, new_location_even, new_location_odd.
  destruct (Z.even B); destruct (Z.eqb_spec r 0) as [E|E]; cbn zeta;
    try (left; reflexivity).
  - destruct (Z.compare_spec (2 * r) B) as [C|C|C]; cbn [round_nearest_even].
    + destruct (Z.even q); [left; reflexivity | right; lia].
    + left; reflexivity.
    + right; lia.
  - destruct (Z.compare_spec (2 * r + 1) B) as [C|C|C]; cbn [round_nearest_even].
    + left; reflexivity.
    + left; reflexivity.
    + right; lia.
Qed.

Lemma round_after_shift m rbit sbit :
  let m1 := round_nearest_even m
              (loc_of_shr_record {| shr_m := m; shr_r := rbit; shr_s := sbit |}) in
  m1 = m \/ (m1 = m + 1 /\ rbit = true).
Proof.
  destruct rbit, sbit; cbn; auto.
  destruct (Z.even m); auto.
Qed.

Lemma shr_fexp_53 q e l :
  0 < q -> digits q = 53 -> -1021 <= 53 + e ->
  shr_fexp prec emax q e l = (shr_record_of_loc q l, e).
Proof.
  intros Hq Hd He. unfold shr_fexp. rewrite Zdigits2_digits, Hd by exact Hq.
  rewrite fexp_normal by exact He.
  replace (53 + e - 53 - e) with 0 by lia. reflexivity.
Qed.

Lemma shr_fexp_54 q e l :
  0 < q -> digits q = 54 -> -1021 <= 54 + e ->
  shr_fexp prec emax q e l = (shr_1 (shr_record_of_loc q l), e + 1).
Proof.
  intros Hq Hd He. unfold shr_fexp. rewrite Zdigits2_digits, Hd by exact Hq.
  rewrite fexp_normal by exact He.
  replace (54 + e - 53 - e) with 1 by lia. reflexivity.
Qed.

Lemma digits_le_mono X Y : 0 < X <= Y -> digits X <= digits Y.
Proof. intros H. unfold digits. pose proof (Z.log2_le_mono X Y). lia. Qed.

Lemma digits_pos X : 0 < X -> 1 <= digits X.
Proof. intros H. unfold digits. pose proof (Z.log2_nonneg X). lia. Qed.

Lemma digits_le_53 X : 0 < X < 2 ^ 53 -> digits X <= 53.
Proof.
  intros H. pose proof (digits_bounds X ltac:(lia)) as Hb.
  destruct (Z.leb_spec (digits X) 53); [assumption|exfalso].
  assert (2 ^ 53 <= 2 ^ (digits X - 1)) by (apply Z.pow_le_mono_r; lia). lia.
Qed.

Lemma fdiv_of_Z n k :
  1 <= k <= n -> n < 2 ^ 53 ->
  exists ms es,
    fdiv (float_of_Z n) (float_of_Z k) = S754_finite false ms es
    /\ -53 <= es <= 1
    /\ Z.pos ms < 2 ^ 53
    /\ Z.pos ms * 2 ^ (es + 53) * k <= n * (2 ^ 53 + 1).
Proof.
  intros Hk Hn.
  destruct (float_of_Z_canonical n ltac:(lia)) as (mn & En & Hmn & Hdn).
  destruct (float_of_Z_canonical k ltac:(lia)) as (mk & Ek & Hmk & Hdk).
  pose proof (digits_le_mono k n ltac:(lia)) as Hdd.
  pose proof (digits_le_53 n ltac:(lia)) as Hn53.
  pose proof (digits_pos k ltac:(lia)) as Hk1.
  set (dn := digits n) in *. set (dk := digits k) in *.
  unfold fdiv. rewrite En, Ek. unfold SFdiv, SFdiv_core_binary.
  rewrite !Zdigits2_digits, Hdn, Hdk by lia.
  replace (53 + (dn - 53) - (53 + (dk - 53))) with (dn - dk) by lia.
  rewrite fexp_normal by lia.
  replace (Z.min (dn - dk - 53) (dn - 53 - (dk - 53))) with (dn - dk - 53) by lia.
  replace (dn - 53 - (dk - 53) - (dn - dk - 53)) with 53 by lia.
  cbv iota. rewrite Z.shiftl_mul_pow2 by lia.
  pose proof (digits_bounds (Z.pos mn) ltac:(lia)) as HA.
  pose proof (digits_bounds (Z.pos mk) ltac:(lia)) as HB.
  rewrite Hdn in HA. rewrite Hdk in HB.
  change (2 ^ (53 - 1)) with (2 ^ 52) in HA, HB.
  pose proof (Z_div_mod (Z.pos mn * 2 ^ 53) (Z.pos mk) ltac:(lia)) as Hdiv.
  destruct (Z.div_eucl (Z.pos mn * 2 ^ 53) (Z.pos mk)) as [q r].
  destruct Hdiv as [Hqr Hr]. cbn [xorb].
  set (A := Z.pos mn) in *. set (B := Z.pos mk) in *.
  assert (Hq : 2 ^ 52 <= q < 2 ^ 54) by (split; nia).
  set (e' := dn - dk - 53).
  (* the scaled bound, before dividing by the common power of two *)
  assert (Hp1 : 0 < 2 ^ (53 - dn)) by (apply Z.pow_pos_nonneg; lia).
  assert (Hp2 : 0 < 2 ^ (dn - dk)) by (apply Z.pow_pos_nonneg; lia).
  assert (HB2 : B = k * 2 ^ (dn - dk) * 2 ^ (53 - dn)).
  { rewrite Hmk, <- Z.mul_assoc, <- Z.pow_add_r by lia.
    do 2 f_equal. lia. }
  rewrite binary_round_aux_finish.
  destruct (Z.ltb_spec q (2 ^ 53)) as [Hlt|Hge].
  - (* no shift *)
    assert (Hdq : digits q = 53) by (apply digits_unique; lia).
    rewrite shr_fexp_53 by (unfold e'; lia).
    cbn [fst snd]. rewrite shr_m_record_of_loc, loc_of_shr_record_of_loc.
    pose proof (round_new_location q B r ltac:(lia) Hr) as Hm1. cbn zeta in Hm1.
    set (m1 := round_nearest_even q (new_location B r)) in *.
    destruct (finish_spec m1 e') as (ms & es & Hf & Hes & Hv & Hms);
      [lia | unfold e'; lia |].
    exists ms, es. rewrite Hf. repeat split; try (unfold e' in *; lia).
    replace (es + 53) with (es - e' + (dn - dk)) by (unfold e'; lia).
    rewrite Z.pow_add_r, Z.mul_assoc, Hv by (unfold e' in *; lia).
    apply (Z.mul_le_mono_pos_r _ _ (2 ^ (53 - dn)) Hp1).
    replace (m1 * 2 ^ (dn - dk) * k * 2 ^ (53 - dn)) with (m1 * B)
      by (rewrite HB2; ring).
    replace (n * (2 ^ 53 + 1) * 2 ^ (53 - dn)) with (A * 2 ^ 53 + A)
      by (rewrite Hmn; ring).
    destruct Hm1 as [->|[-> Hup]]; nia.
  - (* one shift *)
    assert (Hdq : digits q = 54) by (apply digits_unique; lia).
    rewrite shr_fexp_54 by (unfold e'; lia).
    cbn [fst snd].
    assert (Hrec : exists r0 s0, shr_record_of_loc q (new_location B r)
                                 = {| shr_m := q; shr_r := r0; shr_s := s0 |}).
    { destruct (new_location B r) as [|[]]; cbn; eauto. }
    destruct Hrec as (r0 & s0 & ->).
    rewrite shr_1_nonneg by lia. cbn [shr_m].
    pose proof (round_after_shift (q / 2) (Z.odd q) (r0 || s0)) as Hm1.
    cbn zeta in Hm1.
    set (m1 := round_nearest_even (q / 2) _) in *.
    assert (Hq2 : 2 ^ 52 <= q / 2 < 2 ^ 53).
    { split; [apply Z.div_le_lower_bound | apply Z.div_lt_upper_bound]; lia. }
    assert (H2m1 : 2 * m1 <= q + 1).
    { pose proof (Z.div_mod q 2 ltac:(lia)) as Hq2d.
      pose proof (Zmod_odd q) as Hodd.
      destruct Hm1 as [->|[-> Hup]].
      - pose proof (Z.mod_pos_bound q 2 ltac:(lia)). lia.
      - rewrite Hup in Hodd. lia. }
    destruct (finish_spec m1 (e' + 1)) as (ms & es & Hf & Hes & Hv & Hms);
      [destruct Hm1 as [->|[-> _]]; lia | unfold e'; lia |].
    exists ms, es. rewrite Hf. repeat split; try (unfold e' in *; lia).
    replace (es + 53) with (es - (e' + 1) + (1 + (dn - dk))) by (unfold e'; lia).
    rewrite Z.pow_add_r, Z.mul_assoc, Hv by (unfold e' in *; lia).
    rewrite (Z.pow_add_r 2 1 (dn - dk)) by lia. change (2 ^ 1) with 2.
    apply (Z.mul_le_mono_pos_r _ _ (2 ^ (53 - dn)) Hp1).
    replace (m1 * (2 * 2 ^ (dn - dk)) * k * 2 ^ (53 - dn)) with (2 * m1 * B)
      by (rewrite HB2; ring).
    replace (n * (2 ^ 53 + 1) * 2 ^ (53 - dn)) with (A * 2 ^ 53 + A)
      by (rewrite Hmn; ring).
    assert (B <= A) by nia. nia.
Qed.


(** ** The cut points of [linspace] (C6) *)

Lemma float_floor_scaled m e K :
  0 <= K -> - K <= e ->
  float_floor (S754_finite false m e) = (Z.pos m * 2 ^ (e + K)) / 2 ^ K.
Proof.
  intros HK He. unfold float_floor. cbn [cond_Zopp].
  assert (HpK : 0 < 2 ^ K) by (apply Z.pow_pos_nonneg; lia).
  destruct (Z.leb_spec 0 e) as [Hpos|Hneg].
  - rewrite Z.pow_add_r, Z.mul_assoc by lia. now rewrite Z.div_mul by lia.
  - replace (2 ^ K) with (2 ^ (- e) * 2 ^ (e + K))
      by (rewrite <- Z.pow_add_r by lia; f_equal; lia).
    assert (0 < 2 ^ (e + K)) by (apply Z.pow_pos_nonneg; lia).
    assert (0 < 2 ^ (- e)) by (apply Z.pow_pos_nonneg; lia).
    now rewrite Z.div_mul_cancel_r by lia.
Qed.

Lemma float_floor_of_Z n : 0 < n < 2 ^ 53 -> float_floor (float_of_Z n) = n.
Proof.
  intros Hn. destruct (float_of_Z_canonical n Hn) as (m & -> & Hm & _).
  pose proof (digits_le_53 n Hn). pose proof (digits_pos n ltac:(lia)).
  rewrite (float_floor_scaled m _ 52) by lia. rewrite Hm.
  rewrite <- Z.mul_assoc, <- Z.pow_add_r by lia.
  replace (53 - digits n + (digits n - 53 + 52)) with 52 by lia.
  apply Z.div_mul. lia.
Qed.

Lemma cut_point_zero ms es : cut_point (S754_finite false ms es) 0 = 0.
Proof. reflexivity. Qed.

Lemma cut_point_value ms es l :
  -53 <= es <= 1 -> Z.pos ms < 2 ^ 53 -> 0 < l < 2 ^ 53 ->
  cut_point (S754_finite false ms es) l
  = rnd53 (l * 2 ^ 52 * (Z.pos ms * 2 ^ (es + 53))) / 2 ^ 105.
Proof.
  intros Hes Hms Hl. unfold cut_point.
  destruct (float_of_Z_canonical l Hl) as (ml & -> & Hml & Hdl).
  pose proof (digits_le_53 l Hl) as Hd53.
  pose proof (digits_pos l ltac:(lia)) as Hd1.
  set (el := digits l - 53) in *.
  unfold fmul, SFmul. cbn [xorb].
  pose proof (digits_bounds (Z.pos ml) ltac:(lia)) as Hbl. rewrite Hdl in Hbl.
  assert (HM : 0 < Z.pos (ml * ms) < 2 ^ 106).
  { rewrite Pos2Z.inj_mul. change (2 ^ 106) with (2 ^ 53 * 2 ^ 53). nia. }
  assert (HdM : 1 <= digits (Z.pos (ml * ms)) <= 106).
  { split; [apply digits_pos; lia|].
    pose proof (digits_bounds (Z.pos (ml * ms)) ltac:(lia)) as Hb.
    destruct (Z.leb_spec (digits (Z.pos (ml * ms))) 106); [assumption|exfalso].
    assert (2 ^ 106 <= 2 ^ (digits (Z.pos (ml * ms)) - 1))
      by (apply Z.pow_le_mono_r; lia).
    lia. }
  destruct (binary_round_aux_exact (ml * ms) (el + es))
    as (m' & e' & -> & He' & Hv); [unfold el; lia | unfold el; lia | unfold el; lia |].
  cbn [fadd SFadd fzero].
  change (SFadd prec emax (S754_finite false m' e') (S754_zero false))
    with (S754_finite false m' e').
  rewrite (float_floor_scaled m' e' 105) by (unfold el in *; lia).
  f_equal.
  replace (e' + 105) with (e' - (el + es) + (el + es + 105)) by lia.
  rewrite Z.pow_add_r, Z.mul_assoc, Hv by (unfold el in *; lia).
  rewrite <- rnd53_scale by (unfold el in *; lia). f_equal.
  rewrite Pos2Z.inj_mul, Hml.
  replace (el + es + 105) with (el + 52 + (es + 53)) by lia.
  rewrite (Z.pow_add_r 2 (el + 52)) by (unfold el; lia).
  replace (2 ^ 52) with (2 ^ (53 - digits l) * 2 ^ (el + 52))
    by (rewrite <- Z.pow_add_r by (unfold el; lia); f_equal; unfold el; lia).
  ring.
Qed.

Lemma rnd53_nonneg X : 0 < X -> 0 < rnd53 X.
Proof.
  intros HX. pose proof (rnd53_lower X HX).
  pose proof (digits_pos X HX).
  assert (0 < 2 ^ (digits X - 1)) by (apply Z.pow_pos_nonneg; lia). lia.
Qed.

(** The cut points before the last one: they start at 0, never decrease
    and never exceed the number of lines. *)
Lemma cut_points_monotone n k :
  1 <= k <= n -> n < 2 ^ 53 ->
  let step := fdiv (float_of_Z n) (float_of_Z k) in
  feqb step fzero = false
  /\ cut_point step 0 = 0
  /\ (forall i j, 0 <= i <= j -> j <= k - 1 ->
                  0 <= cut_point step i <= cut_point step j)
  /\ (forall i, 0 <= i <= k - 1 -> cut_point step i <= n).
Proof.
  intros Hk Hn step.
  destruct (fdiv_of_Z n k Hk Hn) as (ms & es & Hstep & Hes & Hms & Hbound).
  unfold step. rewrite Hstep. clear step Hstep.
  set (S := Z.pos ms * 2 ^ (es + 53)) in *.
  assert (HS : 0 < S).
  { unfold S. assert (0 < 2 ^ (es + 53)) by (apply Z.pow_pos_nonneg; lia). lia. }
  assert (Hlast : (k - 1) * S <= n * 2 ^ 53) by nia.
  assert (Hval : forall l, 1 <= l <= k - 1 ->
            cut_point (S754_finite false ms es) l
            = rnd53 (l * 2 ^ 52 * S) / 2 ^ 105).
  { intros l Hl. apply cut_point_value; lia. }
  assert (Hnn : forall l, 0 <= l <= k - 1 ->
            0 <= cut_point (S754_finite false ms es) l).
  { intros l Hl. destruct (Z.eq_dec l 0) as [->|Hl0].
    - rewrite cut_point_zero. lia.
    - rewrite Hval by lia. apply Z.div_pos; [|lia].
      pose proof (rnd53_nonneg (l * 2 ^ 52 * S) ltac:(nia)). lia. }
  split; [reflexivity|]. split; [reflexivity|]. split.
  - intros i j Hij Hj. split; [apply Hnn; lia|].
    destruct (Z.eq_dec i 0) as [->|Hi0].
    + rewrite cut_point_zero. apply Hnn. lia.
    + rewrite !Hval by lia. apply Z.div_le_mono; [lia|].
      apply rnd53_mono. nia.
  - intros i Hi. destruct (Z.eq_dec i 0) as [->|Hi0].
    + rewrite cut_point_zero. lia.
    + rewrite Hval by lia.
      apply Z.div_le_upper_bound; [lia|].
      rewrite (Z.mul_comm (2 ^ 105) n), <- (rnd53_exact n 105) by lia.
      apply rnd53_mono. change (2 ^ 105) with (2 ^ 53 * 2 ^ 52). nia.
Qed.

Lemma insert_last {A} (l : list A) (x y : A) :
  <[length l := y]> (l ++ [x]) = l ++ [y].
Proof.
  induction l as [|a l IH]; [reflexivity|].
  change (a :: <[length l := y]> (l ++ [x]) = a :: (l ++ [y])).
  now rewrite IH.
Qed.

(** [np.linspace(0, n, num=k + 1, dtype=int)] for [1 <= k <= n]: the cut
    points of index [0 .. k - 1], then [n]. *)
Lemma linspace_cut_points n k :
  1 <= k <= n -> n < 2 ^ 53 ->
  linspace n (k + 1)
  = Ok (map (cut_point (fdiv (float_of_Z n) (float_of_Z k))) (seqZ 0 k)
          ++ [n]).
Proof.
  intros Hk Hn. unfold linspace.
  destruct (Z.ltb_spec (k + 1) 0); [lia|].
  replace (k + 1 - 1) with k by lia.
  destruct (Z.ltb_spec 0 k); [|lia].
  destruct (cut_points_monotone n k Hk Hn) as (-> & _).
  destruct (Z.ltb_spec 1 (k + 1)); [|lia].
  rewrite seqZ_app by lia.
  replace (seqZ (0 + k) 1) with [k] by (unfold seqZ; cbn; f_equal; lia).
  rewrite !map_app. cbn [map].
  set (L := map (fun v => fadd v fzero) _).
  replace (Z.to_nat k) with (length L)
    by (unfold L; rewrite !length_map, length_seqZ; reflexivity).
  rewrite insert_last, map_app. cbn [map].
  rewrite float_floor_of_Z by lia. f_equal. f_equal.
  unfold L. rewrite !map_map. reflexivity.
Qed.

Lemma chunks_length sections :
  length (chunks sections) = (length sections - 1)%nat.
Proof.
  unfold chunks. rewrite length_zip_with, !length_map.
  destruct sections; cbn [tail length]; lia.
Qed.

Lemma chunks_contiguous sections i c c' :
  chunks sections !! i = Some c -> chunks sections !! S i = Some c' ->
  snd c = fst c'.
Proof.
  unfold chunks. revert i. induction sections as [|x rest IH]; intros i.
  - discriminate.
  - destruct rest as [|y rest']; [discriminate|].
    destruct i as [|i].
    + cbn. intros [= <-]. destruct rest'; [discriminate|].
      cbn. intros [= <-]. reflexivity.
    + intros H1 H2. apply (IH i); assumption.
Qed.

(** Cut points [f a <= f (a + 1) <= ...] taken as chunk boundaries: the
    chunks, concatenated in order, enumerate every row from the first cut
    point to the last exactly once. *)
Lemma chunks_cover (f : Z -> Z) : forall (len : nat) (a : Z),
  (forall i, a <= i < a + Z.of_nat len -> f i <= f (i + 1)) ->
  0 <= f a ->
  concat (map chunk_rows (chunks (map f (seqZ a (Z.of_nat (S len))))))
  = seq (Z.to_nat (f a))
      (Z.to_nat (f (a + Z.of_nat len)) - Z.to_nat (f a))
  /\ f a <= f (a + Z.of_nat len).
Proof.
  induction len as [|len IH]; intros a Hmono Ha.
  - change (seqZ a (Z.of_nat 1)) with (seqZ a 1).
    replace (seqZ a 1) with [a] by (unfold seqZ; cbn; f_equal; lia).
    rewrite Z.add_0_r, Nat.sub_diag. split; [reflexivity | lia].
  - rewrite (seqZ_cons a) by lia.
    replace (Z.pred (Z.of_nat (S (S len)))) with (Z.of_nat (S len)) by lia.
    destruct (IH (Z.succ a)) as [IHc IHle].
    { intros i Hi. apply Hmono. lia. }
    { specialize (Hmono a ltac:(lia)).
      replace (a + 1) with (Z.succ a) in Hmono by lia. lia. }
    assert (Hstep : f a <= f (Z.succ a)).
    { specialize (Hmono a ltac:(lia)).
      now replace (a + 1) with (Z.succ a) in Hmono by lia. }
    replace (Z.succ a + Z.of_nat len) with (a + Z.of_nat (S len)) in * by lia.
    split; [|lia].
    assert (Hhead : exists T, map f (seqZ (Z.succ a) (Z.of_nat (S len)))
                              = f (Z.succ a) :: T).
    { rewrite (seqZ_cons (Z.succ a)) by lia. cbn [map]. eauto. }
    destruct Hhead as (T & HT). cbn [map]. rewrite HT in IHc |- *.
    change (chunks (f a :: f (Z.succ a) :: T))
      with ((Z.to_nat (f a), Z.to_nat (f (Z.succ a)))
              :: chunks (f (Z.succ a) :: T)).
    cbn [map concat]. rewrite IHc. unfold chunk_rows. cbn [fst snd].
    assert (Huv : (Z.to_nat (f a) <= Z.to_nat (f (Z.succ a)))%nat) by lia.
    assert (Hvw : (Z.to_nat (f (Z.succ a))
                   <= Z.to_nat (f (a + Z.of_nat (S len))%Z))%nat) by lia.
    set (u := Z.to_nat (f a)) in *.
    set (v := Z.to_nat (f (Z.succ a))) in *.
    set (w := Z.to_nat (f (a + Z.of_nat (S len)))) in *.
    replace (w - u)%nat with ((v - u) + (w - v))%nat by lia.
    rewrite seq_app. f_equal. f_equal. lia.
Qed.

Lemma sections_partition n k :
  1 <= k <= n -> n < 2 ^ 53 ->
  exists sections,
    line_sections n k = Ok sections
    /\ length (chunks sections) = Z.to_nat k
    /\ (forall i c c',
           chunks sections !! i = Some c ->
           chunks sections !! S i = Some c' -> snd c = fst c')
    /\ concat (map chunk_rows (chunks sections)) = seq 0 (Z.to_nat n).
Proof.
  intros Hk Hn. unfold line_sections.
  rewrite linspace_cut_points by assumption.
  destruct (cut_points_monotone n k Hk Hn) as (_ & H0 & Hmono & Hle).
  cbn zeta in H0, Hmono, Hle.
  set (cut := cut_point (fdiv (float_of_Z n) (float_of_Z k))) in *.
  eexists. split; [reflexivity|]. split; [|split].
  - rewrite chunks_length, length_app, length_map, length_seqZ.
    cbn [length]. lia.
  - apply chunks_contiguous.
  - set (f := fun l => if l <? k then cut l else n).
    assert (Hsec : map cut (seqZ 0 k) ++ [n]
                   = map f (seqZ 0 (Z.of_nat (S (Z.to_nat k))))).
    { replace (Z.of_nat (S (Z.to_nat k))) with (k + 1) by lia.
      rewrite seqZ_app by lia.
      replace (seqZ (0 + k) 1) with [k] by (unfold seqZ; cbn; f_equal; lia).
      rewrite map_app. cbn [map]. f_equal.
      - apply map_ext_in. intros l Hl. apply list_elem_of_In, elem_of_seqZ in Hl.
        unfold f. destruct (Z.ltb_spec l k); [reflexivity|lia].
      - unfold f. rewrite Z.ltb_irrefl. reflexivity. }
    rewrite Hsec.
    destruct (chunks_cover f (Z.to_nat k) 0) as [Hc _].
    + intros i Hi. unfold f.
      destruct (Z.ltb_spec i k), (Z.ltb_spec (i + 1) k); try lia.
      * apply Hmono; lia.
      * apply Hle. lia.
    + unfold f. destruct (Z.ltb_spec 0 k); [|lia]. rewrite H0. lia.
    + rewrite Hc. unfold f. destruct (Z.ltb_spec 0 k); [|lia].
      rewrite H0.
      destruct (Z.ltb_spec (0 + Z.of_nat (Z.to_nat k)) k); [lia|].
      cbn [Z.to_nat]. f_equal. lia.
Qed.

(** The dispatch loop runs the worker of every range once, in the order
    of the ranges: the state it ends in is that of the workers run one
    after the other, and it returns exactly when each worker, started
    where the previous ones left the raster, returns. *)
Lemma run_chunks_dispatch tree_query inv inp nneighbors nodata_value cs :
  forall st,
    let worker := fun c : nat * nat =>
      _run_chunk tree_query inv inp nneighbors nodata_value (fst c) (snd c) in
    fst (run_chunks tree_query inv inp nneighbors nodata_value cs st)
    = fold_left (fun s c => fst (worker c s)) cs st
    /\ (snd (run_chunks tree_query inv inp nneighbors nodata_value cs st)
        = Ok tt
        <-> forall i c,
              cs !! i = Some c ->
              snd (worker c (fold_left (fun s c' => fst (worker c' s))
                               (take i cs) st)) = Ok tt).
Proof.
  induction cs as [|c rest IH]; intros st; cbv zeta.
  - split; [reflexivity|]. split; [|reflexivity].
    intros _ i c Hc. discriminate.
  - cbn [run_chunks].
    destruct (_run_chunk tree_query inv inp nneighbors nodata_value
                (fst c) (snd c) st) as [st1 r1] eqn:Hw.
    specialize (IH st1). cbv zeta in IH.
    destruct (run_chunks tree_query inv inp nneighbors nodata_value rest st1)
      as [st2 r2] eqn:Hr.
    cbn [fst snd fold_left] in *. rewrite Hw. cbn [fst].
    destruct IH as [IH1 IH2]. split; [exact IH1|]. split.
    + intros Hok i c' Hc'. destruct r1 as [[]|e]; [|discriminate].
      destruct i as [|i].
      * injection Hc' as <-. cbn [take fold_left]. now rewrite Hw.
      * change ((c :: rest) !! S i) with (rest !! i) in Hc'.
        cbn [take fold_left]. rewrite Hw. cbn [fst].
        apply (proj1 IH2 Hok i c' Hc').
    + intros Hall.
      pose proof (Hall 0%nat c eq_refl) as H0. cbn [take fold_left] in H0.
      rewrite Hw in H0. cbn [snd] in H0. subst r1.
      apply (proj2 IH2). intros i c' Hc'.
      specialize (Hall (S i) c' Hc'). cbn [take fold_left] in Hall.
      rewrite Hw in Hall. exact Hall.
Qed.

(** C6. For every worker count [n_cores] in [1, n_input_lines] (line
    counts below [2^53], which float64 represents exactly), the cut points
    of line 255 give exactly [n_cores] row ranges; each range starts where
    the previous one stops; and the rows of the ranges, taken in order,
    are exactly [0, 1, ..., n_input_lines - 1]: the ranges cover
    [0, n_input_lines) with no gap and no overlap. These are the ranges of
    a run with the default core count on a cluster whose CPU count, capped
    by the line count, is [n_cores]. The dispatch loop of lines 260-268
    runs one worker per range: the state after it is that of the workers
    of the ranges run once each, in order, and it returns exactly when
    every one of them returns; the run itself is this dispatch followed by
    the smoothing pass. *)
Theorem line_sections_partition :
  forall n_input_lines n_cores,
    1 <= n_cores <= n_input_lines -> n_input_lines < 2 ^ 53 ->
    exists sections,
      line_sections n_input_lines n_cores = Ok sections
      /\ length (chunks sections) = Z.to_nat n_cores
      /\ (forall i c c',
             chunks sections !! i = Some c ->
             chunks sections !! S i = Some c' -> snd c = fst c')
      /\ concat (map chunk_rows (chunks sections))
         = seq 0 (Z.to_nat n_input_lines)
      /\ (forall n_ray_cores inp,
             Z.of_nat (length (input_locations inp)) = n_input_lines ->
             Z.min n_ray_cores n_input_lines = n_cores ->
             plan n_ray_cores inp (-1) = Ok (n_cores, sections))
      /\ (forall tree_query inv inp nneighbors nodata_value st,
             let worker := fun c : nat * nat =>
               _run_chunk tree_query inv inp nneighbors nodata_value
                 (fst c) (snd c) in
             let dispatch :=
               run_chunks tree_query inv inp nneighbors nodata_value
                 (chunks sections) in
             fst (dispatch st)
             = fold_left (fun s c => fst (worker c s)) (chunks sections) st
             /\ (snd (dispatch st) = Ok tt
                 <-> forall i c,
                       chunks sections !! i = Some c ->
                       snd (worker c
                              (fold_left (fun s c' => fst (worker c' s))
                                 (take i (chunks sections)) st)) = Ok tt))
      /\ (forall tree_query inv gaussian_filter n_ray_cores inp nneighbors
                 nodata_value sigma st,
             Z.of_nat (length (input_locations inp)) = n_input_lines ->
             Z.min n_ray_cores n_input_lines = n_cores ->
             atm_interpolation tree_query inv gaussian_filter n_ray_cores inp
               nneighbors nodata_value (-1) sigma st
             = (_ ← run_chunks tree_query inv inp nneighbors nodata_value
                      (chunks sections);
                smoother gaussian_filter inp sigma) st).
Proof.
  intros n k Hk Hn.
  destruct (sections_partition n k Hk Hn) as (sections & H1 & H2 & H3 & H4).
  assert (Hplan : forall n_ray inp,
             Z.of_nat (length (input_locations inp)) = n ->
             Z.min n_ray n = k ->
             plan n_ray inp (-1) = Ok (k, sections)).
  { intros n_ray inp Hlines Hmin. unfold plan, init_ray_args, n_input_lines.
    cbn [negb Z.eqb]. wunfold. rewrite Hlines, Hmin, H1. reflexivity. }
  exists sections.
  split; [exact H1|]. split; [exact H2|]. split; [exact H3|].
  split; [exact H4|]. split; [exact Hplan|]. split.
  - intros tq inv inp nn nd st. apply run_chunks_dispatch.
  - intros tq inv gf n_ray inp nn nd sigma st Hlines Hmin.
    unfold atm_interpolation. rewrite wbind_eq. unfold lift at 1.
    rewrite (Hplan n_ray inp Hlines Hmin). cbn [snd].
    rewrite !wbind_eq.
    destruct (run_chunks tq inv inp nn nd (chunks sections) st)
      as [st1 [[]|e]]; [|reflexivity].
    rewrite wbind_eq. unfold lift.
    destruct sections as [|z zs]; [|reflexivity].
    exfalso. cbn in H2. lia.
Qed.

Lemma line_sections_partition_witness :
  exists sections,
    line_sections 30 22 = Ok sections
    /\ length (chunks sections) = 22%nat
    /\ concat (map chunk_rows (chunks sections)) = seq 0 30
    /\ fst (run_chunks exhaustive_query cofactor_inv
              (scenario (Some two_labels)) 5 default_nodata
              (chunks sections) initial_state)
       = fold_left
           (fun s c => fst (_run_chunk exhaustive_query cofactor_inv
                              (scenario (Some two_labels)) 5 default_nodata
                              (fst c) (snd c) s))
           (chunks sections) initial_state.
Proof.
  destruct (line_sections_partition 30 22 ltac:(lia) ltac:(lia))
    as (sections & H1 & H2 & _ & H4 & _ & H6 & _).
  exists sections. split; [exact H1|]. split; [exact H2|].
  split; [exact H4|].
  exact (proj1 (H6 exhaustive_query cofactor_inv (scenario (Some two_labels))
                  5 default_nodata initial_state)).
Defined.

(** ** Concrete runs *)

(** The scenario of the specification with a segmentation grid of two
    labels, smoothing disabled, on a cluster of eight CPUs: four workers
    of one line each; the run returns and the raster is 4x4x2 without a
    nodata value. *)
Example scenario_with_segmentation_completes :
  let inp := scenario (Some two_labels) in
  let res := atm_interpolation exhaustive_query cofactor_inv
               (kernel_filter [fone]) 8 inp 5 default_nodata (-1) fzero
               initial_state in
  plan 8 inp (-1) = Ok (4, [0; 1; 2; 3; 4])
  /\ snd res = Ok tt
  /\ map (map length) (read_raster inp (fst res))
     = replicate 4 (replicate 4 2%nat)
  /\ forallb (forallb (forallb (fun v => negb (feqb v default_nodata))))
       (read_raster inp (fst res)) = true.
Proof. vm_compute. repeat split. Qed.

(** One worker on the whole scenario: sixteen pixels are evaluated, with
    one index query and one fit for each of the two labels. *)
Example scenario_fits_once_per_label :
  let evs := trace (fst (_run_chunk exhaustive_query cofactor_inv
                           (scenario (Some two_labels)) 5 default_nodata
                           0 4 initial_state)) in
  fit_count 7 evs = 1%nat
  /\ fit_count 8 evs = 1%nat
  /\ length (List.filter is_query_or_fit evs) = 4%nat
  /\ length evs = 22%nat.
Proof. vm_compute. repeat split. Qed.

(** The cut points are those of float64 arithmetic, not of exact
    division: for 30 lines and 22 workers the cut point of index 11 is
    [floor (11 * fl (30 / 22)) = 14], where [11 * 30 / 22 = 15]. *)
Example line_sections_30_22 :
  line_sections 30 22
  = Ok [0; 1; 2; 4; 5; 6; 8; 9; 10; 12; 13; 14; 16; 17; 19; 20; 21; 23; 24;
        25; 27; 28; 30].
Proof. vm_compute. reflexivity. Qed.

(** ** Further properties of the code *)

Lemma filter_seq_nth {A} (P : A -> bool) (d : A) (l : list A) :
  forall pre,
    map (fun i => nth i (pre ++ l) d)
      (List.filter (fun i => P (nth i (pre ++ l) d))
         (seq (length pre) (length l)))
    = List.filter P l.
Proof.
  induction l as [|a l IH]; intros pre; [reflexivity|].
  cbn [length seq List.filter].
  rewrite nth_middle.
  specialize (IH (pre ++ [a])).
  rewrite <- app_assoc in IH. cbn [app] in IH.
  rewrite length_app in IH. cbn [length] in IH.
  rewrite Nat.add_1_r in IH.
  destruct (P a); cbn [map]; [rewrite nth_middle; f_equal|]; exact IH.
Qed.

(** X1. The bands of the output header are the bands the workers write.
    The band names that [atm_interpolation] puts into the header (line
    227) are the names at the indices [atm_bands] that [_run_chunk]
    selects (line 90), in the same order; the header's band count (line
    230) is the worker's [n_atm_bands]; and an index is selected exactly
    when it names a band whose first four characters are not [RFL_]. *)
Theorem header_bands_are_worker_bands :
  forall inp,
    let names := band_names inp in
    hdr_band_names (output_metadata inp)
    = map (fun i => nth i names EmptyString) (atm_bands names)
    /\ hdr_bands (output_metadata inp) = n_atm_bands inp
    /\ (forall i, i ∈ atm_bands names <->
                  exists name, names !! i = Some name
                               /\ String.substring 0 4 name <> "RFL_"%string).
Proof.
  intros inp names. cbn [output_metadata hdr_band_names hdr_bands].
  assert (H : output_band_names names
              = map (fun i => nth i names EmptyString) (atm_bands names)).
  { unfold output_band_names, atm_bands.
    symmetry. exact (filter_seq_nth is_atm_band EmptyString names []). }
  split; [exact H|]. split.
  - fold names. rewrite H. unfold n_atm_bands. fold names. apply length_map.
  - intros i. unfold atm_bands.
    rewrite list_elem_of_In, filter_In, in_seq.
    unfold is_atm_band. rewrite negb_true_iff, String.eqb_neq. split.
    + intros [Hi Hn]. destruct (lookup_lt_is_Some_2 names i ltac:(lia))
        as [name Hname].
      exists name. split; [exact Hname|].
      now rewrite (nth_lookup_Some _ _ _ _ Hname) in Hn.
    + intros (name & Hname & Hn). split.
      * apply lookup_lt_Some in Hname. lia.
      * now rewrite (nth_lookup_Some _ _ _ _ Hname).
Qed.

(** *** Validity weights *)

Lemma fone_eq : fone = S754_finite false 4503599627370496 (-52).
Proof. vm_compute. reflexivity. Qed.

Lemma validity_weight_eq v :
  (if feqb v (float_of_Z (-9999)) then fzero else fadd (fmul fzero v) fone)
  = validity_weight v.
Proof.
  unfold validity_weight. destruct (feqb v (float_of_Z (-9999))); [reflexivity|].
  rewrite fone_eq. destruct v as [s|s| |s m e]; reflexivity.
Qed.

(** X11. The weight [0 * v + 1] of lines 285-286, value by value: it is
    [0.0] where the band holds the literal [-9999], [1.0] at every other
    finite value, and NaN at a NaN or an infinite value (such a value is
    not a hole for the smoother, and its weight is not a number). *)
Theorem validity_mask_weights :
  forall V, validity_mask V = map (map validity_weight) V.
Proof.
  intros V. rewrite validity_mask_pointwise.
  apply map_ext. intros row. apply map_ext. intros v.
  apply validity_weight_eq.
Qed.

(** *** The nodata test *)

Lemma shr_nonneg mrs e n :
  0 <= shr_m mrs -> 0 <= shr_m (fst (shr mrs e n)).
Proof.
  intros Hm. unfold shr. destruct n as [|p|p]; [exact Hm| |exact Hm].
  cbn [fst]. rewrite iter_pos_nat.
  induction (Pos.to_nat p) as [|k IH]; [exact Hm|].
  rewrite Nat.iter_succ. destruct (Nat.iter k shr_1 mrs) as [m r s0].
  cbn [shr_m] in IH. rewrite shr_1_nonneg by exact IH. cbn [shr_m].
  apply Z.div_pos; lia.
Qed.

Lemma shr_fexp_nonneg m e l :
  0 <= m -> 0 <= shr_m (fst (shr_fexp prec emax m e l)).
Proof.
  intros Hm. unfold shr_fexp. apply shr_nonneg.
  now rewrite shr_m_record_of_loc.
Qed.

Lemma round_nearest_even_nonneg m l :
  0 <= m -> 0 <= round_nearest_even m l.
Proof.
  intros Hm. unfold round_nearest_even.
  destruct l as [|[]]; try destruct (Z.even m); lia.
Qed.

Lemma binary_round_aux_sign sx m e l :
  0 <= m -> has_sign sx (binary_round_aux prec emax sx m e l).
Proof.
  intros Hm. rewrite binary_round_aux_finish. unfold finish.
  set (m1 := round_nearest_even _ _).
  assert (H1 : 0 <= m1)
    by (apply round_nearest_even_nonneg, shr_fexp_nonneg, Hm).
  pose proof (shr_fexp_nonneg m1 (snd (shr_fexp prec emax m e l)) loc_Exact H1)
    as H2.
  destruct (shr_fexp prec emax m1 _ loc_Exact) as [mrs e']. cbn [fst] in H2.
  destruct (shr_m mrs) as [|p|p]; [reflexivity| |lia].
  destruct (e' <=? emax - prec); reflexivity.
Qed.

Lemma binary_round_sign sx m e : has_sign sx (binary_round prec emax sx m e).
Proof.
  unfold binary_round. destruct (shl_align m e _) as [mz ez].
  now apply binary_round_aux_sign.
Qed.

Lemma rtol_eq : exists m e, rtol = S754_finite false m e.
Proof. do 2 eexists. vm_compute. reflexivity. Qed.

Lemma atol_eq : exists m e, atol = S754_finite false m e.
Proof. do 2 eexists. vm_compute. reflexivity. Qed.

(** The tolerance [atol + rtol * abs b] is never negative. *)
Lemma tolerance_sign b :
  isfinite b = true -> has_sign false (fadd atol (fmul rtol (fabs b))).
Proof.
  intros Hb. destruct rtol_eq as (mr & er & ->).
  destruct atol_eq as (ma & ea & ->).
  destruct b as [s|s| |s m e]; try discriminate.
  - reflexivity.
  - cbn [fabs SFabs]. unfold fmul, SFmul. cbn [xorb].
    pose proof (binary_round_aux_sign false (Z.pos (mr * m)) (er + e)
                  loc_Exact ltac:(lia)) as Hp.
    destruct (binary_round_aux prec emax false (Z.pos (mr * m)) (er + e)
                loc_Exact) as [s'|s'| |s' mp ep]; cbn in Hp; subst;
      try contradiction; try reflexivity.
    unfold fadd, SFadd. cbn [cond_Zopp Z.add]. unfold binary_normalize.
    apply binary_round_sign.
Qed.

Lemma fsub_diag x : isfinite x = true -> fsub x x = fzero.
Proof.
  destruct x as [s|s| |s m e]; try discriminate; intros _.
  - destruct s; reflexivity.
  - unfold fsub, SFsub. rewrite Z.sub_diag. reflexivity.
Qed.

Lemma isclose_refl x : x <> fnan -> isclose x x = true.
Proof.
  intros Hx. unfold isclose. destruct (isfinite x) eqn:Hfin; cbn [andb].
  - rewrite fsub_diag by exact Hfin.
    pose proof (tolerance_sign x Hfin) as Hs.
    destruct (fadd atol (fmul rtol (fabs x))) as [s|s| |s m e]; cbn in Hs;
      subst; try contradiction; reflexivity.
  - destruct x as [s|[]| |s m e]; try discriminate; try reflexivity.
    now contradiction Hx.
Qed.

Lemma isclose_nan_r a : isclose a fnan = false.
Proof.
  unfold isclose. cbn [isfinite fnan]. rewrite andb_false_r.
  destruct a; reflexivity.
Qed.

(** X2. The nodata test of line 127 on exact sentinels. A pixel whose three
    coordinates are the nodata value itself is always recognised as nodata,
    for every nodata value that is not a NaN (finite of any magnitude, or
    infinite): the tolerance [atol + rtol * abs nodata] is never negative
    and never a NaN. With a NaN as nodata value no pixel is ever nodata. *)
Theorem sentinel_pixel_is_nodata :
  (forall v, v <> fnan ->
             is_nodata v {| lat := v; lon := v; elev := v |} = true)
  /\ (forall x, is_nodata fnan x = false).
Proof.
  split.
  - intros v Hv. unfold is_nodata. cbn [lat lon elev].
    now rewrite isclose_refl.
  - intros x. unfold is_nodata. now rewrite isclose_nan_r.
Qed.

Lemma sentinel_pixel_is_nodata_witness :
  is_nodata default_nodata
    {| lat := default_nodata; lon := default_nodata; elev := default_nodata |}
  = true.
Proof.
  apply (proj1 sentinel_pixel_is_nodata default_nodata). discriminate.
Defined.

(** *** What a zero row predicts *)

(** X5. What a zero row of the model predicts (lines 155 and 163-164). For
    a band whose row of coefficients is zero (the row a failed solve
    leaves), the value written for a pixel is exactly [0.0] when the scaled
    latitude and longitude of the pixel are finite, and NaN otherwise: a
    degraded band is written as zero, not as the nodata value. *)
Theorem degraded_band_predicts_zero :
  forall bhat xs i,
    (i < nrows bhat)%nat ->
    cells bhat !! i = Some [fzero; fzero; fzero] ->
    predict bhat xs !! i
    = Some (if isfinite (lat xs) && isfinite (lon xs) then fzero else fnan).
Proof.
  intros bhat xs i Hi Hrow. unfold predict.
  rewrite list_lookup_fmap, lookup_seq_lt by exact Hi.
  cbn [fmap option_fmap option_map Nat.add seq map]. f_equal.
  unfold mget. rewrite (nth_lookup_Some _ _ _ _ Hrow). cbn [nth].
  rewrite fone_eq.
  destruct (lat xs) as [s|s| |s m e], (lon xs) as [s'|s'| |s' m' e'];
    try reflexivity;
    repeat match goal with b : bool |- _ => destruct b end; reflexivity.
Qed.

Lemma degraded_band_predicts_zero_witness :
  predict (zeros 2 3) (scale (loc_of_Z 0 1 105)) !! 1%nat = Some fzero.
Proof.
  apply (degraded_band_predicts_zero (zeros 2 3) (scale (loc_of_Z 0 1 105))
           1%nat).
  - vm_compute. lia.
  - reflexivity.
Defined.

(** X4. The shapes inside the [try] of line 153 always agree. With as many
    neighbour locations as neighbour states (what lines 140-141 produce),
    the mask, the design matrix, the weights and the target column of a
    band have matching dimensions: the normal-equations matrix exists and
    is 3x3, and if [inv] returns a 3x3 matrix then every product is
    defined and the row assignment succeeds. The [except] branch is
    therefore only ever reached through [inv]. *)
Theorem solve_raises_only_through_inv :
  forall inv xv yv i,
    length xv = length yv ->
    let use := valid_mask yv i in
    let X := design_matrix xv use in
    let Wm := identity (length (List.filter id use)) in
    let y := target_column yv use i in
    exists N,
      normal_equations X Wm = Ok N
      /\ shape N = (3%nat, 3%nat)
      /\ forall Ainv,
           inv N = Ok Ainv -> shape Ainv = (3%nat, 3%nat) ->
           exists row,
             solve inv X Wm y = Ok row
             /\ length row = 3%nat
             /\ fit_band inv xv yv i = row.
Proof.
  intros inv xv yv i Hlen use X Wm y.
  assert (Huse : length use = length yv)
    by (unfold use, valid_mask; apply length_map).
  assert (HX : nrows X = length (List.filter id use) /\ ncols X = 3%nat).
  { unfold X, design_matrix. cbn [nrows ncols]. split; [|reflexivity].
    rewrite length_map. apply select_length. congruence. }
  assert (Hy : nrows y = length (List.filter id use) /\ ncols y = 1%nat).
  { unfold y, target_column. cbn [nrows ncols]. split; [|reflexivity].
    rewrite length_map. now apply select_length. }
  assert (HW : nrows Wm = length (List.filter id use)
               /\ ncols Wm = length (List.filter id use)) by (split; reflexivity).
  destruct HX as [HXr HXc], Hy as [Hyr Hyc], HW as [HWr HWc].
  destruct (matmul_ok (transpose X) Wm) as (XtW & E1 & R1 & C1).
  { cbn [transpose mbuild ncols]. congruence. }
  destruct (matmul_ok XtW X) as (N & E2 & R2 & C2); [congruence|].
  exists N. split; [|split].
  - unfold normal_equations. wunfold. rewrite E1. exact E2.
  - unfold shape. rewrite R2, C2, R1, HXc. reflexivity.
  - intros Ainv Hinv Hshape. injection Hshape as HAr HAc.
    destruct (matmul_ok Ainv (transpose X)) as (P1 & E3 & R3 & C3).
    { cbn [transpose mbuild nrows]. congruence. }
    destruct (matmul_ok P1 Wm) as (P2 & E4 & R4 & C4).
    { rewrite C3. cbn [transpose mbuild ncols]. congruence. }
    destruct (matmul_ok P2 y) as (P3 & E5 & R5 & C5); [congruence|].
    assert (Hsolve : solve inv X Wm y
                     = Ok (map (mget (transpose P3) 0) (seq 0 3))).
    { unfold solve, normal_equations. wunfold. rewrite E1. cbv beta iota.
      rewrite E2. cbv beta iota. rewrite Hinv. cbv beta iota.
      rewrite E3. cbv beta iota. rewrite E4. cbv beta iota. rewrite E5.
      cbv beta iota. unfold row_of_value.
      cbn [transpose mbuild nrows ncols]. rewrite C5, Hyc.
      rewrite R5, R4, R3, HAr. reflexivity. }
    eexists. split; [exact Hsolve|]. split; [reflexivity|].
    unfold fit_band. fold use X Wm y. now rewrite Hsolve.
Qed.

Lemma solve_raises_only_through_inv_witness :
  let xv := map scale [loc_of_Z 0 0 100; loc_of_Z 0 3 110; loc_of_Z 1 1 120;
                       loc_of_Z 2 0 140] in
  let yv := [[float_of_Z 1]; [float_of_Z 2]; [default_nodata]; [float_of_Z 1]] in
  exists N,
    normal_equations (design_matrix xv (valid_mask yv 0))
      (identity (length (List.filter id (valid_mask yv 0)))) = Ok N
    /\ shape N = (3%nat, 3%nat).
Proof.
  intros xv yv.
  destruct (solve_raises_only_through_inv cofactor_inv xv yv 0%nat eq_refl)
    as (N & HN & Hshape & _).
  exists N. split; assumption.
Defined.

(** *** Failures outside the [try] *)

Lemma rmap_raise {A B} (f : A -> result B) (l : list A) (e : exn) :
  (forall a e', f a = Raise e' -> e' = e) ->
  (exists a e', a ∈ l /\ f a = Raise e') ->
  rmap f l = Raise e.
Proof.
  intros Hf. induction l as [|a l IH]; intros (a0 & e0 & Hin & Ha0).
  - inversion Hin.
  - cbn [rmap]. wunfold. destruct (f a) as [b|e'] eqn:Hfa.
    + cbv beta iota. rewrite IH; [reflexivity|].
      apply elem_of_cons in Hin. destruct Hin as [->|Hin]; [congruence|].
      eauto.
    + cbv beta iota. f_equal. eauto.
Qed.

Lemma index_raise {A} (l : list A) i e : index l i = Raise e -> e = IndexError.
Proof. unfold index. destruct (l !! i); congruence. Qed.

Lemma fit_model_neighbour_out_of_range tree_query inv inp nneighbors xs ids j :
  tree_query (map scale (reference_locations inp)) xs nneighbors
    = Ok (NNArray ids) ->
  j ∈ ids -> (length (reference_locations inp) <= j)%nat ->
  fit_model tree_query inv inp nneighbors xs = Raise IndexError.
Proof.
  intros Hq Hj Hout. unfold fit_model. rewrite Hq. wunfold.
  rewrite (rmap_raise _ ids IndexError); [reflexivity| |].
  - intros a e'. destruct (index (reference_locations inp) a) eqn:Hidx;
      [discriminate|].
    intros [= <-]. now apply index_raise in Hidx.
  - exists j, IndexError. split; [exact Hj|]. unfold index.
    now rewrite lookup_ge_None_2.
Qed.

Lemma fit_model_scalar_raises tree_query inv inp nneighbors xs i :
  tree_query (map scale (reference_locations inp)) xs nneighbors
    = Ok (NNScalar i) ->
  n_atm_bands inp <> 0%nat ->
  fit_model tree_query inv inp nneighbors xs = Raise IndexError.
Proof.
  intros Hq Hn. unfold fit_model. rewrite Hq. wunfold.
  destruct (index (reference_locations inp) i) eqn:H1;
    [|now apply index_raise in H1; subst].
  destruct (index (reference_state inp) i) eqn:H2;
    [|now apply index_raise in H2; subst].
  destruct (Nat.eqb_spec (n_atm_bands inp) 0); [contradiction|reflexivity].
Qed.

(** X3. Failures of a fit outside the [try] are not absorbed (lines
    139-145). At a pixel that is not nodata and whose label is not cached:
    a neighbour id that lies outside the reference set (what scipy returns
    when there are fewer reference pixels than [nneighbors]), a scalar
    query result with at least one atmosphere band, and an exception of
    the query itself each abort the pixel, the first two with
    [IndexError]. The step has then only recorded the query: nothing is
    cached and nothing is written. *)
Theorem fit_failures_outside_try_propagate :
  forall tree_query inv inp nneighbors nodata_value row col x st label,
    is_nodata nodata_value x = false ->
    seg_index inp row col = Ok label ->
    hash_table st !! label = None ->
    let query := tree_query (map scale (reference_locations inp)) (scale x)
                   nneighbors in
    let step := process_pixel tree_query inv inp nneighbors nodata_value
                  row col x st in
    (forall ids j,
        query = Ok (NNArray ids) -> j ∈ ids ->
        (length (reference_locations inp) <= j)%nat ->
        step = (log (EvQuery row col) st, Raise IndexError))
    /\ (forall i,
           query = Ok (NNScalar i) -> n_atm_bands inp <> 0%nat ->
           step = (log (EvQuery row col) st, Raise IndexError))
    /\ (forall e,
           query = Raise e -> step = (log (EvQuery row col) st, Raise e)).
Proof.
  intros tq inv inp k nd row col x st label Hx Hseg Hmiss query step.
  split; [|split].
  - intros ids j Hq Hj Hout. eapply pixel_miss_raise; eauto.
    eapply fit_model_neighbour_out_of_range; eauto.
  - intros i Hq Hn. eapply pixel_miss_raise; eauto.
    eapply fit_model_scalar_raises; eauto.
  - intros e Hq. eapply pixel_miss_raise; eauto.
    unfold fit_model. fold query. rewrite Hq. reflexivity.
Qed.

Lemma fit_failures_outside_try_propagate_witness :
  let inp := scenario (Some two_labels) in
  let x := loc_of_Z 0 1 105 in
  process_pixel exhaustive_query cofactor_inv inp 11 default_nodata
    0 1 x initial_state
  = (log (EvQuery 0 1) initial_state, Raise IndexError).
Proof.
  intros inp x.
  apply (proj1 (fit_failures_outside_try_propagate exhaustive_query
                  cofactor_inv inp 11 default_nodata 0%nat 1%nat x
                  initial_state 7 ltac:(vm_compute; reflexivity)
                  ltac:(vm_compute; reflexivity) ltac:(reflexivity))
           [0; 2; 1; 4; 5; 6; 3; 7; 8; 9; 10]%nat 10%nat).
  - vm_compute. reflexivity.
  - apply list_elem_of_In. vm_compute. tauto.
  - vm_compute. lia.
Defined.

Lemma triple_bind {A B} (P : wstate -> Prop) (m : W A) (k : A -> W B)
    (Q : A -> wstate -> Prop) (R : B -> wstate -> Prop) (E : wstate -> Prop) :
  triple P m Q E ->
  (forall a, triple (Q a) (k a) R E) ->
  triple P (m ≫= k) R E.
Proof.
  intros Hm Hk st HP. specialize (Hm st HP). rewrite wbind_eq.
  destruct (m st) as [st1 [a|e]]; [|exact Hm].
  exact (Hk a st1 Hm).
Qed.

Lemma triple_weaken {A} (P P' : wstate -> Prop) (m : W A)
    (Q Q' : A -> wstate -> Prop) (E E' : wstate -> Prop) :
  triple P m Q E ->
  (forall st, P' st -> P st) ->
  (forall a st, Q a st -> Q' a st) ->
  (forall st, E st -> E' st) ->
  triple P' m Q' E'.
Proof.
  intros Hm HP HQ HE st HP'. specialize (Hm st (HP st HP')).
  destruct (m st) as [st1 [a|e]]; auto.
Qed.

Lemma predict_length bhat xs : length (predict bhat xs) = nrows bhat.
Proof. unfold predict. now rewrite length_map, length_seq. Qed.

Section WorkerShape.

Variable tree_query : list location -> location -> Z -> result nn_result.
Variable inv : matrix -> result matrix.
Variable inp : inputs.
Variable nneighbors : Z.
Variable nodata_value : float.

Local Abbreviation pixel :=
  (process_pixel tree_query inv inp nneighbors nodata_value).
Local Abbreviation cols :=
  (run_cols tree_query inv inp nneighbors nodata_value).
Local Abbreviation line :=
  (run_row tree_query inv inp nneighbors nodata_value).
Local Abbreviation lines :=
  (run_rows tree_query inv inp nneighbors nodata_value).

Lemma process_pixel_spec o row col x :
  triple (worker_inv inp o) (pixel row col x)
    (fun v st' =>
       worker_inv inp o st'
       /\ length v = n_atm_bands inp
       /\ (is_nodata nodata_value x = false ->
           exists label, seg_index inp row col = Ok label))
    (worker_inv inp o).
Proof.
  intros st [Hsh Ho].
  destruct (is_nodata nodata_value x) eqn:Hx.
  - rewrite nodata_pixel_step by exact Hx.
    repeat split; [exact Hsh | exact Ho | apply length_replicate | discriminate].
  - destruct (seg_index inp row col) as [label|e] eqn:Hseg.
    2:{ rewrite (pixel_seg_raise _ _ _ _ _ _ _ _ _ _ Hx Hseg). now split. }
    destruct (hash_table st !! label) as [b|] eqn:Hb.
    + rewrite (pixel_hit _ _ _ _ _ _ _ _ _ _ _ Hx Hseg Hb).
      repeat split; [exact Hsh | exact Ho | | eauto].
      rewrite predict_length. apply Hsh in Hb. now injection Hb.
    + destruct (fit_model tree_query inv inp nneighbors (scale x))
        as [b|e] eqn:Hfit.
      * rewrite (pixel_miss_ok _ _ _ _ _ _ _ _ _ _ _ Hx Hseg Hb Hfit).
        apply fit_model_shape in Hfit. destruct Hfit as (Hshape & _).
        repeat split; [ | exact Ho | | eauto].
        -- intros l b'. cbn [log store hash_table].
           intros H. apply lookup_insert_Some in H.
           destruct H as [[_ <-]|[_ H]]; [exact Hshape | now apply Hsh in H].
        -- rewrite predict_length. now injection Hshape.
      * rewrite (pixel_miss_raise _ _ _ _ _ _ _ _ _ _ _ Hx Hseg Hb Hfit).
        now split.
Qed.

Lemma run_cols_spec o row xs : forall col,
  triple (worker_inv inp o) (cols row col xs)
    (fun block st' =>
       worker_inv inp o st'
       /\ length block = length xs
       /\ Forall (fun v => length v = n_atm_bands inp) block
       /\ line_labelled inp nodata_value row col xs)
    (worker_inv inp o).
Proof.
  induction xs as [|x rest IH]; intros col.
  - intros st H. cbn. repeat split; [apply H | apply H | constructor |].
    intros j x Hj. discriminate.
  - cbn [run_cols].
    eapply triple_bind; [apply process_pixel_spec|].
    intros v. cbv beta.
    intros st (Hinv & Hv & Hlab).
    pose proof (IH (S col) st Hinv) as Hrest. rewrite wbind_eq.
    destruct (cols row (S col) rest st) as [st2 [vs|e]]; [|exact Hrest].
    destruct Hrest as (Hinv2 & Hlen & Hall & Hlabs).
    cbn. repeat split; [apply Hinv2 | apply Hinv2 | now rewrite Hlen
                        | now constructor |].
    intros [|j] x' Hj Hx'.
    + cbn in Hj. injection Hj as <-. rewrite Nat.add_0_r. now apply Hlab.
    + cbn in Hj. replace (col + S j)%nat with (S col + j)%nat by lia.
      now apply (Hlabs j x').
Qed.

Lemma run_row_spec o row :
  triple (worker_inv inp o) (line row)
    (fun _ st' =>
       table_shaped inp st'
       /\ exists locs block,
            input_locations inp !! row = Some locs
            /\ output st' = <[row := block]> o
            /\ block_shaped inp row block
            /\ line_labelled inp nodata_value row 0 locs)
    (worker_inv inp o).
Proof.
  intros st Hinv. unfold run_row. rewrite wbind_eq. unfold lift.
  destruct (index (input_locations inp) row) as [locs|e] eqn:Hidx;
    [|exact Hinv].
  apply index_ok in Hidx.
  pose proof (run_cols_spec o row locs 0%nat st Hinv) as Hc.
  rewrite wbind_eq.
  destruct (cols row 0%nat locs st) as [st1 [block|e]]; [|exact Hc].
  destruct Hc as ((Hsh & Ho) & Hlen & Hall & Hlab).
  cbn [write_block write_bil_chunk hash_table output]. split; [exact Hsh|].
  exists locs, block. cbn [output]. rewrite Ho.
  repeat split; try assumption.
  exists locs. now repeat split.
Qed.

(** The lines of [rows] as a worker leaves them, against the raster [o]
    it started from. *)
Lemma run_rows_spec rows : forall o,
  triple (worker_inv inp o) (lines rows)
    (fun _ st' =>
       table_shaped inp st'
       /\ (forall r, r ∉ rows -> output st' !! r = o !! r)
       /\ (forall r, r ∈ rows ->
             (exists block, output st' !! r = Some block
                            /\ block_shaped inp r block)
             /\ exists locs, input_locations inp !! r = Some locs
                  /\ line_labelled inp nodata_value r 0 locs))
    (fun st' => forall r, r ∉ rows -> output st' !! r = o !! r).
Proof.
  induction rows as [|r0 rest IH]; intros o.
  - intros st [Hsh Ho]. cbn. split; [exact Hsh|]. split.
    + intros r _. now rewrite Ho.
    + intros r Hr. inversion Hr.
  - cbn [run_rows]. intros st Hinv.
    pose proof (run_row_spec o r0 st Hinv) as Hrow. rewrite wbind_eq.
    destruct (line r0 st) as [st1 [[]|e]].
    2:{ destruct Hrow as [_ Ho]. intros r _. now rewrite Ho. }
    destruct Hrow as (Hsh & locs & block & Hlocs & Ho & Hblock & Hlab).
    pose proof (IH (<[r0 := block]> o) st1 (conj Hsh Ho)) as Hrest.
    destruct (lines rest st1) as [st2 [[]|e]].
    + destruct Hrest as (Hsh2 & Hframe & Hdone). split; [exact Hsh2|]. split.
      * intros r Hr. apply not_elem_of_cons in Hr. destruct Hr as [Hne Hr].
        rewrite Hframe by exact Hr. now apply lookup_insert_ne.
      * intros r Hr.
        destruct (decide (r ∈ rest)) as [Hin|Hout]; [now apply Hdone|].
        apply elem_of_cons in Hr. destruct Hr as [->|Hr]; [|contradiction].
        split; [|eauto]. exists block. split; [|exact Hblock].
        rewrite Hframe by exact Hout. apply lookup_insert_eq.
    + intros r Hr. apply not_elem_of_cons in Hr. destruct Hr as [Hne Hr].
      rewrite Hrest by exact Hr. now apply lookup_insert_ne.
Qed.

Lemma run_chunk_spec start_line stop_line st :
  let res := _run_chunk tree_query inv inp nneighbors nodata_value
               start_line stop_line st in
  (forall r, ~ (start_line <= r < stop_line)%nat ->
      output (fst res) !! r = output st !! r)
  /\ (snd res = Ok tt ->
      forall r, (start_line <= r < stop_line)%nat ->
        (exists block, output (fst res) !! r = Some block
                       /\ block_shaped inp r block)
        /\ exists locs, input_locations inp !! r = Some locs
             /\ line_labelled inp nodata_value r 0 locs).
Proof.
  unfold _run_chunk. cbv zeta.
  set (st0 := {| hash_table := ∅; output := output st; trace := trace st |}).
  assert (Hinv : worker_inv inp (output st) st0).
  { split; [|reflexivity]. intros l b H. cbn in H.
    rewrite lookup_empty in H. discriminate. }
  pose proof (run_rows_spec (chunk_rows (start_line, stop_line)) _ st0 Hinv)
    as H.
  assert (Hmem : forall r, r ∈ chunk_rows (start_line, stop_line)
                           <-> (start_line <= r < stop_line)%nat).
  { intros r. unfold chunk_rows. cbn [fst snd]. rewrite elem_of_seq. lia. }
  destruct (lines (chunk_rows (start_line, stop_line)) st0) as [st1 [[]|e]];
    cbn [fst snd].
  - destruct H as (_ & Hframe & Hdone). split.
    + intros r Hr. apply Hframe. now rewrite Hmem.
    + intros _ r Hr. apply Hdone. now rewrite Hmem.
  - split; [|discriminate]. intros r Hr. apply H. now rewrite Hmem.
Qed.

End WorkerShape.

Lemma elem_of_chunk_rows r c :
  r ∈ chunk_rows c <-> (fst c <= r < snd c)%nat.
Proof. unfold chunk_rows. rewrite elem_of_seq. lia. Qed.

Lemma run_chunks_spec tree_query inv inp nneighbors nodata_value cs :
  forall st,
    let res := run_chunks tree_query inv inp nneighbors nodata_value cs st in
    (forall r, r ∉ concat (map chunk_rows cs) ->
        output (fst res) !! r = output st !! r)
    /\ (snd res = Ok tt ->
        forall r, r ∈ concat (map chunk_rows cs) ->
          (exists block, output (fst res) !! r = Some block
                         /\ block_shaped inp r block)
          /\ exists locs, input_locations inp !! r = Some locs
               /\ line_labelled inp nodata_value r 0 locs).
Proof.
  induction cs as [|c rest IH]; intros st; cbv zeta.
  - cbn. split; [reflexivity|]. intros _ r Hr. inversion Hr.
  - cbn [run_chunks map concat].
    pose proof (run_chunk_spec tree_query inv inp nneighbors nodata_value
                  (fst c) (snd c) st) as Hc. cbv zeta in Hc.
    destruct (_run_chunk tree_query inv inp nneighbors nodata_value
                (fst c) (snd c) st) as [st1 r1].
    specialize (IH st1). cbv zeta in IH.
    destruct (run_chunks tree_query inv inp nneighbors nodata_value rest st1)
      as [st2 r2].
    cbn [fst snd] in *. destruct Hc as [Hframe1 Hdone1].
    destruct IH as [Hframe2 Hdone2]. split.
    + intros r Hr. rewrite elem_of_app in Hr.
      rewrite Hframe2 by tauto. apply Hframe1.
      rewrite <- elem_of_chunk_rows. tauto.
    + intros Hok r Hr.
      destruct r1 as [[]|e]; [|discriminate].
      destruct (decide (r ∈ concat (map chunk_rows rest))) as [Hin|Hout].
      * now apply Hdone2.
      * apply elem_of_app in Hr. destruct Hr as [Hr|Hr]; [|contradiction].
        apply elem_of_chunk_rows in Hr.
        destruct (Hdone1 eq_refl r Hr) as ((block & Hb & Hshape) & Hlab).
        split; [|exact Hlab]. exists block. split; [|exact Hshape].
        now rewrite Hframe2.
Qed.

Lemma default_run_state tree_query inv gaussian_filter n_ray_cores inp
    nneighbors nodata_value sigma st :
  1 <= n_ray_cores ->
  1 <= Z.of_nat (length (input_locations inp)) < 2 ^ 53 ->
  fltb fzero sigma = false ->
  let res := atm_interpolation tree_query inv gaussian_filter n_ray_cores
               inp nneighbors nodata_value (-1) sigma st in
  exists cs,
    concat (map chunk_rows cs) = seq 0 (length (input_locations inp))
    /\ length cs
       = Z.to_nat (Z.min n_ray_cores
                     (Z.of_nat (length (input_locations inp))))
    /\ res = run_chunks tree_query inv inp nneighbors nodata_value cs st.
Proof.
  intros Hray Hn Hsigma. cbv zeta.
  set (n := Z.of_nat (length (input_locations inp))) in *.
  destruct (sections_partition n (Z.min n_ray_cores n) ltac:(lia) ltac:(lia))
    as (sections & Hsec & Hlen & _ & Hcover).
  exists (chunks sections). split; [|split].
  - rewrite Hcover. unfold n. now rewrite Nat2Z.id.
  - exact Hlen.
  - assert (Hplan : plan n_ray_cores inp (-1)
                     = Ok (Z.min n_ray_cores n, sections)).
    { unfold plan, init_ray_args, n_input_lines. cbn [negb Z.eqb]. wunfold.
      fold n. rewrite Hsec. reflexivity. }
    unfold atm_interpolation. rewrite wbind_eq. unfold lift.
    rewrite Hplan. cbn [snd]. rewrite wbind_eq.
    destruct (run_chunks tree_query inv inp nneighbors nodata_value
                (chunks sections) st) as [st1 [[]|e]] eqn:Hrun;
      [|reflexivity].
    destruct sections as [|s0 sections'].
    { cbn in Hlen. lia. }
    rewrite wbind_eq. unfold smoother. rewrite Hsigma. reflexivity.
Qed.

Lemma seg_index_ok inp row col label :
  seg_index inp row col = Ok label <->
  exists img line,
    segmentation inp = Some img /\ img !! row = Some line
    /\ line !! col = Some label.
Proof.
  unfold seg_index. destruct (segmentation inp) as [img|].
  - wunfold. unfold index. split.
    + destruct (img !! row) as [line|] eqn:Hr; [|discriminate].
      cbv beta iota. destruct (line !! col) eqn:Hc; [|discriminate].
      intros [= <-]. exists img, line. auto.
    + intros (img' & line & [= <-] & -> & Hc). cbv beta iota.
      now rewrite Hc.
  - split; [discriminate|]. intros (? & ? & ? & _). discriminate.
Qed.

(** X6. A worker that returns has written every line of its range, and
    every line it wrote has the shape the output raster expects (lines
    121 and 175-178): one vector per sample of the input line, each with
    one value per atmosphere band. Cached models are included: every
    model in the cache has one row per band. *)
Theorem worker_lines_have_raster_shape :
  forall tree_query inv inp nneighbors nodata_value start_line stop_line st,
    let res := _run_chunk tree_query inv inp nneighbors nodata_value
                 start_line stop_line st in
    snd res = Ok tt ->
    forall row, (start_line <= row < stop_line)%nat ->
      exists locs block,
        input_locations inp !! row = Some locs
        /\ output (fst res) !! row = Some block
        /\ length block = length locs
        /\ Forall (fun v => length v = n_atm_bands inp) block.
Proof.
  intros tq inv inp k nd start stop st res Hok row Hrow.
  destruct (run_chunk_spec tq inv inp k nd start stop st) as [_ Hdone].
  destruct (Hdone Hok row Hrow) as ((block & Hb & locs & Hl & Hlen & Hall) & _).
  exists locs, block. auto.
Qed.

Lemma worker_lines_have_raster_shape_witness :
  let inp := scenario (Some two_labels) in
  let res := _run_chunk exhaustive_query cofactor_inv inp 5 default_nodata
               1 3 initial_state in
  exists locs block,
    input_locations inp !! 2%nat = Some locs
    /\ output (fst res) !! 2%nat = Some block
    /\ length block = length locs
    /\ Forall (fun v => length v = n_atm_bands inp) block.
Proof.
  intros inp res.
  apply (worker_lines_have_raster_shape exhaustive_query cofactor_inv inp 5
           default_nodata 1%nat 3%nat initial_state).
  - vm_compute. reflexivity.
  - lia.
Defined.

(** X7. Whether it returns or raises, a worker leaves every line outside
    [start_line .. stop_line - 1] of the output raster as it found it:
    [write_bil_chunk] is called only with the line being processed (line
    177). *)
Theorem worker_touches_only_its_lines :
  forall tree_query inv inp nneighbors nodata_value start_line stop_line st
         row,
    ~ (start_line <= row < stop_line)%nat ->
    output (fst (_run_chunk tree_query inv inp nneighbors nodata_value
                   start_line stop_line st)) !! row
    = output st !! row.
Proof.
  intros tq inv inp k nd start stop st row Hrow.
  now apply (run_chunk_spec tq inv inp k nd start stop st).
Qed.

Lemma worker_touches_only_its_lines_witness :
  output (fst (_run_chunk exhaustive_query cofactor_inv
                 (scenario (Some two_labels)) 5 default_nodata 1 3
                 initial_state)) !! 3%nat
  = output initial_state !! 3%nat.
Proof.
  apply (worker_touches_only_its_lines exhaustive_query cofactor_inv
           (scenario (Some two_labels)) 5 default_nodata 1%nat 3%nat
           initial_state 3%nat).
  lia.
Defined.

(** X8. A worker returns only if every line of its range exists in the
    input raster and every pixel of these lines that is not nodata has an
    entry in the segmentation raster (line 134 is not guarded). In
    particular, without a segmentation file a worker returns only if all
    its pixels are nodata. *)
Theorem worker_returns_only_if_labelled :
  forall tree_query inv inp nneighbors nodata_value start_line stop_line st,
    snd (_run_chunk tree_query inv inp nneighbors nodata_value
           start_line stop_line st) = Ok tt ->
    forall row, (start_line <= row < stop_line)%nat ->
      exists locs,
        input_locations inp !! row = Some locs
        /\ forall col x,
             locs !! col = Some x -> is_nodata nodata_value x = false ->
             exists img line label,
               segmentation inp = Some img /\ img !! row = Some line
               /\ line !! col = Some label.
Proof.
  intros tq inv inp k nd start stop st Hok row Hrow.
  destruct (run_chunk_spec tq inv inp k nd start stop st) as [_ Hdone].
  destruct (Hdone Hok row Hrow) as (_ & locs & Hl & Hlab).
  exists locs. split; [exact Hl|]. intros col x Hx Hnd.
  destruct (Hlab col x Hx Hnd) as (label & Hseg). cbn [Nat.add] in Hseg.
  apply seg_index_ok in Hseg. destruct Hseg as (img & line & ? & ? & ?).
  eauto 6.
Qed.

Lemma worker_returns_only_if_labelled_witness :
  let inp := scenario (Some two_labels) in
  exists locs,
    input_locations inp !! 2%nat = Some locs
    /\ forall col x,
         locs !! col = Some x -> is_nodata default_nodata x = false ->
         exists img line label,
           segmentation inp = Some img /\ img !! 2%nat = Some line
           /\ line !! col = Some label.
Proof.
  intros inp.
  apply (worker_returns_only_if_labelled exhaustive_query cofactor_inv inp 5
           default_nodata 1%nat 3%nat initial_state).
  - vm_compute. reflexivity.
  - lia.
Defined.

(** X10. Scheduler and workers together (lines 249-268). A run with the
    default core count and smoothing disabled, on a cluster with at least
    one CPU and a raster of at least one line (fewer than [2^53]), that
    returns has filled the whole raster: every input line has its row
    block in the output, with one vector per sample and one value per
    atmosphere band, and every pixel that is not nodata had a
    segmentation label. *)
Theorem default_run_fills_raster :
  forall tree_query inv gaussian_filter n_ray_cores inp nneighbors
         nodata_value sigma st,
    1 <= n_ray_cores ->
    1 <= Z.of_nat (length (input_locations inp)) < 2 ^ 53 ->
    fltb fzero sigma = false ->
    let res := atm_interpolation tree_query inv gaussian_filter n_ray_cores
                 inp nneighbors nodata_value (-1) sigma st in
    snd res = Ok tt ->
    forall row locs,
      input_locations inp !! row = Some locs ->
      (exists block,
          output (fst res) !! row = Some block
          /\ length block = length locs
          /\ Forall (fun v => length v = n_atm_bands inp) block)
      /\ forall col x,
           locs !! col = Some x -> is_nodata nodata_value x = false ->
           exists img line label,
             segmentation inp = Some img /\ img !! row = Some line
             /\ line !! col = Some label.
Proof.
  intros tq inv gf n_ray inp k nd sigma st Hray Hn Hsigma res Hok row locs Hl.
  destruct (default_run_state tq inv gf n_ray inp k nd sigma st Hray Hn Hsigma)
    as (cs & Hcover & _ & Hres).
  cbv zeta in Hres. fold res in Hres.
  destruct (run_chunks_spec tq inv inp k nd cs st) as [_ Hdone].
  cbv zeta in Hdone. rewrite <- Hres in Hdone.
  destruct (Hdone Hok row) as ((block & Hb & locs' & Hl' & Hlen & Hall)
                               & locs'' & Hl'' & Hlab).
  { rewrite Hcover. apply elem_of_seq. apply lookup_lt_Some in Hl. lia. }
  rewrite Hl in Hl', Hl''. injection Hl' as <-. injection Hl'' as <-.
  split; [eauto|]. intros col x Hx Hnd.
  destruct (Hlab col x Hx Hnd) as (label & Hseg). cbn [Nat.add] in Hseg.
  apply seg_index_ok in Hseg. destruct Hseg as (img & line & ? & ? & ?).
  eauto 6.
Qed.

Lemma default_run_fills_raster_witness :
  let inp := scenario (Some two_labels) in
  let res := atm_interpolation exhaustive_query cofactor_inv
               (kernel_filter [fone]) 8 inp 5 default_nodata (-1) fzero
               initial_state in
  exists block,
    output (fst res) !! 3%nat = Some block
    /\ length block = 4%nat
    /\ Forall (fun v => length v = n_atm_bands inp) block.
Proof.
  intros inp res.
  refine (proj1 (default_run_fills_raster exhaustive_query cofactor_inv
                   (kernel_filter [fone]) 8 inp 5 default_nodata fzero
                   initial_state _ _ _ _ 3%nat
                   (map (fun c => loc_of_Z 3 c 105) (seqZ 0 4)) _)).
  - lia.
  - vm_compute. split; [discriminate | reflexivity].
  - reflexivity.
  - vm_compute. reflexivity.
  - reflexivity.
Defined.

(** *** What a worker writes *)

Lemma pixel_written_mono inp nodata_value table table' row col x v :
  table ⊆ table' ->
  pixel_written inp nodata_value table row col x v ->
  pixel_written inp nodata_value table' row col x v.
Proof.
  intros Hsub. unfold pixel_written.
  destruct (is_nodata nodata_value x); [auto|].
  intros (label & b & Hseg & Hb & Hv). exists label, b.
  split; [exact Hseg|]. split; [|exact Hv].
  eapply lookup_weaken; eauto.
Qed.

Lemma line_written_mono inp nodata_value table table' row col locs block :
  table ⊆ table' ->
  line_written inp nodata_value table row col locs block ->
  line_written inp nodata_value table' row col locs block.
Proof.
  intros Hsub H j x Hj. destruct (H j x Hj) as (v & Hv & Hw).
  exists v. split; [exact Hv|]. eapply pixel_written_mono; eauto.
Qed.

Section WorkerOutput.

Variable tree_query : list location -> location -> Z -> result nn_result.
Variable inv : matrix -> result matrix.
Variable inp : inputs.
Variable nneighbors : Z.
Variable nodata_value : float.

Local Abbreviation pixel :=
  (process_pixel tree_query inv inp nneighbors nodata_value).
Local Abbreviation cols :=
  (run_cols tree_query inv inp nneighbors nodata_value).
Local Abbreviation line :=
  (run_row tree_query inv inp nneighbors nodata_value).
Local Abbreviation lines :=
  (run_rows tree_query inv inp nneighbors nodata_value).

(** The model [b] is the fit at the pixel [x] of [(row, col)], which
    carries [label]. *)
Local Abbreviation fitted_at row col x label b :=
  (is_nodata nodata_value x = false
   /\ seg_index inp row col = Ok label
   /\ fit_model tree_query inv inp nneighbors (scale x) = Ok b).

Lemma process_pixel_written row col x st :
  let res := pixel row col x st in
  hash_table st ⊆ hash_table (fst res)
  /\ output (fst res) = output st
  /\ (forall label b,
         hash_table (fst res) !! label = Some b ->
         hash_table st !! label = Some b \/ fitted_at row col x label b)
  /\ (forall v, snd res = Ok v ->
         pixel_written inp nodata_value (hash_table (fst res)) row col x v).
Proof.
  cbv zeta. destruct (is_nodata nodata_value x) eqn:Hx.
  - rewrite nodata_pixel_step by exact Hx. cbn [fst snd log hash_table output].
    repeat split; auto.
    intros v [= <-]. unfold pixel_written. now rewrite Hx.
  - destruct (seg_index inp row col) as [label|e] eqn:Hseg.
    2:{ rewrite (pixel_seg_raise _ _ _ _ _ _ _ _ _ _ Hx Hseg).
        cbn [fst snd]. repeat split; auto. discriminate. }
    destruct (hash_table st !! label) as [b|] eqn:Hb.
    + rewrite (pixel_hit _ _ _ _ _ _ _ _ _ _ _ Hx Hseg Hb).
      cbn [fst snd log hash_table output]. repeat split; auto.
      intros v [= <-]. unfold pixel_written. rewrite Hx. eauto.
    + destruct (fit_model tree_query inv inp nneighbors (scale x))
        as [b|e] eqn:Hfit.
      * rewrite (pixel_miss_ok _ _ _ _ _ _ _ _ _ _ _ Hx Hseg Hb Hfit).
        cbn [fst snd log store hash_table output]. split; [|split; [|split]].
        -- now apply insert_subseteq.
        -- reflexivity.
        -- intros l b' H. apply lookup_insert_Some in H.
           destruct H as [[<- <-]|[_ H]]; auto.
        -- intros v [= <-]. unfold pixel_written. rewrite Hx.
           exists label, b. rewrite lookup_insert_eq. auto.
      * rewrite (pixel_miss_raise _ _ _ _ _ _ _ _ _ _ _ Hx Hseg Hb Hfit).
        cbn [fst snd log hash_table output]. repeat split; auto. discriminate.
Qed.

Lemma run_cols_written row xs : forall col st,
  let res := cols row col xs st in
  hash_table st ⊆ hash_table (fst res)
  /\ output (fst res) = output st
  /\ (forall label b,
         hash_table (fst res) !! label = Some b ->
         hash_table st !! label = Some b
         \/ exists j x, xs !! j = Some x
                        /\ fitted_at row (col + j)%nat x label b)
  /\ (forall block, snd res = Ok block ->
         line_written inp nodata_value (hash_table (fst res)) row col xs
           block).
Proof.
  induction xs as [|x rest IH]; intros col st; cbv zeta.
  - cbn. repeat split; auto. intros block [= <-] j x Hj. discriminate.
  - cbn [run_cols]. rewrite wbind_eq.
    pose proof (process_pixel_written row col x st) as Hpx. cbv zeta in Hpx.
    destruct (pixel row col x st) as [st1 [v|e]]; cbn [fst snd] in Hpx |- *.
    2:{ destruct Hpx as (H1 & H2 & H3 & _). repeat split; auto.
        - intros l b Hb. destruct (H3 l b Hb) as [?|Hf]; [auto|].
          right. exists 0%nat, x. rewrite Nat.add_0_r. auto.
        - discriminate. }
    destruct Hpx as (H1 & H2 & H3 & H4). specialize (H4 v eq_refl).
    rewrite wbind_eq. specialize (IH (S col) st1). cbv zeta in IH.
    destruct (cols row (S col) rest st1) as [st2 [vs|e]];
      cbn [fst snd] in IH |- *; destruct IH as (I1 & I2 & I3 & I4).
    + change ((mret (v :: vs) : W _) st2) with (st2, Ok (v :: vs)).
      cbn [fst snd].
      split; [etransitivity; eauto|]. split; [now rewrite I2|]. split.
      * intros l b Hb. destruct (I3 l b Hb) as [Hold|(j & x' & Hj & Hf)].
        -- destruct (H3 l b Hold) as [?|Hf]; [auto|].
           right. exists 0%nat, x. rewrite Nat.add_0_r. auto.
        -- right. exists (S j), x'.
           replace (col + S j)%nat with (S col + j)%nat by lia. auto.
      * intros block [= <-] [|j] x' Hj.
        -- cbn in Hj. injection Hj as <-. exists v. split; [reflexivity|].
           rewrite Nat.add_0_r. eapply pixel_written_mono; eauto.
        -- cbn in Hj. destruct (I4 vs eq_refl j x' Hj) as (v' & Hv' & Hw).
           exists v'. split; [exact Hv'|].
           now replace (col + S j)%nat with (S col + j)%nat by lia.
    + split; [etransitivity; eauto|]. split; [now rewrite I2|]. split.
      * intros l b Hb. destruct (I3 l b Hb) as [Hold|(j & x' & Hj & Hf)].
        -- destruct (H3 l b Hold) as [?|Hf]; [auto|].
           right. exists 0%nat, x. rewrite Nat.add_0_r. auto.
        -- right. exists (S j), x'.
           replace (col + S j)%nat with (S col + j)%nat by lia. auto.
      * discriminate.
Qed.

(** The model cached for [label] was fitted at a pixel of one of the
    lines [rows] that carries this label. *)
Local Abbreviation fitted_in rows label b :=
  (exists row col locs x,
      row ∈ rows
      /\ input_locations inp !! row = Some locs
      /\ locs !! col = Some x
      /\ fitted_at row col x label b).

Lemma run_row_written row st :
  let res := line row st in
  hash_table st ⊆ hash_table (fst res)
  /\ (forall label b,
         hash_table (fst res) !! label = Some b ->
         hash_table st !! label = Some b \/ fitted_in [row] label b)
  /\ match snd res with
     | Ok _ =>
         exists locs block,
           input_locations inp !! row = Some locs
           /\ output (fst res) = <[row := block]> (output st)
           /\ line_written inp nodata_value (hash_table (fst res)) row 0
                locs block
     | Raise _ => output (fst res) = output st
     end.
Proof.
  cbv zeta. unfold run_row. rewrite wbind_eq. unfold lift.
  destruct (index (input_locations inp) row) as [locs|e] eqn:Hidx;
    cbn [fst snd]; [|auto].
  apply index_ok in Hidx.
  pose proof (run_cols_written row locs 0%nat st) as Hc. cbv zeta in Hc.
  rewrite wbind_eq.
  destruct (cols row 0%nat locs st) as [st1 [block|e]];
    cbn [fst snd write_block write_bil_chunk hash_table output] in Hc |- *;
    destruct Hc as (H1 & H2 & H3 & H4).
  - split; [exact H1|]. split.
    + intros l b Hb. destruct (H3 l b Hb) as [?|(j & x & Hj & Hf)]; [auto|].
      right. exists row, j, locs, x. split; [now left|]. auto.
    + exists locs, block. rewrite H2. auto.
  - split; [exact H1|]. split; [|exact H2].
    intros l b Hb. destruct (H3 l b Hb) as [?|(j & x & Hj & Hf)]; [auto|].
    right. exists row, j, locs, x. split; [now left|]. auto.
Qed.

Lemma run_rows_written rows : forall st,
  let res := lines rows st in
  hash_table st ⊆ hash_table (fst res)
  /\ (forall label b,
         hash_table (fst res) !! label = Some b ->
         hash_table st !! label = Some b \/ fitted_in rows label b)
  /\ (forall row, row ∉ rows -> output (fst res) !! row = output st !! row)
  /\ (snd res = Ok tt ->
      forall row, row ∈ rows ->
        exists locs block,
          input_locations inp !! row = Some locs
          /\ output (fst res) !! row = Some block
          /\ line_written inp nodata_value (hash_table (fst res)) row 0
               locs block).
Proof.
  induction rows as [|r0 rest IH]; intros st; cbv zeta.
  - cbn. split; [reflexivity|]. split; [auto|]. split; [auto|].
    intros _ row Hr. inversion Hr.
  - cbn [run_rows]. rewrite wbind_eq.
    pose proof (run_row_written r0 st) as Hrow. cbv zeta in Hrow.
    destruct (line r0 st) as [st1 [[]|e]]; cbn [fst snd] in Hrow |- *;
      destruct Hrow as (H1 & H2 & H3).
    2:{ split; [exact H1|]. split; [|split; [|discriminate]].
        - intros l b Hb.
          destruct (H2 l b Hb) as [?|(r & c & locs & x & Hr & Hf)]; [auto|].
          right. exists r, c, locs, x. split; [|exact Hf].
          apply list_elem_of_singleton in Hr. subst. now left.
        - intros row _. now rewrite H3. }
    destruct H3 as (locs0 & block0 & Hl0 & Hout & Hline).
    pose proof (IH st1) as Hrest. cbv zeta in Hrest.
    destruct (lines rest st1) as [st2 r2]; cbn [fst snd] in Hrest |- *.
    destruct Hrest as (I1 & I2 & I3 & I4).
    split; [etransitivity; eauto|]. split; [|split].
    + intros l b Hb.
      destruct (I2 l b Hb) as [Hold|(r & c & locs & x & Hr & Hf)].
      * destruct (H2 l b Hold) as [?|(r & c & locs & x & Hr & Hf)]; [auto|].
        right. exists r, c, locs, x. split; [|exact Hf].
        apply list_elem_of_singleton in Hr. subst. now left.
      * right. exists r, c, locs, x. split; [now right | exact Hf].
    + intros row Hr. apply not_elem_of_cons in Hr. destruct Hr as [Hne Hr].
      rewrite I3 by exact Hr. rewrite Hout. now apply lookup_insert_ne.
    + intros -> row Hr.
      destruct (decide (row ∈ rest)) as [Hin|Hout']; [now apply I4|].
      apply elem_of_cons in Hr. destruct Hr as [->|Hr]; [|contradiction].
      exists locs0, block0. split; [exact Hl0|]. split.
      * rewrite I3 by exact Hout'. rewrite Hout. apply lookup_insert_eq.
      * eapply line_written_mono; eauto.
Qed.

End WorkerOutput.

(** X19. What a worker that returns has written (lines 126-164 and
    175-178). For every line of its range the output holds a row block
    in which each nodata pixel has the nodata value in every band and
    each other pixel has the evaluation [predict bhat (scale x)] of the
    model that the final cache holds for the label of the pixel. Every
    model of the cache is the fit at a pixel of the worker's own lines
    that carries the label and is not nodata: a worker starts from an
    empty cache and never evaluates a model of another label or of
    another worker. *)
Theorem worker_output_is_model_evaluation :
  forall tree_query inv inp nneighbors nodata_value start_line stop_line st,
    let res := _run_chunk tree_query inv inp nneighbors nodata_value
                 start_line stop_line st in
    let table := hash_table (fst res) in
    (forall label b,
        table !! label = Some b ->
        exists row col locs x,
          (start_line <= row < stop_line)%nat
          /\ input_locations inp !! row = Some locs
          /\ locs !! col = Some x
          /\ is_nodata nodata_value x = false
          /\ seg_index inp row col = Ok label
          /\ fit_model tree_query inv inp nneighbors (scale x) = Ok b)
    /\ (snd res = Ok tt ->
        forall row locs,
          (start_line <= row < stop_line)%nat ->
          input_locations inp !! row = Some locs ->
          exists block,
            output (fst res) !! row = Some block
            /\ forall col x,
                 locs !! col = Some x ->
                 exists v,
                   block !! col = Some v
                   /\ if is_nodata nodata_value x
                      then v = replicate (n_atm_bands inp) nodata_value
                      else exists label b,
                             seg_index inp row col = Ok label
                             /\ table !! label = Some b
                             /\ v = predict b (scale x)).
Proof.
  intros tq inv inp k nd start stop st res table.
  unfold table, res, _run_chunk.
  set (st0 := {| hash_table := ∅; output := output st; trace := trace st |}).
  destruct (run_rows_written tq inv inp k nd (chunk_rows (start, stop)) st0)
    as (_ & Hfit & _ & Hdone).
  split.
  - intros label b Hb. destruct (Hfit label b Hb) as [Hold|Hnew].
    + cbn in Hold. rewrite lookup_empty in Hold. discriminate.
    + destruct Hnew as (row & col & locs & x & Hr & Hl & Hx & Hf).
      apply elem_of_chunk_rows in Hr. exists row, col, locs, x. auto.
  - intros Hok row locs Hrow Hl.
    destruct (Hdone Hok row) as (locs' & block & Hl' & Hb & Hline).
    { now apply elem_of_chunk_rows. }
    rewrite Hl in Hl'. injection Hl' as <-.
    exists block. split; [exact Hb|]. intros col x Hx.
    destruct (Hline col x Hx) as (v & Hv & Hw). exists v. split; [exact Hv|].
    exact Hw.
Qed.

Lemma worker_output_is_model_evaluation_witness :
  let inp := scenario (Some two_labels) in
  let res := _run_chunk exhaustive_query cofactor_inv inp 5 default_nodata
               1 3 initial_state in
  exists block,
    output (fst res) !! 2%nat = Some block
    /\ forall col x,
         map (fun c => loc_of_Z 2 c 105) (seqZ 0 4) !! col = Some x ->
         exists v,
           block !! col = Some v
           /\ if is_nodata default_nodata x
              then v = replicate (n_atm_bands inp) default_nodata
              else exists label b,
                     seg_index inp 2 col = Ok label
                     /\ hash_table (fst res) !! label = Some b
                     /\ v = predict b (scale x).
Proof.
  intros inp res.
  apply (proj2 (worker_output_is_model_evaluation exhaustive_query
                  cofactor_inv inp 5 default_nodata 1%nat 3%nat
                  initial_state)).
  - vm_compute. reflexivity.
  - lia.
  - reflexivity.
Defined.

Lemma chunks_lookup sections i c :
  chunks sections !! i = Some c <->
  exists a b, sections !! i = Some a /\ sections !! S i = Some b
              /\ c = (Z.to_nat a, Z.to_nat b).
Proof.
  unfold chunks. rewrite lookup_zip_with_Some. split.
  - intros (x & y & -> & Hx & Hy).
    rewrite list_lookup_fmap in Hx, Hy. rewrite lookup_tail in Hy.
    destruct (sections !! i) as [a|]; [|discriminate].
    destruct (sections !! S i) as [b|]; [|discriminate].
    injection Hx as <-. injection Hy as <-. eauto.
  - intros (a & b & Ha & Hb & ->). exists (Z.to_nat a), (Z.to_nat b).
    rewrite !list_lookup_fmap, lookup_tail, Ha, Hb. auto.
Qed.

Lemma line_sections_section_at n k :
  1 <= k <= n -> n < 2 ^ 53 ->
  line_sections n k = Ok (map (section_at n k) (seqZ 0 (k + 1)))
  /\ section_at n k 0 = 0
  /\ section_at n k k = n
  /\ forall l, 0 <= l < k ->
       0 <= section_at n k l <= section_at n k (l + 1)
       /\ section_at n k (l + 1) <= n.
Proof.
  intros Hk Hn. unfold line_sections.
  rewrite linspace_cut_points by assumption.
  destruct (cut_points_monotone n k Hk Hn) as (_ & H0 & Hmono & Hle).
  cbn zeta in H0, Hmono, Hle. unfold section_at.
  set (cut := cut_point (fdiv (float_of_Z n) (float_of_Z k))) in *.
  split; [|split; [|split]].
  - f_equal. rewrite seqZ_app by lia.
    replace (seqZ (0 + k) 1) with [k] by (unfold seqZ; cbn; f_equal; lia).
    rewrite map_app. cbn [map]. rewrite Z.ltb_irrefl. f_equal.
    apply map_ext_in. intros l Hl. apply list_elem_of_In, elem_of_seqZ in Hl.
    destruct (Z.ltb_spec l k); [reflexivity|lia].
  - destruct (Z.ltb_spec 0 k); [exact H0|lia].
  - now rewrite Z.ltb_irrefl.
  - intros l Hl. destruct (Z.ltb_spec l k); [|lia].
    destruct (Z.ltb_spec (l + 1) k).
    + pose proof (Hmono l (l + 1) ltac:(lia) ltac:(lia)).
      pose proof (Hle (l + 1) ltac:(lia)). lia.
    + pose proof (Hmono l l ltac:(lia) ltac:(lia)).
      pose proof (Hle l ltac:(lia)). lia.
Qed.

Lemma lookup_map_seqZ (f : Z -> Z) (len : Z) (i : nat) (a : Z) :
  map f (seqZ 0 len) !! i = Some a -> Z.of_nat i < len /\ a = f (Z.of_nat i).
Proof.
  rewrite list_lookup_fmap. intros H.
  destruct (seqZ 0 len !! i) as [z|] eqn:Hz; [|discriminate].
  apply lookup_seqZ in Hz. injection H as <-. destruct Hz as [-> Hi].
  split; [lia | f_equal; lia].
Qed.

(** X9. The row ranges handed to the workers are well formed (lines
    255-266): for every worker count in [1, n_input_lines] the cut points
    start at 0 and end at [n_input_lines], and every range satisfies
    [start <= stop <= n_input_lines], so no worker is given a line
    outside the raster. *)
Theorem ranges_ordered_within_raster :
  forall n_input_lines n_cores,
    1 <= n_cores <= n_input_lines -> n_input_lines < 2 ^ 53 ->
    exists sections,
      line_sections n_input_lines n_cores = Ok sections
      /\ head sections = Some 0
      /\ last sections = Some n_input_lines
      /\ forall i c, chunks sections !! i = Some c ->
           (fst c <= snd c <= Z.to_nat n_input_lines)%nat.
Proof.
  intros n k Hk Hn.
  destruct (line_sections_section_at n k Hk Hn) as (Hsec & H0 & Hlast & Hmono).
  eexists. split; [exact Hsec|]. split; [|split].
  - rewrite (seqZ_cons 0) by lia. cbn [map head]. now rewrite H0.
  - rewrite seqZ_app by lia.
    replace (seqZ (0 + k) 1) with [k] by (unfold seqZ; cbn; f_equal; lia).
    rewrite map_app. cbn [map]. rewrite last_snoc. now rewrite Hlast.
  - intros i c Hc. apply chunks_lookup in Hc.
    destruct Hc as (a & b & Ha & Hb & ->). cbn [fst snd].
    apply lookup_map_seqZ in Ha, Hb. destruct Ha as [Hi ->], Hb as [Hi' ->].
    destruct (Hmono (Z.of_nat i) ltac:(lia)) as [H1 H2].
    replace (Z.of_nat (S i)) with (Z.of_nat i + 1) by lia. lia.
Qed.

Lemma ranges_ordered_within_raster_witness :
  exists sections,
    line_sections 30 22 = Ok sections
    /\ forall i c, chunks sections !! i = Some c -> (fst c <= snd c <= 30)%nat.
Proof.
  destruct (ranges_ordered_within_raster 30 22 ltac:(lia) ltac:(lia))
    as (sections & H1 & _ & _ & H2).
  exists sections. split; [exact H1 | exact H2].
Defined.

(** *** Smoothing band by band *)

Lemma row_set_other n m (row : list (list float)) : forall gr : list float,
  n <> m -> length gr = length row ->
  map (fun px => nth m px fzero) (zip_with (fun px v => <[n := v]> px) row gr)
  = map (fun px => nth m px fzero) row.
Proof.
  induction row as [|px row IH]; intros [|v gr] Hne Hlen; try discriminate;
    [reflexivity|].
  cbn [zip_with map]. f_equal.
  - rewrite !nth_lookup. now rewrite list_lookup_insert_ne.
  - apply IH; [exact Hne|]. now injection Hlen.
Qed.

Lemma row_set_same n (row : list (list float)) : forall gr : list float,
  length gr = length row ->
  Forall (fun px => (n < length px)%nat) row ->
  map (fun px => nth n px fzero) (zip_with (fun px v => <[n := v]> px) row gr)
  = gr.
Proof.
  induction row as [|px row IH]; intros [|v gr] Hlen Hall; try discriminate;
    [reflexivity|].
  inversion Hall as [|? ? Hpx Hrest]; subst.
  cbn [zip_with map]. f_equal.
  - rewrite nth_lookup. now rewrite list_lookup_insert_eq.
  - apply IH; [now injection Hlen | exact Hrest].
Qed.

Lemma row_set_lengths n k (row : list (list float)) : forall gr : list float,
  Forall (fun px => length px = k) row ->
  Forall (fun px => length px = k)
    (zip_with (fun px v => <[n := v]> px) row gr).
Proof.
  induction row as [|px row IH]; intros [|v gr] Hall; try constructor.
  - inversion Hall; subst. now rewrite length_insert.
  - apply IH. now inversion Hall.
Qed.

Lemma band_of_extent img n : map length (band_of img n) = map length img.
Proof.
  unfold band_of. rewrite map_map. apply map_ext. intros row.
  apply length_map.
Qed.

Lemma set_band_extent n img : forall g : grid,
  map length g = map length img ->
  map length (set_band img n g) = map length img.
Proof.
  unfold set_band. induction img as [|row img IH]; intros [|gr g] H;
    try discriminate; [reflexivity|].
  cbn [map] in H. injection H as Hrow H.
  cbn [zip_with map]. f_equal; [|now apply IH].
  now apply length_zip_with_l_eq.
Qed.

Lemma set_band_pixels n k img : forall g : grid,
  Forall (Forall (fun px : list float => length px = k)) img ->
  Forall (Forall (fun px : list float => length px = k)) (set_band img n g).
Proof.
  unfold set_band. induction img as [|row img IH]; intros [|gr g] Hall;
    try constructor.
  - apply row_set_lengths. now inversion Hall.
  - apply IH. now inversion Hall.
Qed.

Lemma set_band_other n m img : forall g : grid,
  n <> m -> map length g = map length img ->
  band_of (set_band img n g) m = band_of img m.
Proof.
  unfold band_of, set_band. induction img as [|row img IH]; intros [|gr g] Hne H;
    try discriminate; [reflexivity|].
  cbn [map] in H. injection H as Hrow H.
  cbn [zip_with map]. f_equal; [|now apply IH].
  now apply row_set_other.
Qed.

Lemma set_band_same n k img : forall g : grid,
  (n < k)%nat ->
  Forall (Forall (fun px : list float => length px = k)) img ->
  map length g = map length img ->
  band_of (set_band img n g) n = g.
Proof.
  unfold band_of, set_band. induction img as [|row img IH];
    intros [|gr g] Hn Hall H; try discriminate; [reflexivity|].
  cbn [map] in H. injection H as Hrow H.
  inversion Hall as [|? ? Hpx Hrest]; subst.
  cbn [zip_with map]. f_equal; [|now apply IH].
  apply row_set_same; [exact Hrow|].
  eapply Forall_impl; [exact Hpx|]. cbv beta. intros px ->. exact Hn.
Qed.

Lemma map_map_extent {A B} (f : A -> B) (V : list (list A)) :
  map length (map (map f) V) = map length V.
Proof. rewrite map_map. apply map_ext. intros row. apply length_map. Qed.

Lemma zip_with_extent {A B C} (f : A -> B -> C) (V : list (list A)) :
  forall Wg : list (list B),
    map length Wg = map length V ->
    map length (zip_with (zip_with f) V Wg) = map length V.
Proof.
  induction V as [|row V IH]; intros [|r Wg] H; try discriminate;
    [reflexivity|].
  cbn [map] in H. injection H as Hrow H.
  cbn [zip_with map]. f_equal; [|now apply IH].
  now apply length_zip_with_l_eq.
Qed.

Lemma smooth_band_extent gaussian_filter sigma V :
  (forall g, map length g = map length V ->
             map length (gaussian_filter g sigma) = map length g) ->
  map length (smooth_band gaussian_filter sigma V) = map length V.
Proof.
  intros Hgf. unfold smooth_band.
  assert (HV : map length (gaussian_filter (zero_nulls V) sigma)
               = map length V).
  { rewrite Hgf; rewrite zero_nulls_pointwise; apply map_map_extent. }
  assert (HW : map length (gaussian_filter (validity_mask V) sigma)
               = map length V).
  { rewrite Hgf; rewrite validity_mask_pointwise; apply map_map_extent. }
  rewrite zip_with_extent; congruence.
Qed.

Lemma smooth_fold gaussian_filter sigma k (ext : list nat) ns :
  (forall g, map length g = ext ->
             map length (gaussian_filter g sigma) = map length g) ->
  NoDup ns -> Forall (fun n => (n < k)%nat) ns ->
  forall img,
    map length img = ext ->
    Forall (Forall (fun px : list float => length px = k)) img ->
    let r := fold_left
               (fun im n =>
                  set_band im n
                    (smooth_band gaussian_filter sigma (band_of im n)))
               ns img in
    map length r = ext
    /\ Forall (Forall (fun px : list float => length px = k)) r
    /\ forall n,
         band_of r n
         = if bool_decide (n ∈ ns)
           then smooth_band gaussian_filter sigma (band_of img n)
           else band_of img n.
Proof.
  intros Hgf. induction ns as [|m ns IH]; intros Hnd Hlt img Hext Hpx;
    cbv zeta.
  - cbn [fold_left]. split; [exact Hext|]. split; [exact Hpx|].
    intros n. rewrite bool_decide_false; [reflexivity|]. inversion 1.
  - cbn [fold_left].
    apply NoDup_cons in Hnd. destruct Hnd as [Hm Hnd].
    apply Forall_cons in Hlt. destruct Hlt as [Hmk Hlt].
    set (g := smooth_band gaussian_filter sigma (band_of img m)).
    assert (Hg : map length g = map length img).
    { unfold g. rewrite smooth_band_extent; [apply band_of_extent|].
      intros g' Hg'. apply Hgf. rewrite Hg', band_of_extent. exact Hext. }
    destruct (IH Hnd Hlt (set_band img m g)) as (Hext' & Hpx' & Hbands).
    { rewrite set_band_extent; assumption. }
    { now apply set_band_pixels. }
    split; [exact Hext'|]. split; [exact Hpx'|].
    intros n. rewrite Hbands.
    destruct (decide (n = m)) as [->|Hne].
    + rewrite (bool_decide_false (m ∈ ns)) by exact Hm.
      rewrite (bool_decide_true (m ∈ m :: ns)) by (now left).
      eapply set_band_same; eauto.
    + rewrite (set_band_other m n img g) by auto.
      destruct (decide (n ∈ ns)) as [Hin|Hout].
      * rewrite !bool_decide_true; [reflexivity| now right | exact Hin].
      * rewrite !bool_decide_false; [reflexivity| | exact Hout].
        intros H. apply elem_of_cons in H. tauto.
Qed.

(** X12. The smoothing loop treats the bands independently (lines
    279-290). On a raster whose pixels all have [n_bands] values, with a
    filter that keeps the extent of a grid, the smoothed raster has the
    extent and the pixel length of the input, and its band [n] is the
    normalised convolution of band [n] of the input alone: smoothing one
    band never changes what another band is smoothed from. *)
Theorem smoothing_is_per_band :
  forall gaussian_filter sigma n_bands img,
    (forall g, map length g = map length img ->
               map length (gaussian_filter g sigma) = map length g) ->
    Forall (Forall (fun px : list float => length px = n_bands)) img ->
    let smoothed := smooth_bands gaussian_filter sigma n_bands img in
    map length smoothed = map length img
    /\ Forall (Forall (fun px : list float => length px = n_bands)) smoothed
    /\ forall n, (n < n_bands)%nat ->
         band_of smoothed n
         = smooth_band gaussian_filter sigma (band_of img n).
Proof.
  intros gf sigma k img Hgf Hpx. cbv zeta. unfold smooth_bands.
  destruct (smooth_fold gf sigma k (map length img) (seq 0 k) Hgf
              (NoDup_seq 0 k)) with (img := img) as (H1 & H2 & H3);
    [ | reflexivity | exact Hpx | ].
  { apply Forall_forall. intros n Hn. apply elem_of_seq in Hn. lia. }
  split; [exact H1|]. split; [exact H2|].
  intros n Hn. rewrite H3, bool_decide_true; [reflexivity|].
  apply elem_of_seq. lia.
Qed.

Lemma smoothing_is_per_band_witness :
  let img := [ [ [float_of_Z 1; float_of_Z 5]; [default_nodata; float_of_Z 6] ];
               [ [float_of_Z 3; float_of_Z 7]; [float_of_Z 4; default_nodata] ] ] in
  band_of (smooth_bands (kernel_filter [fone]) fone 2 img) 1
  = smooth_band (kernel_filter [fone]) fone (band_of img 1).
Proof.
  intros img.
  apply (smoothing_is_per_band (kernel_filter [fone]) fone 2%nat img).
  - intros g Hg.
    destruct g as [|[|a [|b [|]]] [|[|c [|d [|]]] [|]]]; try discriminate.
    reflexivity.
  - repeat constructor.
  - lia.
Defined.

(** *** Lines without data *)

Lemma only_passed_through_refl st : only_passed_through st st.
Proof. split; [reflexivity|]. exists []. now rewrite app_nil_r. Qed.

Lemma only_passed_through_trans st0 st1 st2 :
  only_passed_through st0 st1 -> only_passed_through st1 st2 ->
  only_passed_through st0 st2.
Proof.
  intros [Ht1 (e1 & Htr1 & He1)] [Ht2 (e2 & Htr2 & He2)].
  split; [congruence|]. exists (e1 ++ e2).
  rewrite Htr2, Htr1, app_assoc, forallb_app, He1, He2. auto.
Qed.

Section NodataLines.

Variable tree_query : list location -> location -> Z -> result nn_result.
Variable inv : matrix -> result matrix.
Variable inp : inputs.
Variable nneighbors : Z.
Variable nodata_value : float.

Local Abbreviation cols :=
  (run_cols tree_query inv inp nneighbors nodata_value).
Local Abbreviation line :=
  (run_row tree_query inv inp nneighbors nodata_value).
Local Abbreviation lines :=
  (run_rows tree_query inv inp nneighbors nodata_value).

Lemma run_cols_all_nodata row xs : forall col st,
  Forall (fun x => is_nodata nodata_value x = true) xs ->
  exists st',
    cols row col xs st = (st', Ok (nodata_block inp nodata_value xs))
    /\ output st' = output st
    /\ only_passed_through st st'.
Proof.
  induction xs as [|x rest IH]; intros col st Hall.
  - exists st. split; [reflexivity|]. split; [reflexivity|].
    apply only_passed_through_refl.
  - inversion Hall as [|? ? Hx Hrest]; subst.
    cbn [run_cols]. rewrite wbind_eq.
    rewrite nodata_pixel_step by exact Hx.
    destruct (IH (S col) (log (EvNodata row col) st) Hrest)
      as (st' & Hrun & Hout & Hpass).
    exists st'. rewrite wbind_eq, Hrun. split; [reflexivity|].
    split; [exact Hout|].
    eapply only_passed_through_trans; [|exact Hpass].
    split; [reflexivity|]. exists [EvNodata row col]. auto.
Qed.

Lemma run_row_all_nodata row locs st :
  input_locations inp !! row = Some locs ->
  Forall (fun x => is_nodata nodata_value x = true) locs ->
  exists st',
    line row st = (st', Ok tt)
    /\ output st' = <[row := nodata_block inp nodata_value locs]> (output st)
    /\ only_passed_through st st'.
Proof.
  intros Hlocs Hall. unfold run_row. rewrite wbind_eq. unfold lift.
  apply index_ok in Hlocs. rewrite Hlocs.
  destruct (run_cols_all_nodata row locs 0%nat st Hall)
    as (st1 & Hrun & Hout & Hpass).
  rewrite wbind_eq, Hrun. eexists. split; [reflexivity|].
  split; [cbn; now rewrite Hout|].
  destruct Hpass as [Ht Htr]. split; assumption.
Qed.

Lemma run_rows_all_nodata rows : forall st,
  (forall r, r ∈ rows ->
     exists locs, input_locations inp !! r = Some locs
                  /\ Forall (fun x => is_nodata nodata_value x = true) locs) ->
  exists st',
    lines rows st = (st', Ok tt)
    /\ only_passed_through st st'
    /\ (forall r, r ∉ rows -> output st' !! r = output st !! r)
    /\ forall r locs,
         r ∈ rows -> input_locations inp !! r = Some locs ->
         output st' !! r = Some (nodata_block inp nodata_value locs).
Proof.
  induction rows as [|r0 rest IH]; intros st Hall.
  - exists st. split; [reflexivity|].
    split; [apply only_passed_through_refl|]. split; [reflexivity|].
    intros r locs Hr. inversion Hr.
  - destruct (Hall r0 ltac:(left)) as (locs0 & Hl0 & Hnd0).
    destruct (run_row_all_nodata r0 locs0 st Hl0 Hnd0)
      as (st1 & Hrow & Hout1 & Hpass1).
    destruct (IH st1) as (st2 & Hrest & Hpass2 & Hframe & Hdone).
    { intros r Hr. apply Hall. now right. }
    exists st2. cbn [run_rows]. rewrite wbind_eq, Hrow.
    split; [exact Hrest|].
    split; [eapply only_passed_through_trans; eauto|]. split.
    + intros r Hr. apply not_elem_of_cons in Hr. destruct Hr as [Hne Hr].
      rewrite Hframe by exact Hr. rewrite Hout1. now apply lookup_insert_ne.
    + intros r locs Hr Hl.
      destruct (decide (r ∈ rest)) as [Hin|Hnotin]; [now apply Hdone|].
      apply elem_of_cons in Hr. destruct Hr as [->|Hr]; [|contradiction].
      rewrite Hframe by exact Hnotin. rewrite Hout1, lookup_insert_eq.
      congruence.
Qed.

End NodataLines.

(** X13. Lines without data need nothing but the locations (lines
    126-129). If every line of a worker's range exists and all its pixels
    are nodata, the worker returns, whatever the segmentation raster (if
    any), the index and [inv] are; it writes the nodata value for every
    band of every pixel of these lines, and it has performed no query, no
    fit and no evaluation: every event it records is a passed-through
    pixel and its cache is still empty. *)
Theorem all_nodata_lines_are_passed_through :
  forall tree_query inv inp nneighbors nodata_value start_line stop_line st,
    (forall row, (start_line <= row < stop_line)%nat ->
       exists locs,
         input_locations inp !! row = Some locs
         /\ Forall (fun x => is_nodata nodata_value x = true) locs) ->
    let res := _run_chunk tree_query inv inp nneighbors nodata_value
                 start_line stop_line st in
    snd res = Ok tt
    /\ hash_table (fst res) = ∅
    /\ (exists evs, trace (fst res) = trace st ++ evs
                    /\ forallb is_nodata_event evs = true)
    /\ forall row locs,
         (start_line <= row < stop_line)%nat ->
         input_locations inp !! row = Some locs ->
         output (fst res) !! row
         = Some (replicate (length locs)
                   (replicate (n_atm_bands inp) nodata_value)).
Proof.
  intros tq inv inp k nd start stop st Hall res. unfold res, _run_chunk.
  set (st0 := {| hash_table := ∅; output := output st; trace := trace st |}).
  destruct (run_rows_all_nodata tq inv inp k nd
              (chunk_rows (start, stop)) st0)
    as (st' & Hrun & [Ht Htr] & _ & Hdone).
  { intros r Hr. apply Hall. now apply elem_of_chunk_rows in Hr. }
  rewrite Hrun. cbn [fst snd]. split; [reflexivity|].
  split; [exact Ht|]. split; [exact Htr|].
  intros row locs Hrow Hl. apply Hdone; [|exact Hl].
  now apply elem_of_chunk_rows.
Qed.

Lemma all_nodata_lines_are_passed_through_witness :
  let line := replicate 3 {| lat := default_nodata; lon := default_nodata;
                             elev := default_nodata |} in
  let inp := {| band_names := scenario_names;
                reference_state_full := scenario_state;
                reference_locations := scenario_reference;
                input_locations := [line; line];
                segmentation := None |} in
  snd (_run_chunk exhaustive_query cofactor_inv inp 5 default_nodata 0 2
         initial_state) = Ok tt.
Proof.
  intros line inp.
  apply (all_nodata_lines_are_passed_through exhaustive_query cofactor_inv
           inp 5 default_nodata 0%nat 2%nat initial_state).
  intros row Hrow. exists line.
  destruct row as [|[|row]]; [| |lia];
    (split; [reflexivity | repeat constructor]).
Defined.

(** *** A missing segmentation raster *)

Section NoSegmentation.

Variable tree_query : list location -> location -> Z -> result nn_result.
Variable inv : matrix -> result matrix.
Variable inp : inputs.
Variable nneighbors : Z.
Variable nodata_value : float.

Hypothesis no_segmentation : segmentation inp = None.

(** What a computation can end with: it returns, or it raises
    [TypeError]. *)
Local Abbreviation type_error_only m :=
  (forall st, match snd (m st) with
              | Ok _ => True
              | Raise e => e = TypeError
              end).

Lemma process_pixel_type_error row col x :
  type_error_only
    (process_pixel tree_query inv inp nneighbors nodata_value row col x).
Proof.
  intros st. destruct (is_nodata nodata_value x) eqn:Hx.
  - now rewrite nodata_pixel_step.
  - erewrite pixel_seg_raise; [reflexivity | exact Hx |].
    unfold seg_index. now rewrite no_segmentation.
Qed.

Lemma run_cols_type_error row xs : forall col,
  type_error_only
    (run_cols tree_query inv inp nneighbors nodata_value row col xs).
Proof.
  induction xs as [|x rest IH]; intros col st; [exact I|].
  cbn [run_cols]. rewrite wbind_eq.
  pose proof (process_pixel_type_error row col x st) as Hpx.
  destruct (process_pixel _ _ _ _ _ row col x st) as [st1 [v|e]];
    [|exact Hpx].
  rewrite wbind_eq. specialize (IH (S col) st1).
  destruct (run_cols _ _ _ _ _ row (S col) rest st1) as [st2 [vs|e]];
    [exact I | exact IH].
Qed.

Lemma run_rows_type_error rows :
  (forall r, r ∈ rows -> is_Some (input_locations inp !! r)) ->
  type_error_only
    (run_rows tree_query inv inp nneighbors nodata_value rows).
Proof.
  induction rows as [|r0 rest IH]; intros Hrows st; [exact I|].
  cbn [run_rows]. rewrite wbind_eq. unfold run_row at 1.
  rewrite wbind_eq. unfold lift at 1.
  destruct (Hrows r0 ltac:(left)) as [locs Hl].
  apply index_ok in Hl. rewrite Hl. rewrite wbind_eq.
  pose proof (run_cols_type_error r0 locs 0%nat st) as Hc.
  destruct (run_cols _ _ _ _ _ r0 0%nat locs st) as [st1 [block|e]];
    [|exact Hc].
  cbn [write_block]. apply IH. intros r Hr. apply Hrows. now right.
Qed.

End NoSegmentation.

(** X14. Without a segmentation file, a worker whose lines all exist and
    contain at least one pixel that is not nodata raises [TypeError]: the
    subscript of line 134 is applied to [None], before any query or
    fit. *)
Theorem no_segmentation_worker_raises_type_error :
  forall tree_query inv inp nneighbors nodata_value start_line stop_line st
         row col locs x,
    segmentation inp = None ->
    (forall r, (start_line <= r < stop_line)%nat ->
               is_Some (input_locations inp !! r)) ->
    (start_line <= row < stop_line)%nat ->
    input_locations inp !! row = Some locs ->
    locs !! col = Some x ->
    is_nodata nodata_value x = false ->
    snd (_run_chunk tree_query inv inp nneighbors nodata_value
           start_line stop_line st) = Raise TypeError.
Proof.
  intros tq inv inp k nd start stop st row col locs x Hseg Hrows Hrow Hl Hx Hnd.
  pose proof (run_chunk_spec tq inv inp k nd start stop st) as [_ Hdone].
  cbv zeta in Hdone.
  assert (Hte : match snd (_run_chunk tq inv inp k nd start stop st) with
                | Ok _ => True
                | Raise e => e = TypeError
                end).
  { unfold _run_chunk. apply run_rows_type_error; [exact Hseg|].
    intros r Hr. apply Hrows. now apply elem_of_chunk_rows in Hr. }
  destruct (snd (_run_chunk tq inv inp k nd start stop st)) as [[]|e].
  - exfalso. destruct (Hdone eq_refl row Hrow) as (_ & locs' & Hl' & Hlab).
    rewrite Hl in Hl'. injection Hl' as <-.
    destruct (Hlab col x Hx Hnd) as (label & Hlabel).
    unfold seg_index in Hlabel. rewrite Hseg in Hlabel. discriminate.
  - now subst.
Qed.

Lemma no_segmentation_worker_raises_type_error_witness :
  snd (_run_chunk exhaustive_query cofactor_inv (scenario None) 5
         default_nodata 0 4 initial_state) = Raise TypeError.
Proof.
  apply (no_segmentation_worker_raises_type_error exhaustive_query
           cofactor_inv (scenario None) 5 default_nodata 0%nat 4%nat
           initial_state 1%nat 2%nat
           (map (fun c => loc_of_Z 1 c 105) (seqZ 0 4)) (loc_of_Z 1 2 105)).
  - reflexivity.
  - intros r Hr. destruct r as [|[|[|[|r]]]]; [| | | |lia]; eexists; reflexivity.
  - lia.
  - reflexivity.
  - reflexivity.
  - vm_compute. reflexivity.
Defined.

(** *** The raster through the smoothing pass *)

Lemma lookup_list_to_map_imap {A} (l : list A) : forall (k r : nat),
  (list_to_map (imap (fun i x => (k + i, x)%nat) l) : gmap nat A) !! (k + r)%nat
  = l !! r.
Proof.
  induction l as [|a l IH]; intros k r.
  - cbn. apply lookup_empty.
  - cbn [imap list_to_map foldr fst snd]. destruct r as [|r].
    + rewrite Nat.add_0_r. cbn. apply lookup_insert_eq.
    + rewrite lookup_insert_ne by lia.
      change ((a :: l) !! S r) with (l !! r).
      rewrite <- (IH (S k) r).
      replace (k + S r)%nat with (S k + r)%nat by lia.
      f_equal. f_equal. apply imap_ext. intros i x _. cbn. f_equal. lia.
Qed.

Lemma lookup_write_raster img st r :
  output (fst (write_raster img st)) !! r = img !! r.
Proof.
  unfold write_raster. cbn [fst output].
  exact (lookup_list_to_map_imap img 0 r).
Qed.

Lemma read_raster_lookup inp st r locs :
  input_locations inp !! r = Some locs ->
  read_raster inp st !! r
  = Some (default (replicate (n_input_samples inp)
                     (replicate (n_atm_bands inp) fzero))
            (output st !! r)).
Proof.
  intros Hl. unfold read_raster.
  rewrite list_lookup_fmap, lookup_seq_lt; [reflexivity|].
  now apply lookup_lt_Some in Hl.
Qed.

Lemma read_raster_shape inp st :
  (forall row locs,
      input_locations inp !! row = Some locs ->
      exists block,
        output st !! row = Some block
        /\ length block = length locs
        /\ Forall (fun v => length v = n_atm_bands inp) block) ->
  map length (read_raster inp st) = map length (input_locations inp)
  /\ Forall (Forall (fun px : list float => length px = n_atm_bands inp))
       (read_raster inp st).
Proof.
  intros H. split.
  - apply list_eq. intros r. rewrite !list_lookup_fmap.
    destruct (input_locations inp !! r) as [locs|] eqn:Hl.
    + rewrite (read_raster_lookup inp st r locs Hl).
      destruct (H r locs Hl) as (block & -> & Hlen & _). cbn. now rewrite Hlen.
    + cbn. apply lookup_ge_None in Hl.
      rewrite (proj2 (lookup_ge_None _ _)); [reflexivity|].
      unfold read_raster. now rewrite length_map, length_seq.
  - apply Forall_lookup. intros r b Hb.
    assert (Hr : (r < length (input_locations inp))%nat).
    { apply lookup_lt_Some in Hb. unfold read_raster in Hb.
      now rewrite length_map, length_seq in Hb. }
    destruct (lookup_lt_is_Some_2 _ _ Hr) as [locs Hl].
    rewrite (read_raster_lookup inp st r locs Hl) in Hb.
    destruct (H r locs Hl) as (block & Hblock & _ & Hall).
    rewrite Hblock in Hb. cbn in Hb. now injection Hb as <-.
Qed.

(** X15. The smoothing pass keeps the shape of the raster (lines
    276-293). On a raster in which every input line has its row block
    (one vector per sample, one value per atmosphere band), with a filter
    that keeps the extent of a grid, the pass returns and leaves every
    line with a row block of the same shape; when smoothing is enabled
    the raster read back after the pass is the smoothed copy of the raster
    read before it, and otherwise the state is unchanged. *)
Theorem smoothing_keeps_raster_shape :
  forall gaussian_filter inp sigma st,
    (forall g, map length g = map length (input_locations inp) ->
               map length (gaussian_filter g sigma) = map length g) ->
    (forall row locs,
        input_locations inp !! row = Some locs ->
        exists block,
          output st !! row = Some block
          /\ length block = length locs
          /\ Forall (fun v => length v = n_atm_bands inp) block) ->
    let res := smoother gaussian_filter inp sigma st in
    snd res = Ok tt
    /\ (forall row locs,
           input_locations inp !! row = Some locs ->
           exists block,
             output (fst res) !! row = Some block
             /\ length block = length locs
             /\ Forall (fun v => length v = n_atm_bands inp) block)
    /\ (if fltb fzero sigma
        then read_raster inp (fst res)
             = smooth_bands gaussian_filter sigma (n_atm_bands inp)
                 (read_raster inp st)
        else fst res = st).
Proof.
  intros gf inp sigma st Hgf Hst res. unfold res, smoother.
  destruct (fltb fzero sigma); [|cbn [fst snd]; auto].
  destruct (read_raster_shape inp st Hst) as [Hext Hpx].
  set (img := read_raster inp st) in *.
  destruct (smooth_fold gf sigma (n_atm_bands inp)
              (map length (input_locations inp))
              (seq 0 (n_atm_bands inp)) Hgf (NoDup_seq 0 _))
    with (img := img) as (Hext' & Hpx' & _); [ | exact Hext | exact Hpx | ].
  { apply Forall_forall. intros n Hn. apply elem_of_seq in Hn. lia. }
  fold (smooth_bands gf sigma (n_atm_bands inp) img) in Hext', Hpx'.
  set (smoothed := smooth_bands gf sigma (n_atm_bands inp) img) in *.
  assert (Hrows : forall row locs,
             input_locations inp !! row = Some locs ->
             exists block,
               smoothed !! row = Some block
               /\ length block = length locs
               /\ Forall (fun v => length v = n_atm_bands inp) block).
  { intros row locs Hl.
    assert (Hlen : map length smoothed !! row = Some (length locs)).
    { rewrite Hext', list_lookup_fmap, Hl. reflexivity. }
    rewrite list_lookup_fmap in Hlen.
    destruct (smoothed !! row) as [block|] eqn:Hb; [|discriminate].
    exists block. split; [reflexivity|]. split; [now injection Hlen|].
    eapply Forall_lookup_1; eauto. }
  split; [reflexivity|]. split.
  - intros row locs Hl. rewrite lookup_write_raster. now apply Hrows.
  - apply list_eq. intros r.
    destruct (input_locations inp !! r) as [locs|] eqn:Hl.
    + rewrite (read_raster_lookup inp _ r locs Hl), lookup_write_raster.
      destruct (Hrows r locs Hl) as (block & -> & _). reflexivity.
    + apply lookup_ge_None in Hl.
      rewrite !(proj2 (lookup_ge_None _ _)); [reflexivity | |].
      * rewrite <- (length_map length smoothed), Hext', length_map. exact Hl.
      * unfold read_raster. now rewrite length_map, length_seq.
Qed.

Lemma smoothing_keeps_raster_shape_witness :
  let inp := scenario (Some two_labels) in
  let st := fst (_run_chunk exhaustive_query cofactor_inv inp 5
                   default_nodata 0 4 initial_state) in
  snd (smoother (fun g _ => g) inp fone st) = Ok tt.
Proof.
  intros inp st.
  apply (smoothing_keeps_raster_shape (fun g _ => g) inp fone st).
  - reflexivity.
  - intros row locs Hl.
    destruct row as [|[|[|[|row]]]]; [| | | |discriminate];
      injection Hl as <-; eexists; (split; [vm_compute; reflexivity|]);
      (split; [reflexivity | repeat constructor]).
Defined.

(** *** The sizes of the row ranges *)

Lemma round_new_location_half q B r :
  0 < B -> 0 <= r < B ->
  let m1 := round_nearest_even q (new_location B r) in
  (m1 = q /\ 2 * r <= B) \/ m1 = q + 1.
Proof.
  intros HB Hr. unfold new_location, new_location_even, new_location_odd.
  destruct (Z.even B); destruct (Z.eqb_spec r 0) as [E|E]; cbn zeta;
    try (left; split; [reflexivity | lia]).
  - destruct (Z.compare_spec (2 * r) B) as [C|C|C]; cbn [round_nearest_even].
    + destruct (Z.even q); [left; split; [reflexivity|lia] | right; reflexivity].
    + left; split; [reflexivity|lia].
    + right; reflexivity.
  - destruct (Z.compare_spec (2 * r + 1) B) as [C|C|C]; cbn [round_nearest_even].
    + left; split; [reflexivity|lia].
    + left; split; [reflexivity|lia].
    + right; reflexivity.
Qed.

Lemma new_location_exact B r :
  new_location B r = loc_Exact -> r = 0.
Proof.
  unfold new_location, new_location_even, new_location_odd.
  destruct (Z.even B); destruct (Z.eqb_spec r 0); congruence.
Qed.

Lemma round_after_shift_half q B r :
  0 <= q ->
  let m1 := round_nearest_even (q / 2)
              (loc_of_shr_record
                 (shr_1 (shr_record_of_loc q (new_location B r)))) in
  q <= 2 * m1 \/ (2 * m1 = q - 1 /\ r = 0).
Proof.
  intros Hq. cbv zeta.
  pose proof (Z.div_mod q 2 ltac:(lia)) as Hdm.
  pose proof (Zmod_odd q) as Hodd.
  destruct (new_location B r) as [|[]] eqn:Hloc; cbn [shr_record_of_loc];
    rewrite shr_1_nonneg by exact Hq; cbn [loc_of_shr_record orb].
  - apply new_location_exact in Hloc.
    destruct (Z.odd q); cbn [round_nearest_even].
    + destruct (Z.even (q / 2)); [right | left]; lia.
    + left. lia.
  - destruct (Z.odd q); cbn [round_nearest_even]; left; lia.
  - destruct (Z.odd q); cbn [round_nearest_even]; left; lia.
  - destruct (Z.odd q); cbn [round_nearest_even]; left; lia.
Qed.

(** The step [fl (n / k)] of the cut points, as an integer multiple [S] of
    [2^-53]: its integer part is [n / k], and it is within half a unit in
    the last place of the quotient. *)
Lemma fdiv_of_Z_bounds n k :
  1 <= k <= n -> n < 2 ^ 53 ->
  exists ms es,
    fdiv (float_of_Z n) (float_of_Z k) = S754_finite false ms es
    /\ -53 <= es <= 1
    /\ Z.pos ms < 2 ^ 53
    /\ n / k * 2 ^ 53 <= Z.pos ms * 2 ^ (es + 53)
    /\ n * (2 ^ 53 - 1) <= Z.pos ms * 2 ^ (es + 53) * k
    /\ Z.pos ms * 2 ^ (es + 53) * k <= n * (2 ^ 53 + 1).
Proof.
  intros Hk Hn.
  destruct (float_of_Z_canonical n ltac:(lia)) as (mn & En & Hmn & Hdn).
  destruct (float_of_Z_canonical k ltac:(lia)) as (mk & Ek & Hmk & Hdk).
  pose proof (digits_le_mono k n ltac:(lia)) as Hdd.
  pose proof (digits_le_53 n ltac:(lia)) as Hn53.
  pose proof (digits_pos k ltac:(lia)) as Hk1.
  set (dn := digits n) in *. set (dk := digits k) in *.
  unfold fdiv. rewrite En, Ek. unfold SFdiv, SFdiv_core_binary.
  rewrite !Zdigits2_digits, Hdn, Hdk by lia.
  replace (53 + (dn - 53) - (53 + (dk - 53))) with (dn - dk) by lia.
  rewrite fexp_normal by lia.
  replace (Z.min (dn - dk - 53) (dn - 53 - (dk - 53))) with (dn - dk - 53) by lia.
  replace (dn - 53 - (dk - 53) - (dn - dk - 53)) with 53 by lia.
  cbv iota. rewrite Z.shiftl_mul_pow2 by lia.
  pose proof (digits_bounds (Z.pos mn) ltac:(lia)) as HA.
  pose proof (digits_bounds (Z.pos mk) ltac:(lia)) as HB.
  rewrite Hdn in HA. rewrite Hdk in HB.
  change (2 ^ (53 - 1)) with (2 ^ 52) in HA, HB.
  pose proof (Z_div_mod (Z.pos mn * 2 ^ 53) (Z.pos mk) ltac:(lia)) as Hdiv.
  destruct (Z.div_eucl (Z.pos mn * 2 ^ 53) (Z.pos mk)) as [q r].
  destruct Hdiv as [Hqr Hr]. cbn [xorb].
  set (A := Z.pos mn) in *. set (B := Z.pos mk) in *.
  assert (Hq : 2 ^ 52 <= q < 2 ^ 54) by (split; nia).
  set (e' := dn - dk - 53).
  assert (Hp1 : 0 < 2 ^ (53 - dn)) by (apply Z.pow_pos_nonneg; lia).
  assert (Hp2 : 0 < 2 ^ (dn - dk)) by (apply Z.pow_pos_nonneg; lia).
  assert (HB2 : B = k * 2 ^ (dn - dk) * 2 ^ (53 - dn)).
  { rewrite Hmk, <- Z.mul_assoc, <- Z.pow_add_r by lia.
    do 2 f_equal. lia. }
  (* the integer part of the quotient, scaled like [q / 2] *)
  set (Q := n / k).
  assert (HQ : Q * k <= n < (Q + 1) * k).
  { unfold Q. pose proof (Z.div_mod n k ltac:(lia)).
    pose proof (Z.mod_pos_bound n k ltac:(lia)). nia. }
  assert (Hp3 : 0 < 2 ^ (52 - dn + dk)) by (apply Z.pow_pos_nonneg; lia).
  assert (H53 : 2 ^ (52 - dn + dk) * 2 * 2 ^ (dn - dk) = 2 ^ 53).
  { rewrite <- (Z.pow_1_r 2) at 2. rewrite <- !Z.pow_add_r by lia.
    f_equal. lia. }
  set (X := Q * 2 ^ (52 - dn + dk)).
  assert (HX : 2 * X <= q).
  { assert (2 * X * B <= A * 2 ^ 53).
    { unfold X. rewrite HB2, Hmn. fold dn.
      replace (2 * (Q * 2 ^ (52 - dn + dk))
               * (k * 2 ^ (dn - dk) * 2 ^ (53 - dn)))
        with (Q * k * (2 ^ (52 - dn + dk) * 2 * 2 ^ (dn - dk)) * 2 ^ (53 - dn))
        by ring.
      rewrite H53. clear -HQ Hp1. nia. }
    clear -H Hqr Hr. nia. }
  rewrite binary_round_aux_finish.
  destruct (Z.ltb_spec q (2 ^ 53)) as [Hlt|Hge].
  - (* no shift *)
    assert (Hdq : digits q = 53) by (apply digits_unique; lia).
    rewrite shr_fexp_53 by (unfold e'; lia).
    cbn [fst snd]. rewrite shr_m_record_of_loc, loc_of_shr_record_of_loc.
    pose proof (round_new_location q B r ltac:(lia) Hr) as Hm1.
    pose proof (round_new_location_half q B r ltac:(lia) Hr) as Hm1'.
    cbn zeta in Hm1, Hm1'.
    set (m1 := round_nearest_even q (new_location B r)) in *.
    destruct (finish_spec m1 e') as (ms & es & Hf & Hes & Hv & Hms);
      [lia | unfold e'; lia |].
    exists ms, es. rewrite Hf.
    assert (HS : Z.pos ms * 2 ^ (es + 53) = m1 * 2 ^ (dn - dk)).
    { replace (es + 53) with (es - e' + (dn - dk)) by (unfold e'; lia).
      rewrite Z.pow_add_r, Z.mul_assoc, Hv by (unfold e' in *; lia).
      reflexivity. }
    rewrite HS.
    split; [reflexivity|]. split; [unfold e' in *; lia|]. split; [lia|].
    split; [|split].
    + fold Q. rewrite <- H53.
      replace (Q * (2 ^ (52 - dn + dk) * 2 * 2 ^ (dn - dk)))
        with (2 * X * 2 ^ (dn - dk)) by (unfold X; ring).
      apply Z.mul_le_mono_nonneg_r; lia.
    + apply (Z.mul_le_mono_pos_r _ _ (2 ^ (53 - dn)) Hp1).
      replace (m1 * 2 ^ (dn - dk) * k * 2 ^ (53 - dn)) with (m1 * B)
        by (rewrite HB2; ring).
      replace (n * (2 ^ 53 - 1) * 2 ^ (53 - dn)) with (A * 2 ^ 53 - A)
        by (rewrite Hmn; ring).
      clear -Hm1' Hqr Hr HA HB.
      destruct Hm1' as [[-> Hhalf]| ->]; nia.
    + apply (Z.mul_le_mono_pos_r _ _ (2 ^ (53 - dn)) Hp1).
      replace (m1 * 2 ^ (dn - dk) * k * 2 ^ (53 - dn)) with (m1 * B)
        by (rewrite HB2; ring).
      replace (n * (2 ^ 53 + 1) * 2 ^ (53 - dn)) with (A * 2 ^ 53 + A)
        by (rewrite Hmn; ring).
      clear -Hm1 Hqr Hr HA HB.
      destruct Hm1 as [->|[-> Hup]]; nia.
  - (* one shift *)
    assert (Hdq : digits q = 54) by (apply digits_unique; lia).
    rewrite shr_fexp_54 by (unfold e'; lia).
    cbn [fst snd].
    pose proof (round_after_shift_half q B r ltac:(lia)) as Hm1'.
    cbn zeta in Hm1'.
    assert (Hrec : exists r0 s0, shr_record_of_loc q (new_location B r)
                                 = {| shr_m := q; shr_r := r0; shr_s := s0 |}).
    { destruct (new_location B r) as [|[]]; cbn; eauto. }
    destruct Hrec as (r0 & s0 & Hrec). rewrite Hrec in Hm1' |- *.
    rewrite shr_1_nonneg in Hm1' |- * by lia. cbn [shr_m].
    pose proof (round_after_shift (q / 2) (Z.odd q) (r0 || s0)) as Hm1.
    cbn zeta in Hm1.
    set (m1 := round_nearest_even (q / 2) _) in *.
    assert (Hq2 : 2 ^ 52 <= q / 2 < 2 ^ 53).
    { split; [apply Z.div_le_lower_bound | apply Z.div_lt_upper_bound]; lia. }
    assert (H2m1 : 2 * m1 <= q + 1).
    { pose proof (Z.div_mod q 2 ltac:(lia)) as Hq2d.
      pose proof (Zmod_odd q) as Hodd.
      destruct Hm1 as [->|[-> Hup]].
      - pose proof (Z.mod_pos_bound q 2 ltac:(lia)). lia.
      - rewrite Hup in Hodd. lia. }
    assert (HXm : X <= m1).
    { assert (X <= q / 2) by (apply Z.div_le_lower_bound; lia).
      destruct Hm1 as [->|[-> _]]; lia. }
    destruct (finish_spec m1 (e' + 1)) as (ms & es & Hf & Hes & Hv & Hms);
      [destruct Hm1 as [->|[-> _]]; lia | unfold e'; lia |].
    exists ms, es. rewrite Hf.
    assert (HS : Z.pos ms * 2 ^ (es + 53) = m1 * (2 * 2 ^ (dn - dk))).
    { replace (es + 53) with (es - (e' + 1) + (1 + (dn - dk)))
        by (unfold e'; lia).
      rewrite Z.pow_add_r, Z.mul_assoc, Hv by (unfold e' in *; lia).
      rewrite (Z.pow_add_r 2 1 (dn - dk)) by lia. reflexivity. }
    rewrite HS.
    assert (HBA : B <= A) by (clear -Hqr Hr Hge; nia).
    split; [reflexivity|]. split; [unfold e' in *; lia|]. split; [lia|].
    split; [|split].
    + fold Q. rewrite <- H53.
      replace (Q * (2 ^ (52 - dn + dk) * 2 * 2 ^ (dn - dk)))
        with (X * (2 * 2 ^ (dn - dk))) by (unfold X; ring).
      apply Z.mul_le_mono_nonneg_r; lia.
    + apply (Z.mul_le_mono_pos_r _ _ (2 ^ (53 - dn)) Hp1).
      replace (m1 * (2 * 2 ^ (dn - dk)) * k * 2 ^ (53 - dn)) with (2 * m1 * B)
        by (rewrite HB2; ring).
      replace (n * (2 ^ 53 - 1) * 2 ^ (53 - dn)) with (A * 2 ^ 53 - A)
        by (rewrite Hmn; ring).
      clear -Hm1' Hqr Hr HBA.
      destruct Hm1' as [Hge'|[Heq Hr0]]; nia.
    + apply (Z.mul_le_mono_pos_r _ _ (2 ^ (53 - dn)) Hp1).
      replace (m1 * (2 * 2 ^ (dn - dk)) * k * 2 ^ (53 - dn)) with (2 * m1 * B)
        by (rewrite HB2; ring).
      replace (n * (2 ^ 53 + 1) * 2 ^ (53 - dn)) with (A * 2 ^ 53 + A)
        by (rewrite Hmn; ring).
      clear -H2m1 Hqr Hr HBA. nia.
Qed.

(** A cut point is the integer part of the exact multiple of the step, or
    one more. *)
Lemma section_at_bounds n k :
  1 <= k <= n -> n < 2 ^ 53 ->
  exists S,
    n / k * 2 ^ 53 <= S < (n / k + 1) * 2 ^ 53
    /\ forall l, 0 <= l <= k ->
         l * S / 2 ^ 53 <= section_at n k l <= l * S / 2 ^ 53 + 1.
Proof.
  intros Hk Hn.
  destruct (fdiv_of_Z_bounds n k Hk Hn)
    as (ms & es & Hstep & Hes & Hms & Hfloor & Hlow & Hup).
  set (S := Z.pos ms * 2 ^ (es + 53)) in *.
  set (Q := n / k) in *.
  assert (HQ : Q * k <= n < (Q + 1) * k).
  { unfold Q. pose proof (Z.div_mod n k ltac:(lia)).
    pose proof (Z.mod_pos_bound n k ltac:(lia)). nia. }
  assert (HQ1 : 1 <= Q) by nia.
  assert (HS : Q * 2 ^ 53 <= S < (Q + 1) * 2 ^ 53) by (split; nia).
  exists S. split; [exact HS|].
  intros l Hl. unfold section_at. rewrite Hstep.
  destruct (Z.ltb_spec l k) as [Hlk|Hlk].
  - destruct (Z.eq_dec l 0) as [->|Hl0].
    + rewrite cut_point_zero, Z.mul_0_l, Z.div_0_l by lia. lia.
    + rewrite cut_point_value by lia. fold S.
      set (F := l * S / 2 ^ 53).
      assert (HF : F * 2 ^ 53 <= l * S < (F + 1) * 2 ^ 53).
      { unfold F. pose proof (Z.div_mod (l * S) (2 ^ 53) ltac:(lia)).
        pose proof (Z.mod_pos_bound (l * S) (2 ^ 53) ltac:(lia)). nia. }
      assert (HF1 : 1 <= F) by (clear -HF HS HQ1 Hl Hl0; nia).
      assert (HFn : F + 1 < 2 ^ 53).
      { assert (l * S <= (k - 1) * S) by (clear -HS HQ1 Hlk; nia).
        assert ((k - 1) * S < n * 2 ^ 53) by (clear -Hup HS HQ1 Hn Hk; nia).
        clear -HF H H0 Hn. nia. }
      assert (E105 : 2 ^ 105 = 2 ^ 53 * 2 ^ 52) by reflexivity.
      split.
      * apply Z.div_le_lower_bound; [lia|].
        rewrite (Z.mul_comm (2 ^ 105) F), <- (rnd53_exact F 105) by lia.
        apply rnd53_mono. rewrite E105. nia.
      * apply Z.div_le_upper_bound; [lia|].
        rewrite (Z.mul_comm (2 ^ 105) (F + 1)),
          <- (rnd53_exact (F + 1) 105) by lia.
        apply rnd53_mono. rewrite E105. nia.
  - assert (l = k) by lia. subst l.
    set (F := k * S / 2 ^ 53).
    assert (HF : F * 2 ^ 53 <= k * S < (F + 1) * 2 ^ 53).
    { unfold F. pose proof (Z.div_mod (k * S) (2 ^ 53) ltac:(lia)).
      pose proof (Z.mod_pos_bound (k * S) (2 ^ 53) ltac:(lia)). nia. }
    split; nia.
Qed.

(** X16. The row ranges are balanced (lines 255-266). For every worker
    count in [1, n_input_lines] (line counts below [2^53]), every range
    handed to a worker has at least [n_input_lines // n_cores - 1] and at
    most [n_input_lines // n_cores + 2] lines: the rounding of the float64
    cut points moves a boundary by at most one line. In particular every
    worker has at least one line as soon as there are twice as many lines
    as workers. *)
Theorem ranges_are_balanced :
  forall n_input_lines n_cores,
    1 <= n_cores <= n_input_lines -> n_input_lines < 2 ^ 53 ->
    exists sections,
      line_sections n_input_lines n_cores = Ok sections
      /\ forall i c, chunks sections !! i = Some c ->
           n_input_lines / n_cores - 1
           <= Z.of_nat (snd c) - Z.of_nat (fst c)
           <= n_input_lines / n_cores + 2.
Proof.
  intros n k Hk Hn.
  destruct (line_sections_section_at n k Hk Hn) as (Hsec & _ & _ & Hmono).
  destruct (section_at_bounds n k Hk Hn) as (S & HS & Hcut).
  eexists. split; [exact Hsec|].
  intros i c Hc. apply chunks_lookup in Hc.
  destruct Hc as (a & b & Ha & Hb & ->). cbn [fst snd].
  apply lookup_map_seqZ in Ha, Hb. destruct Ha as [Hi ->], Hb as [Hi' ->].
  replace (Z.of_nat (Datatypes.S i)) with (Z.of_nat i + 1) in * by lia.
  set (l := Z.of_nat i) in *.
  destruct (Hmono l ltac:(lia)) as [H1 H2].
  pose proof (Hcut l ltac:(lia)) as Hl.
  pose proof (Hcut (l + 1) ltac:(lia)) as Hl1.
  rewrite !Z2Nat.id by lia.
  set (Q := n / k) in *.
  set (F := l * S / 2 ^ 53) in *. set (F1 := (l + 1) * S / 2 ^ 53) in *.
  assert (HF : F * 2 ^ 53 <= l * S < (F + 1) * 2 ^ 53).
  { unfold F. pose proof (Z.div_mod (l * S) (2 ^ 53) ltac:(lia)).
    pose proof (Z.mod_pos_bound (l * S) (2 ^ 53) ltac:(lia)). nia. }
  assert (HF1 : F1 * 2 ^ 53 <= (l + 1) * S < (F1 + 1) * 2 ^ 53).
  { unfold F1. pose proof (Z.div_mod ((l + 1) * S) (2 ^ 53) ltac:(lia)).
    pose proof (Z.mod_pos_bound ((l + 1) * S) (2 ^ 53) ltac:(lia)). nia. }
  assert (Q <= F1 - F <= Q + 1) by (split; nia).
  lia.
Qed.

Lemma ranges_are_balanced_witness :
  exists sections,
    line_sections 30 22 = Ok sections
    /\ forall i c, chunks sections !! i = Some c ->
         0 <= Z.of_nat (snd c) - Z.of_nat (fst c) <= 3.
Proof.
  destruct (ranges_are_balanced 30 22 ltac:(lia) ltac:(lia))
    as (sections & H1 & H2).
  exists sections. split; [exact H1 | exact H2].
Defined.

(** When the worker count divides the line count the step is the exact
    quotient, and so is every cut point. *)
Lemma section_at_exact n k l :
  1 <= k <= n -> n < 2 ^ 53 -> n mod k = 0 -> 0 <= l <= k ->
  section_at n k l = l * (n / k).
Proof.
  intros Hk Hn Hdiv Hl.
  destruct (fdiv_of_Z_bounds n k Hk Hn)
    as (ms & es & Hstep & Hes & Hms & Hfloor & Hlow & Hup).
  set (Q := n / k) in *.
  assert (HQ : n = k * Q).
  { unfold Q. pose proof (Z.div_mod n k ltac:(lia)). lia. }
  assert (HQ1 : 1 <= Q) by nia.
  assert (HQn : Q <= n) by nia.
  assert (HS : Z.pos ms * 2 ^ (es + 53) = Q * 2 ^ 53).
  { assert (HupS : Z.pos ms * 2 ^ (es + 53) <= Q * 2 ^ 53 + Q) by nia.
    destruct (Z.le_gt_cases (es + 53) 53) as [Hj|Hj].
    - assert (Hp : 0 < 2 ^ (es + 53)) by (apply Z.pow_pos_nonneg; lia).
      assert (E : 2 ^ 53 = 2 ^ (53 - (es + 53)) * 2 ^ (es + 53))
        by (rewrite <- Z.pow_add_r by lia; f_equal; lia).
      assert (Hp' : 0 < 2 ^ (53 - (es + 53))) by (apply Z.pow_pos_nonneg; lia).
      set (P := 2 ^ (es + 53)) in *. set (P' := 2 ^ (53 - (es + 53))) in *.
      assert (HQP : Q < P) by nia.
      assert (Z.pos ms = Q * P') by nia.
      nia.
    - assert (E : 2 ^ (es + 53) = 2 ^ (es + 53 - 53) * 2 ^ 53)
        by (rewrite <- Z.pow_add_r by lia; f_equal; lia).
      assert (Hp' : 0 < 2 ^ (es + 53 - 53)) by (apply Z.pow_pos_nonneg; lia).
      set (P' := 2 ^ (es + 53 - 53)) in *.
      assert (Z.pos ms * P' = Q) by nia.
      nia. }
  unfold section_at. rewrite Hstep. fold Q.
  destruct (Z.ltb_spec l k) as [Hlk|Hlk]; [|nia].
  destruct (Z.eq_dec l 0) as [->|Hl0]; [now rewrite cut_point_zero|].
  rewrite cut_point_value by lia. rewrite HS.
  replace (l * 2 ^ 52 * (Q * 2 ^ 53)) with (l * Q * 2 ^ 105)
    by (change (2 ^ 105) with (2 ^ 52 * 2 ^ 53); ring).
  rewrite rnd53_exact by nia. apply Z.div_mul. lia.
Qed.

(** X17. When the worker count divides the line count, the ranges are
    exactly equal (lines 255-266): worker [i] is given the lines
    [i * q .. (i + 1) * q - 1] with [q = n_input_lines // n_cores]. This
    covers a single worker (the whole raster) and as many workers as
    lines (one line each). *)
Theorem ranges_equal_when_divisible :
  forall n_input_lines n_cores,
    1 <= n_cores <= n_input_lines -> n_input_lines < 2 ^ 53 ->
    n_input_lines mod n_cores = 0 ->
    exists sections,
      line_sections n_input_lines n_cores = Ok sections
      /\ forall i c, chunks sections !! i = Some c ->
           let q := Z.to_nat (n_input_lines / n_cores) in
           c = ((i * q)%nat, ((i + 1) * q)%nat).
Proof.
  intros n k Hk Hn Hdiv.
  destruct (line_sections_section_at n k Hk Hn) as (Hsec & _).
  eexists. split; [exact Hsec|].
  intros i c Hc. cbv zeta. apply chunks_lookup in Hc.
  destruct Hc as (a & b & Ha & Hb & ->).
  apply lookup_map_seqZ in Ha, Hb. destruct Ha as [Hi ->], Hb as [Hi' ->].
  rewrite !section_at_exact by lia.
  assert (0 <= n / k) by (apply Z.div_pos; lia).
  f_equal; nia.
Qed.

Lemma ranges_equal_when_divisible_witness :
  exists sections,
    line_sections 12 4 = Ok sections
    /\ forall i c, chunks sections !! i = Some c ->
         c = ((i * 3)%nat, ((i + 1) * 3)%nat).
Proof.
  destruct (ranges_equal_when_divisible 12 4 ltac:(lia) ltac:(lia) eq_refl)
    as (sections & H1 & H2).
  exists sections. split; [exact H1 | exact H2].
Defined.

(** A float64 that is at least 0 and below 1 has integer part 0. *)
Lemma int_of_float_fraction cpu :
  valid_binary prec emax cpu = true ->
  fleb fzero cpu = true -> fltb cpu fone = true ->
  int_of_float cpu = Some 0.
Proof.
  assert (E1 : fone = S754_finite false 4503599627370496 (-52))
    by (vm_compute; reflexivity).
  rewrite E1. clear E1. intros Hvalid Hge Hlt.
  destruct cpu as [s|s| |s m e].
  - reflexivity.
  - destruct s; discriminate.
  - discriminate.
  - destruct s; [discriminate|].
    cbn [valid_binary] in Hvalid. unfold bounded, canonical_mantissa in Hvalid.
    apply andb_prop in Hvalid. destruct Hvalid as [Hcan _].
    apply Z.eqb_eq in Hcan. unfold fexp, SpecFloat.emin, prec, emax in Hcan.
    pose proof (digits2_pos_bounds m) as Hd.
    assert (Hm : Z.pos m < 2 ^ 53).
    { eapply Z.lt_le_trans; [apply Hd|].
      apply Z.pow_le_mono_r; lia. }
    unfold fltb, SFltb in Hlt. cbn [SFcompare] in Hlt.
    unfold int_of_float. cbn [cond_Zopp]. f_equal.
    destruct (Z.compare_spec e (-52)) as [->|He|He]; try discriminate.
    + assert (Hp : (m < 4503599627370496)%positive).
      { revert Hlt. unfold Pos.lt, Pos.compare.
        destruct (Pos.compare_cont Eq m 4503599627370496); intros Hlt;
          [discriminate Hlt | reflexivity | discriminate Hlt]. }
      change (Z.pos m / 2 ^ 52 = 0). apply Z.div_small.
      change (2 ^ 52) with 4503599627370496.
      split; [apply Pos2Z.is_nonneg | exact Hp].
    + destruct (Z.leb_spec 0 e) as [|_]; [lia|].
      apply Z.div_small. split; [lia|].
      eapply Z.lt_le_trans; [exact Hm|].
      apply Z.pow_le_mono_r; lia.
Qed.

(** X18. A fractional CPU amount. When the cluster reports a CPU amount
    that is at least 0 and below 1, [int] on line 249 truncates it to 0:
    [min] makes the worker count 0, [linspace] returns the single cut
    point 0, no worker is dispatched, and with smoothing disabled the run
    returns with the raster untouched: the run does not fail, it silently
    does nothing (the throughput figures of the log message are then not
    numbers). A cluster that reports no CPU entry at all is another case:
    the subscript of line 249 fails before this point. *)
Theorem fractional_cpu_run_does_nothing :
  forall tree_query inv gaussian_filter inp nneighbors nodata_value sigma st
         cpu n_ray_cores,
    valid_binary prec emax cpu = true ->
    fleb fzero cpu = true -> fltb cpu fone = true ->
    int_of_float cpu = Some n_ray_cores ->
    Z.of_nat (length (input_locations inp)) < 2 ^ 53 ->
    fltb fzero sigma = false ->
    n_ray_cores = 0
    /\ plan n_ray_cores inp (-1) = Ok (0, [0])
    /\ chunks [0] = []
    /\ atm_interpolation tree_query inv gaussian_filter n_ray_cores inp
         nneighbors nodata_value (-1) sigma st = (st, Ok tt).
Proof.
  intros tq inv gf inp k nd sigma st cpu n_ray Hvalid Hge Hlt Hint Hn Hsigma.
  rewrite (int_of_float_fraction cpu Hvalid Hge Hlt) in Hint.
  injection Hint as <-.
  assert (Hplan : plan 0 inp (-1) = Ok (0, [0])).
  { unfold plan, init_ray_args, n_input_lines. cbn [negb Z.eqb]. wunfold.
    rewrite Z.min_l by lia. unfold line_sections, linspace.
    cbn [Z.add Z.ltb Z.compare Z.sub Z.opp Z.pos_sub].
    set (n := Z.of_nat (length (input_locations inp))) in *.
    assert (Hfin : exists v, float_of_Z n = v /\ isfinite v = true).
    { destruct (Z.eq_dec n 0) as [->|Hn0]; [eexists; split; reflexivity|].
      destruct (float_of_Z_canonical n ltac:(lia)) as (m & -> & _).
      eexists; split; reflexivity. }
    destruct Hfin as (v & -> & Hv).
    change (seqZ 0 1) with [0]. cbn [map].
    destruct v as [s|s| |s m e]; try discriminate; destruct s; reflexivity. }
  split; [reflexivity|]. split; [exact Hplan|]. split; [reflexivity|].
  unfold atm_interpolation. rewrite wbind_eq. unfold lift. rewrite Hplan.
  cbn [snd]. change (chunks [0]) with (@nil (nat * nat)). cbn [run_chunks].
  rewrite wbind_eq. cbn. unfold smoother. now rewrite Hsigma.
Qed.

(** Half a CPU: [int(0.5) = 0]. *)
Lemma fractional_cpu_run_does_nothing_witness :
  let cpu := fdiv fone (float_of_Z 2) in
  int_of_float cpu = Some 0
  /\ atm_interpolation exhaustive_query cofactor_inv (kernel_filter [fone]) 0
       (scenario (Some two_labels)) 5 default_nodata (-1) fzero initial_state
     = (initial_state, Ok tt).
Proof.
  intros cpu. split; [vm_compute; reflexivity|].
  apply (fractional_cpu_run_does_nothing exhaustive_query cofactor_inv
           (kernel_filter [fone]) (scenario (Some two_labels)) 5
           default_nodata fzero initial_state cpu 0).
  - vm_compute. reflexivity.
  - vm_compute. reflexivity.
  - vm_compute. reflexivity.
  - vm_compute. reflexivity.
  - vm_compute. reflexivity.
  - reflexivity.
Defined.
